(** * linea: masking, design matrices and phase folding of CHEOPS light curves

    A shallow embedding of [linea/core.py].  Numbers are an idealisation of
    numpy's float64: exact rationals together with the two infinities and
    NaN, so that division by zero and NaN propagation behave as numpy's do
    while finite arithmetic is exact (no rounding, no overflow, no signed
    zero).  Methods that can raise return a [result].  The numpy and astropy
    functions the module calls (trigonometry, robust statistics, sigma
    clipping) are the fields of the class [Library]; the solver of
    [linea/linalg.py] is not modelled, only the arguments handed to it. *)

From Stdlib Require Import QArith Qround Qabs Lqa Lia ZArith List Bool Ascii String.
From stdpp Require Import base option list gmap strings pretty.

(** ** Python exceptions and the error monad *)

Inductive exn : Type :=
| AttributeError
| ValueError
| IndexError
| TypeError
| KeyError
| ZeroDivisionError.

Inductive result (A : Type) : Type :=
| OK (a : A)
| Raise (e : exn).
Arguments OK {A} a.
Arguments Raise {A} e.

#[global] Instance result_ret : MRet result := fun A a => OK a.
#[global] Instance result_bind : MBind result := fun A B f r =>
  match r with
  | OK a => f a
  | Raise e => Raise e
  end.

(** [getattr(obj, name)] on an attribute that may be absent. *)
Definition getattr {A : Type} (o : option A) : result A :=
  match o with
  | Some a => OK a
  | None => Raise AttributeError
  end.

(** [try: body  except: handler], the bare [except] of the module. *)
Definition try_except {A : Type} (body : result A) (handler : result A) : result A :=
  match body with
  | OK a => OK a
  | Raise _ => handler
  end.

(** ** Numbers *)

Module Num.

Local Open Scope Q_scope.

Inductive num : Type :=
| Fin (q : Q)
| PInf
| NInf
| NaN.

Definition isnan (x : num) : bool :=
  match x with NaN => true | _ => false end.

Definition isfinite (x : num) : bool :=
  match x with Fin _ => true | _ => false end.

Definition inf_of (c : comparison) : num :=
  match c with Gt => PInf | Lt => NInf | Eq => NaN end.

Definition sign (x : num) : comparison :=
  match x with
  | Fin q => q ?= 0
  | PInf => Gt
  | NInf => Lt
  | NaN => Eq
  end.

Definition sign_mul (c1 c2 : comparison) : comparison :=
  match c1, c2 with
  | Eq, _ | _, Eq => Eq
  | Gt, Gt | Lt, Lt => Gt
  | _, _ => Lt
  end.

Definition neg (x : num) : num :=
  match x with
  | Fin q => Fin (- q)
  | PInf => NInf
  | NInf => PInf
  | NaN => NaN
  end.

Definition add (x y : num) : num :=
  match x, y with
  | NaN, _ | _, NaN => NaN
  | Fin a, Fin b => Fin (a + b)
  | PInf, NInf | NInf, PInf => NaN
  | PInf, _ | _, PInf => PInf
  | NInf, _ | _, NInf => NInf
  end.

Definition sub (x y : num) : num := add x (neg y).

Definition mul (x y : num) : num :=
  match x, y with
  | NaN, _ | _, NaN => NaN
  | Fin a, Fin b => Fin (a * b)
  | _, _ => inf_of (sign_mul (sign x) (sign y))
  end.

(** numpy division: [x / 0] is [nan] for [x = 0] and an infinity of the sign
    of [x] otherwise (a warning, never an exception). *)
Definition div (x y : num) : num :=
  match x, y with
  | NaN, _ | _, NaN => NaN
  | Fin a, Fin b => if Qeq_bool b 0 then inf_of (a ?= 0) else Fin (a / b)
  | Fin _, _ => Fin 0
  | _, Fin b => if Qeq_bool b 0 then x else inf_of (sign_mul (sign x) (b ?= 0))
  | _, _ => NaN
  end.

Definition abs (x : num) : num :=
  match x with
  | Fin q => Fin (Qabs q)
  | PInf | NInf => PInf
  | NaN => NaN
  end.

(** Comparisons: anything compared with NaN is [False]. *)
Definition ltb (x y : num) : bool :=
  match x, y with
  | NaN, _ | _, NaN => false
  | Fin a, Fin b => match a ?= b with Lt => true | _ => false end
  | NInf, NInf | PInf, _ | _, NInf => false
  | _, _ => true
  end.

Definition leb (x y : num) : bool :=
  match x, y with
  | NaN, _ | _, NaN => false
  | Fin a, Fin b => match a ?= b with Gt => false | _ => true end
  | NInf, _ | _, PInf => true
  | _, _ => false
  end.

Definition gtb (x y : num) : bool := ltb y x.
Definition geb (x y : num) : bool := leb y x.

(** Floored remainder on the rationals: the result has the sign of [y]. *)
Definition Qmod (x y : Q) : Q := x - y * inject_Z (Qfloor (x / y)).

(** numpy's [%] ([np.mod]): remainder of floored division. *)
Definition mod_ (x y : num) : num :=
  match x, y with
  | Fin a, Fin b => if Qeq_bool b 0 then NaN else Fin (Qmod a b)
  | Fin a, PInf => match a ?= 0 with Lt => PInf | _ => Fin a end
  | Fin a, NInf => match a ?= 0 with Gt => NInf | _ => Fin a end
  | _, _ => NaN
  end.

(** [np.minimum] / [np.maximum]: NaN propagates. *)
Definition min (x y : num) : num :=
  if isnan x then x else if isnan y then y else if ltb y x then y else x.

Definition max (x y : num) : num :=
  if isnan x then x else if isnan y then y else if ltb x y then y else x.

Definition of_nat (n : nat) : num := Fin (inject_Z (Z.of_nat n)).

Definition zero : num := Fin 0.
Definition one : num := Fin 1.
Definition two : num := Fin 2.
Definition half : num := Fin (1 # 2).

(** Equality of numbers up to the representation of the rational. *)
Definition eqv (x y : num) : Prop :=
  match x, y with
  | Fin a, Fin b => a == b
  | PInf, PInf | NInf, NInf | NaN, NaN => True
  | _, _ => False
  end.

End Num.

Import Num.

Abbreviation vec := (list num).

(** ** One-dimensional arrays *)

(** [vector.min()] and [vector.max()]: a reduction of an empty array raises
    [ValueError]. *)
Definition vmin (v : vec) : result num :=
  match v with
  | [] => Raise ValueError
  | x :: xs => OK (foldl Num.min x xs)
  end.

Definition vmax (v : vec) : result num :=
  match v with
  | [] => Raise ValueError
  | x :: xs => OK (foldl Num.max x xs)
  end.

(** [vector.ptp()]: peak to peak, maximum minus minimum. *)
Definition ptp (v : vec) : result num :=
  hi ← vmax v; lo ← vmin v; mret (Num.sub hi lo).

(** [def normalize(vector)]:
    [return (vector - vector.min()) / vector.ptp() - 0.5] *)
Definition normalize (vector : vec) : result vec :=
  lo ← vmin vector;
  range ← ptp vector;
  mret (map (fun x => Num.sub (Num.div (Num.sub x lo) range) Num.half) vector).

(** Element-wise binary operation of two arrays, with numpy's broadcasting of
    a length-one operand; other length mismatches raise [ValueError]. *)
Definition broadcast2 {A B C : Type} (f : A -> B -> C) (xs : list A) (ys : list B)
  : result (list C) :=
  if Nat.eqb (length xs) (length ys) then OK (zip_with f xs ys)
  else match xs, ys with
       | [x], _ => OK (map (f x) ys)
       | _, [y] => OK (map (fun x => f x y) xs)
       | _, _ => Raise ValueError
       end.

(** In-place [target |= other]: the result keeps the shape of [target], so
    only [other] may be broadcast. *)
Definition ior (target other : list bool) : result (list bool) :=
  if Nat.eqb (length target) (length other) then OK (zip_with orb target other)
  else match other with
       | [b] => OK (map (fun t => orb t b) target)
       | _ => Raise ValueError
       end.

(** Boolean-mask indexing [v[~mask]]: the entries where the mask is [False].
    The mask must have the length of the indexed axis. *)
Fixpoint select_unmasked {A : Type} (mask : list bool) (v : list A) : list A :=
  match mask, v with
  | m :: ms, x :: xs => if m then select_unmasked ms xs else x :: select_unmasked ms xs
  | _, _ => []
  end.

Definition index_unmasked {A : Type} (mask : list bool) (v : list A) : result (list A) :=
  if Nat.eqb (length mask) (length v) then OK (select_unmasked mask v)
  else Raise IndexError.

(** [np.count_nonzero(~mask)] *)
Definition count_unmasked (mask : list bool) : nat :=
  length (List.filter negb mask).

(** Assignment [mask[~mask] = vals]: the unmasked positions receive the
    values in order. *)
Fixpoint assign_unmasked (mask vals : list bool) : list bool :=
  match mask with
  | [] => []
  | true :: ms => true :: assign_unmasked ms vals
  | false :: ms =>
      match vals with
      | v :: vs => v :: assign_unmasked ms vs
      | [] => false :: assign_unmasked ms []
      end
  end.

(** [np.concatenate] of a list of one-dimensional arrays; an empty list
    raises [ValueError]. *)
Definition np_concatenate {A : Type} (parts : list (list A)) : result (list A) :=
  match parts with
  | [] => Raise ValueError
  | _ => OK (concat parts)
  end.

(** Monadic map over a list, left to right. *)
Fixpoint mapM_result {A B : Type} (f : A -> result B) (l : list A) : result (list B) :=
  match l with
  | [] => OK []
  | x :: xs => y ← f x; ys ← mapM_result f xs; mret (y :: ys)
  end.

(** A loop that threads a state and stops at the first exception. *)
Fixpoint foldM_result {S I : Type} (f : S -> I -> result S) (s : S) (l : list I) : result S :=
  match l with
  | [] => OK s
  | i :: l' => s' ← f s i; foldM_result f s' l'
  end.

(** ** Two-dimensional arrays *)

Record ndarray : Type := mk_ndarray {
  shape0 : nat;
  shape1 : nat;
  rows : list (list num)
}.

Definition wf_ndarray (X : ndarray) : Prop :=
  length (rows X) = shape0 X /\ Forall (fun r => length r = shape1 X) (rows X).

(** Entry [X[i, j]]. *)
Definition entry (X : ndarray) (i j : nat) : option num :=
  r ← rows X !! i; r !! j.

(** An operand of [np.vstack]: a one- or a two-dimensional array. *)
Inductive arr : Type :=
| A1 (v : vec)
| A2 (X : ndarray).

(** [np.atleast_2d]: a vector of length [n] becomes one row of shape (1, n). *)
Definition atleast_2d (a : arr) : ndarray :=
  match a with
  | A1 v => mk_ndarray 1 (length v) [v]
  | A2 X => X
  end.

(** [np.zeros((r, c))] and [np.ones(n)] *)
Definition np_zeros (r c : nat) : ndarray :=
  mk_ndarray r c (replicate r (replicate c Num.zero)).

Definition np_ones (n : nat) : vec := replicate n Num.one.

(** Concatenation along the first axis; the column counts must agree. *)
Fixpoint vstack_onto (X : ndarray) (rest : list ndarray) : result ndarray :=
  match rest with
  | [] => OK X
  | Y :: rest' =>
      if Nat.eqb (shape1 X) (shape1 Y)
      then vstack_onto (mk_ndarray (shape0 X + shape0 Y) (shape1 X) (rows X ++ rows Y)) rest'
      else Raise ValueError
  end.

Definition np_vstack (parts : list arr) : result ndarray :=
  match map atleast_2d parts with
  | [] => Raise ValueError
  | X :: rest => vstack_onto X rest
  end.

(** Concatenation along the second axis; the row counts must agree. *)
Fixpoint hstack_onto (X : ndarray) (rest : list ndarray) : result ndarray :=
  match rest with
  | [] => OK X
  | Y :: rest' =>
      if Nat.eqb (shape0 X) (shape0 Y)
      then hstack_onto (mk_ndarray (shape0 X) (shape1 X + shape1 Y)
                          (zip_with app (rows X) (rows Y))) rest'
      else Raise ValueError
  end.

Definition np_hstack (parts : list ndarray) : result ndarray :=
  match parts with
  | [] => Raise ValueError
  | X :: rest => hstack_onto X rest
  end.

(** [X.T] *)
Definition transpose (X : ndarray) : ndarray :=
  mk_ndarray (shape1 X) (shape0 X)
    (map (fun j => map (fun r => default Num.zero (r !! j)) (rows X)) (seq 0 (shape1 X))).

(** [X[~mask]]: the rows where the mask is [False]. *)
Definition rows_unmasked (mask : list bool) (X : ndarray) : result ndarray :=
  if Nat.eqb (length mask) (shape0 X)
  then OK (mk_ndarray (count_unmasked mask) (shape1 X) (select_unmasked mask (rows X)))
  else Raise IndexError.

(** [X[:, 0]] *)
Definition column0 (X : ndarray) : result vec :=
  match shape1 X with
  | O => Raise IndexError
  | S _ => OK (map (fun r => default Num.zero (r !! 0%nat)) (rows X))
  end.

(** ** Library functions

    The numpy and astropy functions the module calls.  [sigma_clip su sl
    maxiters data] is the [.mask] of astropy's
    [SigmaClip(sigma_upper=su, sigma_lower=sl, stdfunc=mad_std,
    maxiters=maxiters)(data)]. *)
Class Library : Type := {
  np_cos : num -> num;
  np_sin : num -> num;
  np_radians : num -> num;
  np_deg2rad : num -> num;
  np_sqrt : num -> num;
  np_arcsin : num -> num;
  np_pi : num;
  np_hypot : num -> num -> num;
  np_median : vec -> num;
  np_nanmedian : vec -> num;
  mad_std : vec -> num;
  sigma_clip : num -> num -> option nat -> vec -> list bool
}.

(** ** Strings *)

Definition lower_ascii (c : ascii) : ascii :=
  let n := nat_of_ascii c in
  if Nat.leb 65 n && Nat.leb n 90 then ascii_of_nat (n + 32) else c.

(** [str.lower()] on ASCII names. *)
Fixpoint lower (s : string) : string :=
  match s with
  | EmptyString => EmptyString
  | String c r => String (lower_ascii c) (lower r)
  end.

Definition upper_ascii (c : ascii) : ascii :=
  let n := nat_of_ascii c in
  if Nat.leb 97 n && Nat.leb n 122 then ascii_of_nat (n - 32) else c.

(** [str.upper()] on ASCII names. *)
Fixpoint upper (s : string) : string :=
  match s with
  | EmptyString => EmptyString
  | String c r => String (upper_ascii c) (upper r)
  end.

(** The ASCII characters Python's [str] methods take for white space. *)
Definition is_space (c : ascii) : bool :=
  let n := nat_of_ascii c in
  Nat.eqb n 32 || (Nat.leb 9 n && Nat.leb n 13) || (Nat.leb 28 n && Nat.leb n 31).

(** [str.rstrip()] *)
Fixpoint rstrip (s : string) : string :=
  match s with
  | EmptyString => EmptyString
  | String c r =>
      match rstrip r with
      | EmptyString => if is_space c then EmptyString else String c EmptyString
      | r' => String c r'
      end
  end.

(** [str(n)] for a non-negative integer. *)
Definition str (n : nat) : string := pretty n.

(** ** The vocabulary of vectors *)

Definition attrs : list string :=
  [ "background"; "bjd_time"; "centroid_x"; "centroid_y"; "conta_lc";
    "conta_lc_err"; "dark"; "event"; "flux"; "fluxerr"; "location_x";
    "location_y"; "mjd_time"; "roll_angle"; "smearing_lc"; "smearing_lc_err";
    "status"; "utc_time" ]
  ++ [ "u0"; "u1"; "u2"; "xc"; "yc"; "bg" ].

(** ** Light curves *)

(** The planet-parameter object, read only; its parameters are Python
    numbers. *)
Module Planet.
Record t : Type := mk {
  per : num;
  a : num;
  inc : num;
  rp : num;
  t0 : num
}.
End Planet.

(** A [CheopsLightCurve] object.  [recs] is the FITS record array (its
    columns in order), or [None] for anything that is not one, such as the
    default [{}].  [vectors] holds the vocabulary attributes that were set on
    the object, keyed by attribute name; an absent key is an absent
    attribute.  [mask] is [None] when the constructor was given neither flux
    nor a mask. *)
Record CheopsLightCurve : Type := mk_lc {
  recs : option (list (string * vec));
  extra_basis_vectors : option arr;
  vectors : gmap string vec;
  mask : option (list bool)
}.

Definition set_mask (lc : CheopsLightCurve) (m : list bool) : CheopsLightCurve :=
  mk_lc (recs lc) (extra_basis_vectors lc) (vectors lc) (Some m).

(** [self.<name>] for a vocabulary attribute. *)
Definition attr (lc : CheopsLightCurve) (name : string) : result vec :=
  getattr (vectors lc !! name).

(** [self.mask] used as an array: [None] is not one. *)
Definition mask_array (lc : CheopsLightCurve) : result (list bool) :=
  match mask lc with
  | Some m => OK m
  | None => Raise TypeError
  end.

(** [self.mask |= other] *)
Definition mask_ior (lc : CheopsLightCurve) (other : list bool) : result CheopsLightCurve :=
  m ← mask_array lc;
  m' ← ior m other;
  mret (set_mask lc m').

(** *** The constructor *)

(** The columns whose name is [key] once case and trailing blanks are
    set aside. *)
Definition folded_matches (cols : list (string * vec)) (key : string)
  : list (string * vec) :=
  List.filter (fun c => String.eqb (rstrip (lower (fst c))) (rstrip (lower key))) cols.

(** [self.recs[key]] on the FITS record array, as astropy looks a column up
    by name: the column named exactly [key] (less its trailing blanks) if
    there is one; failing that the one column whose name is [key] ignoring
    case and trailing blanks, and [KeyError] when there is none or when
    there are several. *)
Definition recs_getitem (cols : list (string * vec)) (key : string) : result vec :=
  match List.find (fun c => String.eqb (fst c) (rstrip key)) cols with
  | Some c => OK (snd c)
  | None =>
      match folded_matches cols key with
      | [c] => OK (snd c)
      | _ => Raise KeyError
      end
  end.

(** One turn of the loop over the vocabulary that copies the columns onto
    the object: [self.recs[key.upper()]] when a column name is [key] in lower
    case, and otherwise [self.recs['roll']], as the roll angle, when a column
    name is [roll] in lower case. *)
Definition load_key (cols : list (string * vec)) (vs : gmap string vec) (key : string)
  : result (gmap string vec) :=
  if bool_decide (key ∈ map (fun c => lower (fst c)) cols) then
    v ← recs_getitem cols (upper key); mret (<[key := v]> vs)
  else if bool_decide ("roll" ∈ map (fun c => lower (fst c)) cols) then
    v ← recs_getitem cols "roll"; mret (<["roll_angle" := v]> vs)
  else OK vs.

Definition load_vectors (record_array : option (list (string * vec)))
  : result (gmap string vec) :=
  match record_array with
  | Some cols => foldM_result (load_key cols) ∅ attrs
  | None => OK ∅
  end.

(** [v.astype(bool)]: everything but zero is [True]. *)
Definition astype_bool (x : num) : bool :=
  match x with
  | Fin q => negb (Qeq_bool q 0)
  | _ => true
  end.

(** The mask set at construction: NaN fluxes and, when both are present,
    the status and event flags; the [mask] argument only when there is no
    flux. *)
Definition default_mask (vs : gmap string vec) (mask_arg : option (list bool))
  : result (option (list bool)) :=
  match vs !! "flux" with
  | None => OK mask_arg
  | Some flux =>
      match vs !! "status", vs !! "event" with
      | Some status, Some event =>
          m1 ← broadcast2 orb (map Num.isnan flux) (map astype_bool status);
          m2 ← broadcast2 orb m1 (map astype_bool event);
          mret (Some m2)
      | _, _ => OK (Some (map Num.isnan flux))
      end
  end.

(** [CheopsLightCurve.__init__] *)
Definition CheopsLightCurve_init `{Library}
    (record_array : option (list (string * vec))) (extra : option arr)
    (mask_arg : option (list bool)) (norm : bool) : result CheopsLightCurve :=
  vs ← load_vectors record_array;
  m ← default_mask vs mask_arg;
  vs' ← match vs !! "flux" with
        | Some flux =>
            if norm then
              fluxerr ← getattr (vs !! "fluxerr");
              let med := np_nanmedian flux in
              mret (<["flux" := map (fun x => Num.div x med) flux]>
                      (<["fluxerr" := map (fun x => Num.div x med) fluxerr]> vs))
            else OK vs
        | None => OK vs
        end;
  mret (mk_lc record_array extra vs' m).

(** *** Design matrices *)

Definition normalize_if (norm : bool) (v : vec) : result vec :=
  if norm then normalize v else OK v.

(** The tail shared by both builders: append the extra basis vectors, if
    any, as further columns. *)
Definition append_extra (X : ndarray) (extra : option arr) : result ndarray :=
  match extra with
  | Some E => Xe ← np_vstack [A2 (transpose X); E]; mret (transpose Xe)
  | None => OK X
  end.

(** [CheopsLightCurve.design_matrix] *)
Definition design_matrix `{Library} (lc : CheopsLightCurve) (norm : bool) : result ndarray :=
  roll ← attr lc "roll_angle";
  c ← normalize_if norm (map (fun r => np_cos (np_radians r)) roll);
  s ← normalize_if norm (map (fun r => np_sin (np_radians r)) roll);
  bjd ← attr lc "bjd_time";
  Xt ← np_vstack [A1 c; A1 s; A1 (np_ones (length bjd))];
  X ← append_extra (transpose Xt) (extra_basis_vectors lc);
  m ← mask_array lc;
  rows_unmasked m X.

(** One turn of the loop over the roll-angle harmonics. *)
Definition harmonic_step `{Library} (lc : CheopsLightCurve) (norm : bool)
    (st : arr * list string) (i : nat) : result (arr * list string) :=
  let '(X, name_detrend) := st in
  roll ← attr lc "roll_angle";
  let k := Num.of_nat (i + 1) in
  sin1 ← normalize_if norm (map (fun r => np_sin (Num.mul k (np_radians r))) roll);
  cos1 ← normalize_if norm (map (fun r => np_cos (Num.mul k (np_radians r))) roll);
  X1 ← np_vstack [X; A1 sin1];
  X2 ← np_vstack [A2 X1; A1 cos1];
  mret (A2 X2, name_detrend ++ ["sin" +:+ str (i + 1); "cos" +:+ str (i + 1)]).

(** [xc, yc, bg] under either naming convention. *)
Definition centroid_vectors (lc : CheopsLightCurve) : result (vec * vec * vec) :=
  try_except
    (x ← attr lc "centroid_x"; y ← attr lc "centroid_y"; b ← attr lc "background";
     mret (x, y, b))
    (x ← attr lc "xc"; y ← attr lc "yc"; b ← attr lc "bg"; mret (x, y, b)).

(** An optional pair of columns, inside [try: ... except: pass]. *)
Definition try_pair (lc : CheopsLightCurve) (norm : bool) (n1 n2 : string)
    (label1 label2 : string) (st : ndarray * list string) : ndarray * list string :=
  match (v1 ← attr lc n1; v1' ← normalize_if norm v1;
         v2 ← attr lc n2; v2' ← normalize_if norm v2;
         X' ← np_vstack [A2 (fst st); A1 v1'; A1 v2'];
         mret (X', snd st ++ [label1; label2])) with
  | OK st' => st'
  | Raise _ => st
  end.

(** [CheopsLightCurve.design_matrix_all] *)
Definition design_matrix_all `{Library} (lc : CheopsLightCurve) (harmonics : nat)
    (norm : bool) : result (ndarray * list string) :=
  bjd ← attr lc "bjd_time";
  '(X, name_detrend) ← foldM_result (harmonic_step lc norm)
                         (A1 (np_ones (length bjd)), ["ones"]) (seq 0 harmonics);
  '(xc, yc, bg) ← centroid_vectors lc;
  nxc ← normalize_if norm xc;
  nyc ← normalize_if norm yc;
  nx2 ← normalize_if norm (map (fun x => Num.mul x x) xc);
  ny2 ← normalize_if norm (map (fun y => Num.mul y y) yc);
  xy ← broadcast2 Num.mul xc yc;
  nxy ← normalize_if norm xy;
  nbg ← normalize_if norm bg;
  X ← np_vstack [X; A1 nxc; A1 nyc; A1 nx2; A1 ny2; A1 nxy; A1 nbg];
  let name_detrend := name_detrend ++ ["xc"; "yc"; "x2"; "y2"; "xy"; "bg"] in
  let st := try_pair lc norm "conta_lc" "smearing_lc" "contamination" "smearing"
              (X, name_detrend) in
  let st := try_pair lc norm "u1" "u2" "u1" "u2" st in
  let X := transpose (fst st) in
  let name_detrend := snd st in
  match extra_basis_vectors lc with
  | Some E =>
      X ← append_extra X (Some E);
      col ← match E with
            | A1 _ => Raise IndexError
            | A2 M => column0 M
            end;
      let name_detrend :=
        name_detrend ++ map (fun i => "extra" +:+ str (i + 1)) (seq 0 (length col)) in
      m ← mask_array lc;
      Xm ← rows_unmasked m X;
      mret (Xm, name_detrend)
  | None =>
      m ← mask_array lc;
      Xm ← rows_unmasked m X;
      mret (Xm, name_detrend)
  end.

(** *** Masking operations *)

(** Python's built-in [min([x, y])]: the first of the smallest. *)
Definition py_min (x y : num) : num := if Num.ltb y x then y else x.

(** [CheopsLightCurve.sigma_clip_centroid] *)
Definition sigma_clip_centroid `{Library} (lc : CheopsLightCurve) (sigma : num)
  : result CheopsLightCurve :=
  cx ← attr lc "centroid_x";
  let x_mean := np_median cx in
  cy ← attr lc "centroid_y";
  let y_mean := np_median cy in
  let x_std := mad_std cx in
  let y_std := mad_std cy in
  dist ← broadcast2 np_hypot (map (fun x => Num.sub x x_mean) cx)
                             (map (fun y => Num.sub y y_mean) cy);
  let outliers := map (fun d => Num.ltb (Num.mul sigma (py_min x_std y_std)) d) dist in
  mask_ior lc outliers.

(** [CheopsLightCurve.sigma_clip_flux]:
    [self.mask[~self.mask] |= sc(self.flux[~self.mask]).mask] *)
Definition sigma_clip_flux `{Library} (lc : CheopsLightCurve)
    (sigma_upper sigma_lower : num) (maxiters : option nat) : result CheopsLightCurve :=
  m ← mask_array lc;
  flux ← attr lc "flux";
  kept ← index_unmasked m flux;
  let clipped := sigma_clip sigma_upper sigma_lower maxiters kept in
  let current := select_unmasked m m in
  updated ← ior current clipped;
  mret (set_mask lc (assign_unmasked m updated)).

(** [CheopsLightCurve.high_bg_clip] *)
Definition high_bg_clip (lc : CheopsLightCurve) (bgmin : num) : result CheopsLightCurve :=
  bg ← attr lc "bg";
  let msk := map (fun b => Num.gtb b bgmin) bg in
  mask_ior lc msk.

(** Division of two Python numbers: a zero divisor raises, where numpy's
    division gives an infinity or NaN. *)
Definition py_div (x y : num) : result num :=
  match y with
  | Fin b => if Qeq_bool b 0 then Raise ZeroDivisionError else OK (Num.div x y)
  | _ => OK (Num.div x y)
  end.

(** The total transit (and eclipse) duration [t14] from the geometry.  The
    parameters of the planet are Python numbers and [np.pi] is one, so
    [per1/np.pi] and [1/ar1] are Python divisions; [np.deg2rad] returns a
    numpy scalar, which makes [bb], and with it [bb/ar1] and [cd/ef], numpy's. *)
Definition transit_duration `{Library} (pl : Planet.t) : result num :=
  let per1 := Planet.per pl in
  let ar1 := Planet.a pl in
  let inc1 := np_deg2rad (Planet.inc pl) in
  let rprs1 := Planet.rp pl in
  let bb := Num.mul ar1 (np_cos inc1) in
  ab ← py_div per1 np_pi;
  let cd := Num.sub (Num.mul (Num.add Num.one rprs1) (Num.add Num.one rprs1)) (Num.mul bb bb) in
  let ef := Num.sub Num.one (Num.mul (Num.div bb ar1) (Num.div bb ar1)) in
  inv_a ← py_div Num.one ar1;
  let br1 := Num.mul inv_a (np_sqrt (Num.div cd ef)) in
  mret (Num.mul ab (np_arcsin br1)).

(** [v[v > cut] -= 1] *)
Definition wrap_above (cut : num) (v : vec) : vec :=
  map (fun p => if Num.gtb p cut then Num.sub p Num.one else p) v.

(** The phase of the planetary-signal mask:
    [phs = ((bjd_time - tc) / per) % 1], then values above 0.5 less one. *)
Definition centred_phase (tc per1 : num) (bjd_time : vec) : vec :=
  wrap_above Num.half
    (map (fun t => Num.mod_ (Num.div (Num.sub t tc) per1) Num.one) bjd_time).

(** [~msk2], where
    [msk2 = (np.abs(phs1*per1) >= t14) & (np.abs(phs2*per1) >= t14)] *)
Definition planetary_signal (per1 t14 : num) (phs1 phs2 : vec) : list bool :=
  map negb
    (zip_with andb
       (map (fun p => Num.geb (Num.abs (Num.mul p per1)) t14) phs1)
       (map (fun p => Num.geb (Num.abs (Num.mul p per1)) t14) phs2)).

(** [CheopsLightCurve.mask_planetary_signal] *)
Definition mask_planetary_signal `{Library} (lc : CheopsLightCurve) (pl : Planet.t)
  : result CheopsLightCurve :=
  let per1 := Planet.per pl in
  let t01 := Planet.t0 pl in
  let t02 := Num.add (Planet.t0 pl) (Num.div per1 Num.two) in
  t14 ← transit_duration pl;
  bjd ← attr lc "bjd_time";
  let phs1 := centred_phase t01 per1 bjd in
  let phs2 := centred_phase t02 per1 bjd in
  mask_ior lc (planetary_signal per1 t14 phs1 phs2).

(** *** Phase folding *)

(** [CheopsLightCurve.phase]:
    [((self.bjd_time - planet_params.t0) % planet_params.per) / planet_params.per] *)
Definition phase (lc : CheopsLightCurve) (planet_params : Planet.t) : result vec :=
  bjd ← attr lc "bjd_time";
  mret (map (fun t => Num.div (Num.mod_ (Num.sub t (Planet.t0 planet_params))
                                  (Planet.per planet_params))
                        (Planet.per planet_params)) bjd).

Definition cut_plot : num := Fin (95 # 100).

(** The phases of [CheopsLightCurve.plot_phase_curve], at the given times:
    [((t - params.t0 - t0_offset) % params.per) / params.per], then values
    above 0.95 less one. *)
Definition plot_phases (params : Planet.t) (t0_offset : num) (times : vec) : vec :=
  wrap_above cut_plot
    (map (fun t => Num.div (Num.mod_ (Num.sub (Num.sub t (Planet.t0 params)) t0_offset)
                              (Planet.per params))
                     (Planet.per params)) times).

(** [phases] of [plot_phase_curve]: the unmasked times, folded. *)
Definition plot_phase_curve_phases (lc : CheopsLightCurve) (params : Planet.t)
    (t0_offset : num) : result vec :=
  bjd ← attr lc "bjd_time";
  m ← mask_array lc;
  kept ← index_unmasked m bjd;
  mret (plot_phases params t0_offset kept).

(** ** Attribute lookup on objects *)

(** What an attribute of a light curve can hold. *)
Inductive pyval : Type :=
| VVec (v : vec)
| VMask (m : option (list bool))
| VExtra (e : option arr)
| VRecs (r : option (list (string * vec)))
| VTime
| VMethod (name : string).

(** Attributes every instance of a Python class has through [object] and
    through the class statement, as of CPython 3.11 and 3.12 (which added
    [__getstate__]). *)
Definition object_attrs : list string :=
  [ "__class__"; "__delattr__"; "__dict__"; "__dir__"; "__doc__"; "__eq__";
    "__format__"; "__ge__"; "__getattribute__"; "__getstate__"; "__gt__";
    "__hash__"; "__init__"; "__init_subclass__"; "__le__"; "__lt__";
    "__module__"; "__ne__"; "__new__"; "__reduce__"; "__reduce_ex__";
    "__repr__"; "__setattr__"; "__sizeof__"; "__str__"; "__subclasshook__";
    "__weakref__" ].

Definition CheopsLightCurve_methods : list string :=
  [ "from_fits"; "from_example"; "plot"; "design_matrix"; "design_matrix_all";
    "sigma_clip_centroid"; "sigma_clip_flux"; "high_bg_clip";
    "mask_planetary_signal"; "regress"; "plot_phase_curve"; "phase" ].

Definition JointLightCurve_methods : list string :=
  [ "from_example"; "concatenate"; "_pad_shapes"; "combined_design_matrix";
    "__iter__"; "__len__"; "__getitem__"; "regress"; "plot" ].

(** [getattr(lc, name)]: the instance attributes first, then the class. *)
Definition lc_getattr (lc : CheopsLightCurve) (name : string) : result pyval :=
  if String.eqb name "recs" then OK (VRecs (recs lc))
  else if String.eqb name "extra_basis_vectors" then OK (VExtra (extra_basis_vectors lc))
  else if String.eqb name "time" then OK VTime
  else if String.eqb name "mask" then OK (VMask (mask lc))
  else match vectors lc !! name with
       | Some v => OK (VVec v)
       | None =>
           if bool_decide (name ∈ CheopsLightCurve_methods ++ object_attrs)
           then OK (VMethod name)
           else Raise AttributeError
       end.

(** ** Joint light curves *)

(** What an instance attribute of a [JointLightCurve] can hold. *)
Inductive jval : Type :=
| JLightCurves (lcs : list CheopsLightCurve)
| JNames (names : list string)
| JCopied (vals : list pyval).

(** A [JointLightCurve] object: its instance dictionary. *)
Record JointLightCurve : Type := mk_joint {
  jdict : gmap string jval
}.

(** [hasattr(self, name)] *)
Definition joint_hasattr (self : JointLightCurve) (name : string) : bool :=
  bool_decide (is_Some (jdict self !! name))
  || bool_decide (name ∈ JointLightCurve_methods ++ object_attrs).

Definition joint_setattr (self : JointLightCurve) (name : string) (v : jval)
  : JointLightCurve :=
  mk_joint (<[name := v]> (jdict self)).

(** One turn of the loop of the constructor. *)
Definition copy_attr (light_curves : list CheopsLightCurve)
    (self : JointLightCurve) (attr : string) : result JointLightCurve :=
  if joint_hasattr self attr then
    vals ← mapM_result (fun lc => lc_getattr lc attr) light_curves;
    mret (joint_setattr self attr (JCopied vals))
  else OK self.

(** [JointLightCurve.__init__] *)
Definition JointLightCurve_init (light_curves : list CheopsLightCurve)
  : result JointLightCurve :=
  let self := joint_setattr (mk_joint ∅) "light_curves" (JLightCurves light_curves) in
  first ← match light_curves with
          | lc :: _ => OK lc
          | [] => Raise IndexError
          end;
  cols ← getattr (recs first);
  let names := map (fun c => lower (fst c)) cols in
  let self := joint_setattr self "attrs" (JNames names) in
  foldM_result (copy_attr light_curves) self names.

(** [self.light_curves], which is what iterating over the object yields. *)
Definition joint_light_curves (self : JointLightCurve) : result (list CheopsLightCurve) :=
  match jdict self !! "light_curves" with
  | Some (JLightCurves lcs) => OK lcs
  | Some _ => Raise TypeError
  | None => Raise AttributeError
  end.

(** [JointLightCurve._pad_shapes] *)
Definition _pad_shapes (self : JointLightCurve) : result (list nat) :=
  lcs ← joint_light_curves self;
  mapM_result (fun lc => m ← mask_array lc; mret (count_unmasked m)) lcs.

(** The padded block of visit [i]: zeros above and below its matrix. *)
Definition padded_block (shapes : list nat) (ndim : nat) (i : nat) (D : ndarray)
  : result ndarray :=
  let before := take i shapes in
  let after := drop (i + 1) shapes in
  let prepad := if Nat.ltb 0 (length before)
                then Some (np_zeros (sum_list before) ndim) else None in
  let postpad := if Nat.ltb 0 (length after)
                 then Some (np_zeros (sum_list after) ndim) else None in
  let segments := omap id [prepad; Some D; postpad] in
  np_vstack (map A2 segments).

(** [JointLightCurve.combined_design_matrix] *)
Definition combined_design_matrix `{Library} (self : JointLightCurve)
    (design_matrices : option (list ndarray)) (norm : bool) : result ndarray :=
  design_matrices ← match design_matrices with
                    | Some Ds => OK Ds
                    | None =>
                        lcs ← joint_light_curves self;
                        mapM_result (fun lc => design_matrix lc norm) lcs
                    end;
  shapes ← _pad_shapes self;
  ndim ← match design_matrices with
         | D :: _ => OK (shape1 D)
         | [] => Raise IndexError
         end;
  Xs_padded ← mapM_result (fun '(i, D) => padded_block shapes ndim i D)
                (imap (fun i D => (i, D)) design_matrices);
  np_hstack Xs_padded.

(** The target and uncertainty vectors [JointLightCurve.regress] hands to
    the solver: [flux[~mask]] and [fluxerr[~mask]] of the concatenations. *)
Definition regress_targets (self : JointLightCurve) : result (vec * vec) :=
  lcs ← joint_light_curves self;
  fluxes ← mapM_result (fun lc => attr lc "flux") lcs;
  flux ← np_concatenate fluxes;
  fluxerrs ← mapM_result (fun lc => attr lc "fluxerr") lcs;
  fluxerr ← np_concatenate fluxerrs;
  masks ← mapM_result mask_array lcs;
  mask ← np_concatenate masks;
  y ← index_unmasked mask flux;
  yerr ← index_unmasked mask fluxerr;
  mret (y, yerr).

(** The same vectors of a single visit, as [CheopsLightCurve.regress] hands
    them to the solver. *)
Definition visit_targets (lc : CheopsLightCurve) : result (vec * vec) :=
  flux ← attr lc "flux";
  m ← mask_array lc;
  y ← index_unmasked m flux;
  fluxerr ← attr lc "fluxerr";
  yerr ← index_unmasked m fluxerr;
  mret (y, yerr).

(** ** Sequences of masking operations *)

(** The operations that refine the mask of a light curve once it exists,
    with their arguments. *)
Inductive mask_op : Type :=
| SigmaClipCentroid (sigma : num)
| SigmaClipFlux (sigma_upper sigma_lower : num) (maxiters : option nat)
| HighBgClip (bgmin : num)
| MaskPlanetarySignal (pl : Planet.t).

Definition apply_op `{Library} (lc : CheopsLightCurve) (op : mask_op)
  : result CheopsLightCurve :=
  match op with
  | SigmaClipCentroid sigma => sigma_clip_centroid lc sigma
  | SigmaClipFlux su sl maxiters => sigma_clip_flux lc su sl maxiters
  | HighBgClip bgmin => high_bg_clip lc bgmin
  | MaskPlanetarySignal pl => mask_planetary_signal lc pl
  end.

(** The calls one after the other; the first to raise ends the run. *)
Definition apply_ops `{Library} (lc : CheopsLightCurve) (ops : list mask_op)
  : result CheopsLightCurve :=
  foldM_result apply_op lc ops.

(** ** Concrete data for the examples *)

Module Examples.

Local Open Scope Q_scope.

(** A function given by its exact values at a few points, NaN elsewhere. *)
Definition tabulated (table : list (Q * Q)) (x : num) : num :=
  match x with
  | Fin q =>
      match List.find (fun e => Qeq_bool (fst e) q) table with
      | Some e => Fin (snd e)
      | None => NaN
      end
  | _ => NaN
  end.

Definition pi_q : Q := 355 # 113.

(** The middle entry of an array that is already sorted. *)
Definition middle (v : vec) : num := default NaN (v !! (length v / 2)%nat).

(** A library for the examples: the trigonometric functions by their exact
    values at the angles the examples use (with [pi_q] for pi), the median
    of an array that is sorted, a unit scale, and a clip of the values above
    the upper factor. *)
#[local] Instance table_library : Library := {|
  np_cos := tabulated [(0, 1); (pi_q / 2, 0); (pi_q, -1)];
  np_sin := tabulated [(0, 0); (pi_q / 2, 1); (pi_q, 0)];
  np_radians := fun x => Num.div (Num.mul x (Fin pi_q)) (Fin 180);
  np_deg2rad := fun x => Num.div (Num.mul x (Fin pi_q)) (Fin 180);
  np_sqrt := tabulated [(0, 0); (1, 1); (4, 2); (9, 3)];
  np_arcsin := tabulated [(0, 0); (1 # 2, pi_q / 6); (1, pi_q / 2);
                          (- (1 # 2), - (pi_q / 6))];
  np_pi := Fin pi_q;
  np_hypot := fun x y =>
    match x, y with
    | Fin p, Fin q => if Qeq_bool q 0 then Fin (Qabs p)
                      else if Qeq_bool p 0 then Fin (Qabs q) else NaN
    | _, _ => NaN
    end;
  np_median := middle;
  np_nanmedian := middle;
  mad_std := fun v => Num.one;
  sigma_clip := fun su sl maxiters data => map (fun x => Num.ltb su x) data
|}.

(** A planet on an edge-on orbit of six days with [a / R* = 2]: its transit
    lasts [6 / pi * arcsin (1 / 2) = 1] day. *)
Definition planet : Planet.t :=
  Planet.mk (Fin 6) (Fin 2) (Fin 90) (Fin 0) (Fin 0).

(** Three samples: at mid-transit, between transit and eclipse, at
    mid-eclipse. *)
Definition visit : CheopsLightCurve :=
  mk_lc None None
    {[ "bjd_time" := [Fin 0; Fin (3 # 2); Fin 3] ]}
    (Some [false; false; false]).

(** A visit of four samples with every vector the builders and the masking
    operations read, in the DRP naming and in the PIPE naming. *)
Definition columns : list (string * vec) :=
  [ ("BJD_TIME", [Fin 0; Fin (3 # 2); Fin 3; Fin 4]);
    ("FLUX", [Fin 1; Fin 1; Fin 9; Fin 1]);
    ("FLUXERR", [Fin (1 # 10); Fin (1 # 10); Fin (1 # 10); Fin (1 # 10)]);
    ("ROLL_ANGLE", [Fin 0; Fin 90; Fin 180; Fin 90]);
    ("CENTROID_X", [Fin 0; Fin 1; Fin 2; Fin 50]);
    ("CENTROID_Y", [Fin 2; Fin 2; Fin 2; Fin 2]);
    ("BACKGROUND", [Fin 10; Fin 20; Fin 30; Fin 40]);
    ("CONTA_LC", [Fin 1; Fin 2; Fin 3; Fin 4]);
    ("SMEARING_LC", [Fin 4; Fin 3; Fin 2; Fin 1]);
    ("U1", [Fin 1; Fin 0; Fin 1; Fin 0]);
    ("U2", [Fin 0; Fin 1; Fin 0; Fin 2]);
    ("XC", [Fin 0; Fin 1; Fin 2; Fin 50]);
    ("YC", [Fin 2; Fin 2; Fin 2; Fin 2]);
    ("BG", [Fin 10; Fin 20; Fin 400; Fin 40]) ].

(** The vocabulary attributes the constructor loads from a record. *)
Definition loaded (cols : list (string * vec)) : gmap string vec :=
  match load_vectors (Some cols) with
  | OK vs => vs
  | Raise _ => ∅
  end.

Definition full_visit : CheopsLightCurve :=
  mk_lc (Some columns) None (loaded columns)
        (Some [false; false; false; false]).

(** The same visit with two extra basis vectors. *)
Definition extra_visit : CheopsLightCurve :=
  mk_lc (Some columns)
        (Some (A2 (mk_ndarray 2 4 [[Fin 1; Fin 2; Fin 3; Fin 4]; [Fin 0; Fin 0; Fin 1; Fin 1]])))
        (loaded columns)
        (Some [false; true; false; false]).

(** The joint object of the two visits, as its constructor leaves it. *)
Definition joint : JointLightCurve :=
  mk_joint
    (<["attrs" := JNames (map (fun c => lower (fst c)) columns)]>
       (<["light_curves" := JLightCurves [full_visit; extra_visit]]> ∅)).

(** What [design_matrix(norm=False)] returns for [extra_visit]: the second
    sample is masked. *)
Definition extra_visit_matrix : ndarray :=
  mk_ndarray 3 5
    [ [Fin 1; Fin 0; Fin 1; Fin 1; Fin 0];
      [Fin (-1); Fin 0; Fin 1; Fin 3; Fin 1];
      [Fin 0; Fin 1; Fin 1; Fin 4; Fin 1] ].

(** What [design_matrix_all(1, norm=False)] returns for [extra_visit]. *)
Definition extra_visit_all_matrix : ndarray :=
  mk_ndarray 3 15
    [ [Fin 1; Fin 0; Fin 1; Fin 0; Fin 2; Fin 0; Fin 4; Fin 0; Fin 10; Fin 1;
       Fin 4; Fin 1; Fin 0; Fin 1; Fin 0];
      [Fin 1; Fin 0; Fin (-1); Fin 2; Fin 2; Fin 4; Fin 4; Fin 4; Fin 30; Fin 3;
       Fin 2; Fin 1; Fin 0; Fin 3; Fin 1];
      [Fin 1; Fin 1; Fin 0; Fin 50; Fin 2; Fin 2500; Fin 4; Fin 100; Fin 40; Fin 4;
       Fin 1; Fin 0; Fin 2; Fin 4; Fin 1] ].

Definition extra_visit_all_names : list string :=
  [ "ones"; "sin1"; "cos1"; "xc"; "yc"; "x2"; "y2"; "xy"; "bg";
    "contamination"; "smearing"; "u1"; "u2"; "extra1"; "extra2" ].

(** Two per-visit matrices of two columns, for the four unmasked samples of
    [full_visit] and the three of [extra_visit]. *)
Definition block0 : ndarray :=
  mk_ndarray 4 2 [[Fin 1; Fin 2]; [Fin 3; Fin 4]; [Fin 5; Fin 6]; [Fin 7; Fin 8]].

Definition block1 : ndarray :=
  mk_ndarray 3 2 [[Fin 9; Fin 10]; [Fin 11; Fin 12]; [Fin 13; Fin 14]].

End Examples.

(** * The vocabulary of the properties *)

Local Open Scope Q_scope.

(** The value [normalize] gives a finite entry when the range is not zero. *)
Definition rescale (lo hi q : Q) : Q := (q - lo) / (hi - lo) - (1 # 2).

(** A column is constant when all its entries are the same number. *)
Definition constant (qs : list Q) : Prop :=
  forall a b, In a qs -> In b qs -> a == b.

(** The folded phase of a time difference [d], on the rationals. *)
Definition Qfold (p d : Q) : Q := Num.Qmod d p / p.

(** [v[v > cut] -= 1] on one rational. *)
Definition Qwrap (cut x : Q) : Q := if Qlt_le_dec cut x then x - 1 else x.

(** The time [t] is nearer than [d] to one of the centres [c + k p]. *)
Definition near (c p d t : Q) : Prop :=
  exists k : Z, Qabs (t - (c + inject_Z k * p)) < d.

(** The entry of [~msk2] for one sample, on the rationals. *)
Definition in_signal (e p d t : Q) : bool :=
  negb (Num.geb (Fin (Qabs (Qwrap (1 # 2) (Num.Qmod ((t - e) / p) 1) * p))) (Fin d)
        && Num.geb (Fin (Qabs (Qwrap (1 # 2) (Num.Qmod ((t - (e + p / 2)) / p) 1) * p)))
                   (Fin d)).

(** [m'] is a superset of [m]: the same samples, and every sample masked in
    [m] is masked in [m']. *)
Definition grows (m m' : list bool) : Prop :=
  length m' = length m /\ forall i, m !! i = Some true -> m' !! i = Some true.

(** The same for the masks of two states of a light curve. *)
Definition mask_grows (lc lc' : CheopsLightCurve) : Prop :=
  exists m m', mask lc = Some m /\ mask lc' = Some m' /\ grows m m'.

(** No instance attribute bears a vocabulary name. *)
Definition vocabulary_free (self : JointLightCurve) : Prop :=
  forall a, a ∈ attrs -> jdict self !! a = None.

(** The array whose rows are the given vectors, all of length [n]. *)
Definition columns_array (n : nat) (cols : list vec) : ndarray :=
  mk_ndarray (length cols) n cols.

(** The matrix whose columns are the given vectors of length [n], in order. *)
Definition matrix_of_columns (n : nat) (cols : list vec) : ndarray :=
  transpose (columns_array n cols).

(** [X] is what one of the two design-matrix builders returned for the light
    curve, and [c] is the index at which that builder puts the constant
    column. *)
Definition returned_by `{Library} (lc : CheopsLightCurve) (X : ndarray) (c : nat) : Prop :=
  (exists norm, design_matrix lc norm = OK X /\ c = 2%nat) \/
  (exists harmonics norm names,
      design_matrix_all lc harmonics norm = OK (X, names) /\ c = 0%nat).

(** Row [c] of the stacked array is all ones over its whole width. *)
Definition row_of_ones (Xt : ndarray) (c : nat) : Prop :=
  rows Xt !! c = Some (replicate (shape1 Xt) Num.one).

(** Column [c] of the matrix is one in every row. *)
Definition column_of_ones (X : ndarray) (c : nat) : Prop :=
  forall r, r ∈ rows X -> r !! c = Some Num.one.

(** The invariant of [design_matrix_all] while it stacks: the first row is
    the row of ones. *)
Definition ones_first (Xt : ndarray) : Prop :=
  row_of_ones Xt 0 /\ (1 <= shape0 Xt)%nat.

(** The running state of the builder holds the named columns [cols], each of
    length [n], stacked in order. *)
Definition stacked (n : nat) (cols : list (string * vec)) (X : arr) (names : list string)
  : Prop :=
  atleast_2d X = columns_array n (map snd cols) /\
  names = map fst cols /\
  Forall (fun c => length (snd c) = n) cols.

(** The pair of columns of harmonic [k]: sine, then cosine, of [k] times
    the roll angle, each normalised on its own when asked. *)
Definition is_harmonic_pair `{Library} (lc : CheopsLightCurve) (norm : bool) (k : nat)
    (pair : list (string * vec)) : Prop :=
  exists roll s c,
    attr lc "roll_angle" = OK roll /\
    normalize_if norm (map (fun r => np_sin (Num.mul (Num.of_nat k) (np_radians r))) roll)
    = OK s /\
    normalize_if norm (map (fun r => np_cos (Num.mul (Num.of_nat k) (np_radians r))) roll)
    = OK c /\
    pair = [("sin" +:+ str k, s); ("cos" +:+ str k, c)].

(** The centroid and background vectors, under the DRP names when all three
    are there and under the PIPE names otherwise. *)
Definition centroid_resolved (lc : CheopsLightCurve) (xc yc bg : vec) : Prop :=
  (attr lc "centroid_x" = OK xc /\ attr lc "centroid_y" = OK yc /\
   attr lc "background" = OK bg) \/
  ((vectors lc !! "centroid_x" = None \/ vectors lc !! "centroid_y" = None \/
    vectors lc !! "background" = None) /\
   attr lc "xc" = OK xc /\ attr lc "yc" = OK yc /\ attr lc "bg" = OK bg).

(** The six centroid and background columns, in order. *)
Definition centroid_columns (lc : CheopsLightCurve) (norm : bool)
    (cs : list (string * vec)) : Prop :=
  exists xc yc bg xy nxc nyc nx2 ny2 nxy nbg,
    centroid_resolved lc xc yc bg /\
    broadcast2 Num.mul xc yc = OK xy /\
    normalize_if norm xc = OK nxc /\
    normalize_if norm yc = OK nyc /\
    normalize_if norm (map (fun x => Num.mul x x) xc) = OK nx2 /\
    normalize_if norm (map (fun y => Num.mul y y) yc) = OK ny2 /\
    normalize_if norm xy = OK nxy /\
    normalize_if norm bg = OK nbg /\
    cs = [("xc", nxc); ("yc", nyc); ("x2", nx2); ("y2", ny2); ("xy", nxy); ("bg", nbg)].

(** The vectors named [n1] and [n2] are both there and give, normalised when
    asked, two columns of [n] samples. *)
Definition available (lc : CheopsLightCurve) (norm : bool) (n : nat) (n1 n2 : string)
    (w1 w2 : vec) : Prop :=
  exists v1 v2,
    attr lc n1 = OK v1 /\ attr lc n2 = OK v2 /\
    normalize_if norm v1 = OK w1 /\ normalize_if norm v2 = OK w2 /\
    length w1 = n /\ length w2 = n.

(** An optional group of two columns: both when available, none otherwise. *)
Definition optional_columns (lc : CheopsLightCurve) (norm : bool) (n : nat)
    (n1 n2 l1 l2 : string) (os : list (string * vec)) : Prop :=
  (exists w1 w2, available lc norm n n1 n2 w1 w2 /\ os = [(l1, w1); (l2, w2)]) \/
  (os = [] /\ forall w1 w2, ~ available lc norm n n1 n2 w1 w2).

(** The extra basis vectors as columns, named [extra1], [extra2], ... *)
Definition extra_columns (E : option arr) : list (string * vec) :=
  match E with
  | Some (A2 M) =>
      zip (map (fun i => "extra" +:+ str (i + 1)) (seq 0 (length (rows M)))) (rows M)
  | _ => []
  end.

(** The extra basis vectors, when two-dimensional, have the shape they say. *)
Definition extra_wf (E : option arr) : Prop :=
  match E with
  | Some (A2 M) => wf_ndarray M
  | _ => True
  end.

(** The named columns of the all-regressors builder, in order. *)
Definition all_columns `{Library} (lc : CheopsLightCurve) (harmonics : nat) (norm : bool)
    (n : nat) (E : option arr) (cols : list (string * vec)) : Prop :=
  exists pairs cs o1 o2,
    Forall2 (is_harmonic_pair lc norm) (seq 1 harmonics) pairs /\
    centroid_columns lc norm cs /\
    optional_columns lc norm n "conta_lc" "smearing_lc" "contamination" "smearing" o1 /\
    optional_columns lc norm n "u1" "u2" "u1" "u2" o2 /\
    cols = ("ones", np_ones n) :: concat pairs ++ cs ++ o1 ++ o2 ++ extra_columns E.

(** The block of visit [k] as the assembler pads it: its matrix between
    rows of zeros, one for every unmasked sample of the other visits. *)
Definition padded (rs : list nat) (c k : nat) (D : ndarray) : ndarray :=
  mk_ndarray (sum_list rs) c
    (replicate (sum_list (take k rs)) (replicate c Num.zero)
     ++ rows D
     ++ replicate (sum_list (drop (S k) rs)) (replicate c Num.zero)).

(** Row [i] of each of the arrays, side by side. *)
Definition joined_row (Ps : list ndarray) (i : nat) : list num :=
  concat (map (fun P => default [] (rows P !! i)) Ps).

(** What the visits' design matrices must be for the assembler: as many as
    the visits, each with one row per unmasked sample of its visit and with
    [c] columns. *)
Definition per_visit (rs : list nat) (c : nat) (Ds : list ndarray) : Prop :=
  Forall2 (fun D r => shape0 D = r /\ shape1 D = c /\ wf_ndarray D) Ds rs.


(** * Further parts of the module *)

(** The flags an operation ORs into the mask, for the three operations that
    compute them from the vectors alone. *)
Definition op_outliers `{Library} (lc : CheopsLightCurve) (op : mask_op)
  : result (list bool) :=
  match op with
  | SigmaClipCentroid sigma =>
      cx ← attr lc "centroid_x";
      cy ← attr lc "centroid_y";
      dist ← broadcast2 np_hypot (map (fun x => Num.sub x (np_median cx)) cx)
                                 (map (fun y => Num.sub y (np_median cy)) cy);
      mret (map (fun d => Num.ltb (Num.mul sigma (py_min (mad_std cx) (mad_std cy))) d) dist)
  | HighBgClip bgmin =>
      bg ← attr lc "bg"; mret (map (fun b => Num.gtb b bgmin) bg)
  | MaskPlanetarySignal pl =>
      t14 ← transit_duration pl;
      bjd ← attr lc "bjd_time";
      mret (planetary_signal (Planet.per pl) t14
              (centred_phase (Planet.t0 pl) (Planet.per pl) bjd)
              (centred_phase (Num.add (Planet.t0 pl) (Num.div (Planet.per pl) Num.two))
                 (Planet.per pl) bjd))
  | SigmaClipFlux _ _ _ => Raise TypeError
  end.

(** The operations whose flags do not depend on the mask. *)
Definition mask_independent (op : mask_op) : Prop :=
  match op with
  | SigmaClipFlux _ _ _ => False
  | _ => True
  end.

(** The extra basis vectors as the rows they add to the stack: one for a
    one-dimensional array, the rows of a two-dimensional one. *)
Definition extra_rows (E : option arr) : list vec :=
  match E with
  | None => []
  | Some (A1 v) => [v]
  | Some (A2 M) => rows M
  end.

(** The extra basis vectors have one entry per sample. *)
Definition extra_fits (n : nat) (E : option arr) : Prop :=
  match E with
  | None => True
  | Some (A1 v) => length v = n
  | Some (A2 M) => shape1 M = n
  end.

(** What [design_matrix] needs of a light curve: the roll angles and the
    times, in equal number; a mask array with one flag per sample; extra
    basis vectors, if any, with one entry per sample; and, to normalise, at
    least one sample. *)
Definition design_matrix_defined (lc : CheopsLightCurve) (norm : bool) : Prop :=
  exists roll bjd m,
    attr lc "roll_angle" = OK roll /\ attr lc "bjd_time" = OK bjd /\ mask lc = Some m /\
    length roll = length bjd /\ length m = length bjd /\
    extra_fits (length bjd) (extra_basis_vectors lc) /\
    (norm = true -> roll <> []).

(** A visit the minimal builder accepts, with [k] well-formed extra basis
    vectors. *)
Definition visit_ready (norm : bool) (k : nat) (lc : CheopsLightCurve) : Prop :=
  design_matrix_defined lc norm /\ extra_wf (extra_basis_vectors lc) /\
  length (extra_rows (extra_basis_vectors lc)) = k.

(** The public names [hasattr] finds on a joint object before any column is
    copied: its two instance attributes and the methods of its class.  The
    other names it finds, those of [object], all begin with an underscore. *)
Definition joint_reserved : list string :=
  "light_curves" :: "attrs" :: JointLightCurve_methods.

Definition starts_with_underscore (s : string) : bool :=
  match s with
  | String c _ => Ascii.eqb c "_"
  | EmptyString => false
  end.

(** A column name that cannot meet an attribute of the joint object: in
    lower case it is none of the public names and does not begin with an
    underscore. *)
Definition plain_column (name : string) : Prop :=
  (lower name ∉ joint_reserved) /\ starts_with_underscore (lower name) = false.

(** * Properties *)

(** *** Facts about the finite fragment *)

Lemma ltb_fin a b : Num.ltb (Fin a) (Fin b) = true <-> a < b.
Proof.
  unfold Num.ltb. rewrite Qlt_alt. destruct (a ?= b); intuition congruence.
Qed.

Lemma ltb_fin_false a b : Num.ltb (Fin a) (Fin b) = false <-> b <= a.
Proof.
  rewrite <- not_true_iff_false, ltb_fin. split; [apply Qnot_lt_le | apply Qle_not_lt].
Qed.

Lemma leb_fin a b : Num.leb (Fin a) (Fin b) = true <-> a <= b.
Proof.
  unfold Num.leb. rewrite Qle_alt. destruct (a ?= b); intuition congruence.
Qed.

Lemma ltb_fin_false_leb a b : Num.leb (Fin a) (Fin b) = false <-> b < a.
Proof.
  unfold Num.leb. rewrite Qlt_alt, <- (Qcompare_antisym a b).
  destruct (a ?= b); simpl; intuition congruence.
Qed.

Lemma min_fin a b : Num.min (Fin a) (Fin b) = Fin (if Num.ltb (Fin b) (Fin a) then b else a).
Proof. unfold Num.min; simpl. now destruct (b ?= a). Qed.

Lemma max_fin a b : Num.max (Fin a) (Fin b) = Fin (if Num.ltb (Fin a) (Fin b) then b else a).
Proof. unfold Num.max; simpl. now destruct (a ?= b). Qed.

Lemma div_fin a b : ~ b == 0 -> Num.div (Fin a) (Fin b) = Fin (a / b).
Proof.
  intros Hb. simpl. destruct (Qeq_bool b 0) eqn:E; [|reflexivity].
  apply Qeq_bool_iff in E. contradiction.
Qed.

Lemma mod_fin a b : ~ b == 0 -> Num.mod_ (Fin a) (Fin b) = Fin (Num.Qmod a b).
Proof.
  intros Hb. simpl. destruct (Qeq_bool b 0) eqn:E; [|reflexivity].
  apply Qeq_bool_iff in E. contradiction.
Qed.

Lemma foldl_min_fin (qs : list Q) : forall a,
  exists m, foldl Num.min (Fin a) (map Fin qs) = Fin m /\
            In m (a :: qs) /\ forall q, In q (a :: qs) -> m <= q.
Proof.
  induction qs as [|b qs IH]; intros a; simpl.
  - exists a. split; [reflexivity|]. split; [now left|].
    intros q [<-|[]]. apply Qle_refl.
  - rewrite min_fin. destruct (Num.ltb (Fin b) (Fin a)) eqn:E.
    + apply ltb_fin in E. destruct (IH b) as (m & Hm & Hin & Hle).
      exists m. split; [exact Hm|]. split; [now right|].
      intros q [<-|Hq]; [|now apply Hle].
      apply Qle_trans with b; [apply Hle; now left | now apply Qlt_le_weak].
    + apply ltb_fin_false in E. destruct (IH a) as (m & Hm & Hin & Hle).
      exists m. split; [exact Hm|]. split.
      * destruct Hin as [<-|Hin]; [now left | right; now right].
      * intros q [<-|[<-|Hq]].
        -- apply Hle; now left.
        -- apply Qle_trans with a; [apply Hle; now left | exact E].
        -- apply Hle; now right.
Qed.

Lemma foldl_max_fin (qs : list Q) : forall a,
  exists m, foldl Num.max (Fin a) (map Fin qs) = Fin m /\
            In m (a :: qs) /\ forall q, In q (a :: qs) -> q <= m.
Proof.
  induction qs as [|b qs IH]; intros a; simpl.
  - exists a. split; [reflexivity|]. split; [now left|].
    intros q [<-|[]]. apply Qle_refl.
  - rewrite max_fin. destruct (Num.ltb (Fin a) (Fin b)) eqn:E.
    + apply ltb_fin in E. destruct (IH b) as (m & Hm & Hin & Hle).
      exists m. split; [exact Hm|]. split; [now right|].
      intros q [<-|Hq]; [|now apply Hle].
      apply Qle_trans with b; [now apply Qlt_le_weak | apply Hle; now left].
    + apply ltb_fin_false in E. destruct (IH a) as (m & Hm & Hin & Hle).
      exists m. split; [exact Hm|]. split.
      * destruct Hin as [<-|Hin]; [now left | right; now right].
      * intros q [<-|[<-|Hq]].
        -- apply Hle; now left.
        -- apply Qle_trans with a; [exact E | apply Hle; now left].
        -- apply Hle; now right.
Qed.

Lemma vmin_fin (qs : list Q) : qs <> [] ->
  exists m, vmin (map Fin qs) = OK (Fin m) /\ In m qs /\ forall q, In q qs -> m <= q.
Proof.
  destruct qs as [|a qs]; [congruence|]. intros _. simpl.
  destruct (foldl_min_fin qs a) as (m & Hm & H). exists m. now rewrite Hm.
Qed.

Lemma vmax_fin (qs : list Q) : qs <> [] ->
  exists m, vmax (map Fin qs) = OK (Fin m) /\ In m qs /\ forall q, In q qs -> q <= m.
Proof.
  destruct qs as [|a qs]; [congruence|]. intros _. simpl.
  destruct (foldl_max_fin qs a) as (m & Hm & H). exists m. now rewrite Hm.
Qed.

Lemma normalize_fin (qs : list Q) lo hi :
  vmin (map Fin qs) = OK (Fin lo) -> vmax (map Fin qs) = OK (Fin hi) -> lo < hi ->
  normalize (map Fin qs) = OK (map Fin (map (rescale lo hi) qs)).
Proof.
  intros Hlo Hhi Hlt. unfold normalize, ptp. rewrite Hlo, Hhi. simpl.
  unfold mret, result_ret. f_equal. rewrite !List.map_map. apply List.map_ext. intros q.
  simpl. destruct (Qeq_bool (hi + - lo) 0) eqn:E.
  - apply Qeq_bool_iff in E. lra.
  - reflexivity.
Qed.

Lemma rescale_lo lo hi : lo < hi -> rescale lo hi lo == - (1 # 2).
Proof. intros H. unfold rescale. field. lra. Qed.

Lemma rescale_hi lo hi : lo < hi -> rescale lo hi hi == 1 # 2.
Proof. intros H. unfold rescale. field. lra. Qed.

Lemma rescale_mono lo hi a b : lo < hi -> a <= b -> rescale lo hi a <= rescale lo hi b.
Proof.
  intros H Hab. unfold rescale.
  assert (Hpos : 0 < / (hi - lo)) by (apply Qinv_lt_0_compat; lra).
  unfold Qdiv. nra.
Qed.

(** ** Normalisation *)

Lemma constant_or_spread (qs : list Q) lo hi :
  In lo qs -> In hi qs -> (forall q, In q qs -> lo <= q) -> (forall q, In q qs -> q <= hi) ->
  (lo < hi /\ ~ constant qs) \/ (lo == hi /\ constant qs).
Proof.
  intros Hlo Hhi Hmin Hmax. destruct (Qlt_le_dec lo hi) as [Hlt|Hle].
  - left. split; [exact Hlt|]. intros Hc. specialize (Hc lo hi Hlo Hhi). lra.
  - right. assert (lo == hi) by (specialize (Hmin hi Hhi); lra).
    split; [assumption|]. intros x y Hx Hy.
    pose proof (Hmin x Hx). pose proof (Hmax x Hx).
    pose proof (Hmin y Hy). pose proof (Hmax y Hy). lra.
Qed.

Lemma normalize_constant (qs : list Q) :
  qs <> [] -> constant qs -> normalize (map Fin qs) = OK (replicate (length qs) NaN).
Proof.
  intros Hne Hc.
  destruct (vmin_fin qs Hne) as (lo & Hlo & Hlo_in & Hmin).
  destruct (vmax_fin qs Hne) as (hi & Hhi & Hhi_in & Hmax).
  unfold normalize, ptp. rewrite Hlo, Hhi. simpl.
  unfold mret, result_ret. f_equal.
  assert (E : Qeq_bool (hi + - lo) 0 = true).
  { apply Qeq_bool_iff. specialize (Hc hi lo Hhi_in Hlo_in). lra. }
  clear Hlo Hhi Hne.
  assert (Hall : forall q, In q qs -> q + - lo == 0).
  { intros q Hq. specialize (Hc q lo Hq Hlo_in). lra. }
  clear - Hall E. induction qs as [|q qs IH]; [reflexivity|].
  simpl. rewrite E.
  assert (Hq : (q + - lo ?= 0) = Eq) by (apply Qeq_alt, Hall; now left).
  rewrite Hq. simpl. f_equal. apply IH. intros q' Hq'. apply Hall. now right.
Qed.

Lemma normalize_spread (qs : list Q) :
  ~ constant qs ->
  exists r lo hi, normalize (map Fin qs) = OK (map Fin r) /\
    vmin (map Fin r) = OK (Fin lo) /\ vmax (map Fin r) = OK (Fin hi) /\
    lo == - (1 # 2) /\ hi == 1 # 2.
Proof.
  intros Hnc.
  assert (Hne : qs <> []).
  { intros ->. apply Hnc. intros x y []. }
  destruct (vmin_fin qs Hne) as (lo & Hlo & Hlo_in & Hmin).
  destruct (vmax_fin qs Hne) as (hi & Hhi & Hhi_in & Hmax).
  destruct (constant_or_spread qs lo hi Hlo_in Hhi_in Hmin Hmax) as [[Hlt _]|[_ Hc]];
    [|contradiction].
  set (r := map (rescale lo hi) qs).
  assert (Hr : r <> []) by (subst r; destruct qs; [congruence | discriminate]).
  destruct (vmin_fin r Hr) as (lo' & Hlo' & Hlo'_in & Hmin').
  destruct (vmax_fin r Hr) as (hi' & Hhi' & Hhi'_in & Hmax').
  exists r, lo', hi'. split; [now apply normalize_fin|].
  split; [exact Hlo'|]. split; [exact Hhi'|].
  subst r. apply in_map_iff in Hlo'_in as (x & <- & Hx).
  apply in_map_iff in Hhi'_in as (y & <- & Hy).
  split.
  - pose proof (Hmin' _ (in_map (rescale lo hi) _ _ Hlo_in)) as H1.
    pose proof (rescale_mono lo hi lo x Hlt (Hmin x Hx)) as H2.
    pose proof (rescale_lo lo hi Hlt). lra.
  - pose proof (Hmax' _ (in_map (rescale lo hi) _ _ Hhi_in)) as H1.
    pose proof (rescale_mono lo hi y hi Hlt (Hmax y Hy)) as H2.
    pose proof (rescale_hi lo hi Hlt). lra.
Qed.

(** C3, what the code does.  A column of finite numbers that is not constant
    is rescaled so that its minimum is -0.5 and its maximum +0.5 (in exact
    arithmetic), as the claim and the docstring of [normalize] say.  On a
    constant column the code departs from both: it raises nothing and every
    entry of the result is NaN (0/0). *)
Theorem normalize_range_or_nan (qs : list Q) :
  qs <> [] ->
  (constant qs -> normalize (map Fin qs) = OK (replicate (length qs) NaN)) /\
  (~ constant qs ->
   exists r lo hi, normalize (map Fin qs) = OK (map Fin r) /\
     vmin (map Fin r) = OK (Fin lo) /\ vmax (map Fin r) = OK (Fin hi) /\
     lo == - (1 # 2) /\ hi == 1 # 2).
Proof.
  intros Hne. split; [now apply normalize_constant | apply normalize_spread].
Qed.

Lemma normalize_range_or_nan_witness :
  [1; 3; 2] <> [] /\
  ((constant [1; 3; 2] -> normalize (map Fin [1; 3; 2]) = OK (replicate 3 NaN)) /\
   (~ constant [1; 3; 2] ->
    exists r lo hi, normalize (map Fin [1; 3; 2]) = OK (map Fin r) /\
      vmin (map Fin r) = OK (Fin lo) /\ vmax (map Fin r) = OK (Fin hi) /\
      lo == - (1 # 2) /\ hi == 1 # 2)).
Proof.
  split; [discriminate | apply (normalize_range_or_nan [1; 3; 2]); discriminate].
Defined.

(** C3 at the failing input: on the constant column [1, 1] nothing is raised
    and the result is an array of NaN, where the claim wants an exception and
    the docstring of [normalize] contents within [-0.5, 0.5].  (A column with
    a NaN entry, constant or not, also comes out as NaN throughout, which is
    why the property above is about finite entries.) *)
Lemma normalize_constant_returns_nan :
  normalize [Fin 1; Fin 1] = OK [NaN; NaN] /\
  (forall e, normalize [Fin 1; Fin 1] <> Raise e) /\
  normalize [Fin 1; NaN] = OK [NaN; NaN].
Proof. split; [reflexivity | split; [intros e; discriminate | reflexivity]]. Qed.

(** ** Floored remainder *)

Lemma Qmod_decomp x y : x == y * inject_Z (Qfloor (x / y)) + Num.Qmod x y.
Proof. unfold Num.Qmod. ring. Qed.

Lemma Qmod_bounds x y : 0 < y -> 0 <= Num.Qmod x y /\ Num.Qmod x y < y.
Proof.
  intros Hy. unfold Num.Qmod.
  pose proof (Qfloor_le (x / y)) as Hlo.
  pose proof (Qlt_floor (x / y)) as Hhi.
  rewrite inject_Z_plus in Hhi. change (inject_Z 1) with 1 in Hhi.
  set (f := inject_Z (Qfloor (x / y))) in *.
  assert (Hx : x == (x / y) * y) by (field; lra).
  assert (H1 : f * y <= (x / y) * y) by (apply Qmult_le_compat_r; lra).
  assert (H2 : (x / y) * y < (f + 1) * y) by (apply Qmult_lt_compat_r; lra).
  split; lra.
Qed.

(** The remainder is the mathematical one: the only [r] in [0, y) that
    differs from [x] by a whole multiple of [y]. *)
Lemma Qmod_unique x y (k : Z) r :
  0 < y -> x == inject_Z k * y + r -> 0 <= r < y -> r == Num.Qmod x y.
Proof.
  intros Hy Hx [Hr0 Hr1].
  destruct (Qmod_bounds x y Hy) as [Hm0 Hm1].
  pose proof (Qmod_decomp x y) as Hd.
  set (f := Qfloor (x / y)) in *. set (m := Num.Qmod x y) in *.
  assert (Hdiff : (inject_Z k - inject_Z f) * y == m - r) by lra.
  destruct (Z.lt_trichotomy k f) as [Hlt|[Heq|Hgt]].
  - assert (inject_Z k + 1 <= inject_Z f).
    { change 1 with (inject_Z 1). rewrite <- (inject_Z_plus k 1). rewrite <- Zle_Qle. lia. }
    nra.
  - subst k. lra.
  - assert (inject_Z f + 1 <= inject_Z k).
    { change 1 with (inject_Z 1). rewrite <- (inject_Z_plus f 1). rewrite <- Zle_Qle. lia. }
    nra.
Qed.

(** ** Phase folding *)

Lemma Qfold_spec p d :
  0 < p -> (0 <= Qfold p d /\ Qfold p d < 1) /\
           exists k : Z, d == (inject_Z k + Qfold p d) * p.
Proof.
  intros Hp. unfold Qfold.
  destruct (Qmod_bounds d p Hp) as [H0 H1].
  pose proof (Qmod_decomp d p) as Hd.
  set (m := Num.Qmod d p) in *.
  assert (Hinv : 0 < / p) by now apply Qinv_lt_0_compat.
  assert (Hmp : m / p * p == m) by (field; lra).
  split.
  - split.
    + unfold Qdiv. nra.
    + apply Qlt_shift_div_r; lra.
  - exists (Qfloor (d / p)). lra.
Qed.

Lemma Qwrap_spec cut x :
  0 <= x -> x < 1 -> 0 <= cut < 1 ->
  (cut - 1 < Qwrap cut x /\ Qwrap cut x <= cut) /\
  (Qwrap cut x == x \/ Qwrap cut x == x - 1).
Proof.
  intros H0 H1 Hc. unfold Qwrap.
  destruct (Qlt_le_dec cut x); (split; [lra|]); [right | left]; lra.
Qed.

Lemma wrap_above_fin cut (xs : list Q) :
  wrap_above (Fin cut) (map Fin xs) = map Fin (map (Qwrap cut) xs).
Proof.
  unfold wrap_above. rewrite !List.map_map. apply List.map_ext. intros x.
  unfold Qwrap, Num.gtb. destruct (Qlt_le_dec cut x) as [H|H].
  - apply ltb_fin in H. rewrite H. reflexivity.
  - apply ltb_fin_false in H. rewrite H. reflexivity.
Qed.

Lemma phase_fin (lc : CheopsLightCurve) (pl : Planet.t) (ts : list Q) e p :
  vectors lc !! "bjd_time" = Some (map Fin ts) ->
  Planet.t0 pl = Fin e -> Planet.per pl = Fin p -> 0 < p ->
  phase lc pl = OK (map Fin (map (fun t => Qfold p (t - e)) ts)).
Proof.
  intros Hb He Hp Hpos. unfold phase, attr. rewrite Hb, He, Hp. simpl.
  unfold mret, result_ret. f_equal. rewrite !List.map_map. apply List.map_ext.
  intros t. change (Num.sub (Fin t) (Fin e)) with (Fin (t - e)).
  rewrite mod_fin by lra. rewrite div_fin by lra. reflexivity.
Qed.

Lemma plot_phases_fin (pl : Planet.t) (ts : list Q) e p o :
  Planet.t0 pl = Fin e -> Planet.per pl = Fin p -> 0 < p ->
  plot_phases pl (Fin o) (map Fin ts)
  = map Fin (map (fun t => Qwrap (95 # 100) (Qfold p (t - e - o))) ts).
Proof.
  intros He Hp Hpos. unfold plot_phases, cut_plot. rewrite He, Hp.
  rewrite <- (List.map_map (fun t => Qfold p (t - e - o)) (Qwrap (95 # 100))).
  rewrite <- wrap_above_fin. f_equal.
  rewrite !List.map_map. apply List.map_ext. intros t.
  change (Num.sub (Num.sub (Fin t) (Fin e)) (Fin o)) with (Fin (t - e - o)).
  rewrite mod_fin by lra. rewrite div_fin by lra. reflexivity.
Qed.

Lemma centred_phase_fin (ts : list Q) c p :
  0 < p ->
  centred_phase (Fin c) (Fin p) (map Fin ts)
  = map Fin (map (fun t => Qwrap (1 # 2) (Num.Qmod ((t - c) / p) 1)) ts).
Proof.
  intros Hpos. unfold centred_phase, Num.half.
  rewrite <- (List.map_map (fun t => Num.Qmod ((t - c) / p) 1) (Qwrap (1 # 2))).
  rewrite <- wrap_above_fin. f_equal.
  rewrite !List.map_map. apply List.map_ext. intros t.
  change (Num.sub (Fin t) (Fin c)) with (Fin (t - c)).
  rewrite div_fin by lra. unfold Num.one. rewrite mod_fin by lra. reflexivity.
Qed.

Lemma Forall2_map_r {A B : Type} (P : A -> B -> Prop) (f : A -> B) (l : list A) :
  (forall x, In x l -> P x (f x)) -> Forall2 P l (map f l).
Proof.
  induction l as [|x l IH]; intros H; simpl; constructor.
  - apply H. now left.
  - apply IH. intros y Hy. apply H. now right.
Qed.

(** C2, as the code has it, in exact arithmetic.  For finite times, a finite
    epoch and a positive period: [phase] returns the true floored remainder
    over the period, in [0, 1), and remaps nothing; the phases of
    [plot_phase_curve] lower the values strictly above 0.95 by one and lie in
    (-0.05, 0.95]; the phases of [mask_planetary_signal] lower the values
    strictly above 0.5 by one and lie in (-0.5, 0.5].  Each differs from
    (t - epoch) / period by an integer.  The remainder and the quotient are
    exact here: in float64 a rounded quotient can reach 1, which is outside
    this statement. *)
Theorem phase_fold_ranges (lc : CheopsLightCurve) (pl : Planet.t)
    (ts : list Q) (e p o : Q) :
  vectors lc !! "bjd_time" = Some (map Fin ts) ->
  Planet.t0 pl = Fin e -> Planet.per pl = Fin p -> 0 < p ->
  (exists phs, phase lc pl = OK (map Fin phs) /\
     Forall2 (fun t ph => (0 <= ph /\ ph < 1) /\
                exists k : Z, t - e == (inject_Z k + ph) * p) ts phs) /\
  (exists phs, plot_phases pl (Fin o) (map Fin ts) = map Fin phs /\
     Forall2 (fun t ph => ((95 # 100) - 1 < ph /\ ph <= 95 # 100) /\
                exists k : Z, t - e - o == (inject_Z k + ph) * p) ts phs) /\
  (exists phs, centred_phase (Fin e) (Fin p) (map Fin ts) = map Fin phs /\
     Forall2 (fun t ph => ((1 # 2) - 1 < ph /\ ph <= 1 # 2) /\
                exists k : Z, t - e == (inject_Z k + ph) * p) ts phs).
Proof.
  intros Hb He Hp Hpos. split; [|split].
  - eexists. split; [eapply phase_fin; eassumption|].
    apply Forall2_map_r. intros t _. apply Qfold_spec, Hpos.
  - eexists. split; [eapply plot_phases_fin; eassumption|].
    apply (Forall2_map_r _ (fun t => Qwrap (95 # 100) (Qfold p (t - e - o)))).
    intros t _.
    destruct (Qfold_spec p (t - e - o) Hpos) as [[H0 H1] [k Hk]].
    set (q := Qfold p (t - e - o)) in *.
    destruct (Qwrap_spec (95 # 100) q H0 H1) as [Hr [Hw|Hw]]; try lra.
    + split; [exact Hr|]. exists k.
      transitivity ((inject_Z k + q) * p); [exact Hk | rewrite Hw; reflexivity].
    + split; [exact Hr|]. exists (k + 1)%Z.
      transitivity ((inject_Z k + q) * p); [exact Hk|].
      rewrite Hw, inject_Z_plus. change (inject_Z 1) with 1. ring.
  - eexists. split; [apply centred_phase_fin, Hpos|].
    apply (Forall2_map_r _ (fun t => Qwrap (1 # 2) (Num.Qmod ((t - e) / p) 1))).
    intros t _.
    assert (H01 : 0 < 1) by lra.
    destruct (Qmod_bounds ((t - e) / p) 1 H01) as [H0 H1].
    pose proof (Qmod_decomp ((t - e) / p) 1) as Hd.
    set (m := Num.Qmod ((t - e) / p) 1) in *.
    set (f := Qfloor ((t - e) / p / 1)) in *.
    assert (Ht : t - e == (t - e) / p * p) by (field; lra).
    assert (Hk : t - e == (inject_Z f + m) * p).
    { transitivity ((t - e) / p * p); [exact Ht|].
      apply Qmult_inj_r; [lra|]. transitivity (1 * inject_Z f + m); [exact Hd | ring]. }
    destruct (Qwrap_spec (1 # 2) m H0 H1) as [Hr [Hw|Hw]]; try lra.
    + split; [exact Hr|]. exists f.
      transitivity ((inject_Z f + m) * p); [exact Hk | rewrite Hw; reflexivity].
    + split; [exact Hr|]. exists (f + 1)%Z.
      transitivity ((inject_Z f + m) * p); [exact Hk|].
      rewrite Hw, inject_Z_plus. change (inject_Z 1) with 1. ring.
Qed.

Lemma phase_fold_ranges_witness :
  let lc := mk_lc None None {[ "bjd_time" := map Fin [0; 3; 5; 23 # 4; -1] ]} None in
  (exists phs, phase lc Examples.planet = OK (map Fin phs) /\
     Forall2 (fun t ph => (0 <= ph /\ ph < 1) /\
                exists k : Z, t - 0 == (inject_Z k + ph) * 6) [0; 3; 5; 23 # 4; -1] phs) /\
  (exists phs, plot_phases Examples.planet (Fin 0) (map Fin [0; 3; 5; 23 # 4; -1])
               = map Fin phs /\
     Forall2 (fun t ph => ((95 # 100) - 1 < ph /\ ph <= 95 # 100) /\
                exists k : Z, t - 0 - 0 == (inject_Z k + ph) * 6)
       [0; 3; 5; 23 # 4; -1] phs) /\
  (exists phs, centred_phase (Fin 0) (Fin 6) (map Fin [0; 3; 5; 23 # 4; -1]) = map Fin phs /\
     Forall2 (fun t ph => ((1 # 2) - 1 < ph /\ ph <= 1 # 2) /\
                exists k : Z, t - 0 == (inject_Z k + ph) * 6) [0; 3; 5; 23 # 4; -1] phs).
Proof.
  apply (phase_fold_ranges
           (mk_lc None None {[ "bjd_time" := map Fin [0; 3; 5; 23 # 4; -1] ]} None)
           Examples.planet [0; 3; 5; 23 # 4; -1] 0 6 0);
    [reflexivity | reflexivity | reflexivity | reflexivity].
Defined.

(** The values of the witness: the time 23/4 of a period of 6 days folds to
    23/24, which the plot lowers to -1/24 and the mask to -1/24; the time 3
    folds to 1/2, which both keep; the time -1 folds to 5/6. *)
Example phase_fold_values :
  let ts := map Fin [0; 3; 5; 23 # 4; -1] in
  Forall2 Num.eqv
    (map (fun t => Num.div (Num.mod_ (Num.sub t (Fin 0)) (Fin 6)) (Fin 6)) ts)
    (map Fin [0; 1 # 2; 5 # 6; 23 # 24; 5 # 6]) /\
  Forall2 Num.eqv (plot_phases Examples.planet (Fin 0) ts)
    (map Fin [0; 1 # 2; 5 # 6; - (1 # 24); 5 # 6]) /\
  Forall2 Num.eqv (centred_phase (Fin 0) (Fin 6) ts)
    (map Fin [0; 1 # 2; - (1 # 6); - (1 # 24); - (1 # 6)]).
Proof.
  cbv zeta. split; [|split]; vm_compute; repeat constructor.
Qed.

(** C2 as claimed fails: [phase] remaps nothing (the time 3/2 of a period of
    2 days folds to 3/4, outside [-1/2, 1/2)), and the remapped variants keep
    a value equal to the cut (the time 1 folds to 1/2 under the 0.5 cut, the
    time 19/10 to 19/20 under the 0.95 cut), so the upper end is attained. *)
Lemma phase_fold_not_half_open :
  let pl := Planet.mk (Fin 2) (Fin 2) (Fin 90) (Fin 0) (Fin 0) in
  let lc := mk_lc None None {[ "bjd_time" := [Fin (3 # 2)] ]} (Some [false]) in
  (exists ph, phase lc pl = OK [Fin ph] /\ ph == 3 # 4 /\ ~ ph < 1 # 2) /\
  (exists ph, centred_phase (Fin 0) (Fin 2) [Fin 1] = [Fin ph] /\ ~ ph < 1 # 2) /\
  (exists ph, plot_phases pl (Fin 0) [Fin (19 # 10)] = [Fin ph] /\ ~ ph < 95 # 100).
Proof.
  cbv zeta. split; [|split]; eexists.
  - split; [vm_compute; reflexivity|]. split; [reflexivity|]. intros H; discriminate H.
  - split; [vm_compute; reflexivity|]. intros H; discriminate H.
  - split; [vm_compute; reflexivity|]. intros H; discriminate H.
Qed.

(** ** The planetary-signal mask *)

Lemma inject_Z_ge_1 (n : Z) : (1 <= n)%Z -> 1 <= inject_Z n.
Proof. intros H. change 1 with (inject_Z 1). now rewrite <- Zle_Qle. Qed.

Lemma inject_Z_le_m1 (n : Z) : (n <= -1)%Z -> inject_Z n <= -1.
Proof. intros H. change (-1) with (inject_Z (-1)). now rewrite <- Zle_Qle. Qed.

Lemma centred_near c p d t :
  0 < p ->
  Qabs (Qwrap (1 # 2) (Num.Qmod ((t - c) / p) 1) * p) < d <-> near c p d t.
Proof.
  intros Hp.
  assert (H01 : 0 < 1) by lra.
  destruct (Qmod_bounds ((t - c) / p) 1 H01) as [H0 H1].
  pose proof (Qmod_decomp ((t - c) / p) 1) as Hd.
  set (m := Num.Qmod ((t - c) / p) 1) in *.
  set (f := Qfloor ((t - c) / p / 1)) in *.
  assert (Ht : t - c == (t - c) / p * p) by (field; lra).
  assert (Hrange : 0 <= 1 # 2 < 1) by lra.
  destruct (Qwrap_spec (1 # 2) m H0 H1 Hrange) as [[Hlo Hhi] Hw].
  set (ph := Qwrap (1 # 2) m) in *.
  assert (Hk0 : exists k0 : Z, t - c == inject_Z k0 * p + ph * p).
  { destruct Hw as [Hw|Hw].
    - exists f. rewrite Hw. rewrite Ht at 1. rewrite Hd at 1. ring.
    - exists (f + 1)%Z. rewrite Hw, inject_Z_plus. change (inject_Z 1) with 1.
      rewrite Ht at 1. rewrite Hd at 1. ring. }
  destruct Hk0 as [k0 Hk0].
  assert (Bhi : ph * p <= (1 # 2) * p) by (apply Qmult_le_compat_r; lra).
  assert (Blo : ((1 # 2) - 1) * p < ph * p) by (apply Qmult_lt_compat_r; lra).
  unfold near. split.
  - intros H. exists k0. apply Qabs_Qlt_condition in H. apply Qabs_Qlt_condition. lra.
  - intros [k H]. apply Qabs_Qlt_condition in H. apply Qabs_Qlt_condition.
    assert (Hn : inject_Z k0 * p - inject_Z k * p == inject_Z (k0 - k) * p).
    { unfold Z.sub. rewrite inject_Z_plus, inject_Z_opp. ring. }
    destruct (Z.lt_trichotomy (k0 - k) 0) as [Hneg|[Hz|Hpos]].
    + assert (inject_Z (k0 - k) * p <= -1 * p).
      { apply Qmult_le_compat_r; [apply inject_Z_le_m1; lia | lra]. }
      lra.
    + rewrite Hz in Hn. change (inject_Z 0) with 0 in Hn. lra.
    + assert (1 * p <= inject_Z (k0 - k) * p).
      { apply Qmult_le_compat_r; [apply inject_Z_ge_1; lia | lra]. }
      lra.
Qed.

Lemma zip_with_map_same {A B C D : Type} (h : B -> C -> D) (f : A -> B) (g : A -> C)
    (l : list A) :
  zip_with h (map f l) (map g l) = map (fun x => h (f x) (g x)) l.
Proof. induction l as [|x l IH]; simpl; [reflexivity | now rewrite IH]. Qed.

Lemma length_map' {A B : Type} (f : A -> B) (l : list A) : length (map f l) = length l.
Proof. induction l; simpl; congruence. Qed.

Lemma in_signal_spec e p d t :
  0 < p -> in_signal e p d t = true <-> near e p d t \/ near (e + p / 2) p d t.
Proof.
  intros Hp. unfold in_signal, Num.geb.
  rewrite negb_true_iff, andb_false_iff, !ltb_fin_false_leb.
  rewrite <- (centred_near e p d t Hp), <- (centred_near (e + p / 2) p d t Hp).
  reflexivity.
Qed.

Lemma planetary_signal_fin (ts : list Q) e p d :
  0 < p ->
  planetary_signal (Fin p) (Fin d)
    (centred_phase (Fin e) (Fin p) (map Fin ts))
    (centred_phase (Num.add (Fin e) (Num.div (Fin p) Num.two)) (Fin p) (map Fin ts))
  = map (in_signal e p d) ts.
Proof.
  intros Hp. change (Num.add (Fin e) (Num.div (Fin p) Num.two)) with (Fin (e + p / 2)).
  rewrite !centred_phase_fin by exact Hp. unfold planetary_signal.
  rewrite !List.map_map, zip_with_map_same, List.map_map. reflexivity.
Qed.

Lemma ior_same_length (m o : list bool) :
  length m = length o -> ior m o = OK (zip_with orb m o).
Proof. intros E. unfold ior. now rewrite E, Nat.eqb_refl. Qed.

(** C1, as the code has it, in exact arithmetic.  For finite times, a finite
    epoch, a positive period and a geometry that gives a finite duration
    [t14]: the call masks, in addition to the samples already masked, exactly
    the samples nearer than [t14] to a transit centre [t0 + k per] or to an
    eclipse centre [t0 + per/2 + k per]; the samples outside both windows keep
    their mask state.  Distances are exact here: float64 rounding, which can
    move a sample within rounding error of the edge of a window to either
    side, is outside this statement. *)
Theorem mask_planetary_signal_masks_signal `{Library}
    (lc : CheopsLightCurve) (pl : Planet.t) (ts : list Q) (m : list bool) (e p d : Q)
    (t14 : num) :
  vectors lc !! "bjd_time" = Some (map Fin ts) ->
  mask lc = Some m -> length m = length ts ->
  Planet.t0 pl = Fin e -> Planet.per pl = Fin p -> 0 < p ->
  transit_duration pl = OK t14 -> Num.eqv t14 (Fin d) ->
  exists sig,
    mask_planetary_signal lc pl = OK (set_mask lc (zip_with orb m sig)) /\
    Forall2 (fun t s => s = true <-> near e p d t \/ near (e + p / 2) p d t) ts sig.
Proof.
  intros Hb Hm Hlen He Hp Hpos Hd' Hd.
  destruct t14 as [d'| | |]; simpl in Hd; try contradiction.
  exists (map (in_signal e p d') ts). split.
  - unfold mask_planetary_signal, attr. rewrite Hd'. cbn [mbind result_bind].
    rewrite Hb, He, Hp. simpl getattr.
    cbn [mbind result_bind]. rewrite planetary_signal_fin by exact Hpos.
    unfold mask_ior, mask_array. rewrite Hm. cbn [mbind result_bind].
    rewrite ior_same_length by now rewrite length_map'.
    reflexivity.
  - apply Forall2_map_r. intros t _. rewrite (in_signal_spec e p d' t Hpos).
    unfold near. setoid_rewrite Hd. reflexivity.
Qed.

Lemma mask_planetary_signal_masks_signal_witness :
  exists sig,
    mask_planetary_signal (H := Examples.table_library) Examples.visit Examples.planet
    = OK (set_mask Examples.visit (zip_with orb [false; false; false] sig)) /\
    Forall2 (fun t s => s = true <-> near 0 6 1 t \/ near (0 + 6 / 2) 6 1 t)
      [0; 3 # 2; 3] sig.
Proof.
  apply (mask_planetary_signal_masks_signal (H := Examples.table_library)
           Examples.visit Examples.planet [0; 3 # 2; 3] [false; false; false] 0 6 1
           (Fin (240690 # 240690)));
    try reflexivity.
Defined.

(** C1 as claimed fails: of three unmasked samples at mid-transit, between
    transit and eclipse, and at mid-eclipse, the call masks the first and the
    last and leaves the one outside both windows unmasked. *)
Lemma mask_planetary_signal_keeps_outside :
  exists lc',
    mask_planetary_signal (H := Examples.table_library) Examples.visit Examples.planet
    = OK lc' /\
    mask lc' = Some [true; false; true].
Proof. eexists. split; vm_compute; reflexivity. Qed.

(** ** Mask monotonicity *)

Lemma grows_refl m : grows m m.
Proof. split; auto. Qed.

Lemma grows_trans m1 m2 m3 : grows m1 m2 -> grows m2 m3 -> grows m1 m3.
Proof. intros [L1 H1] [L2 H2]. split; [congruence | auto]. Qed.

Lemma grows_zip_orb (m : list bool) : forall o,
  length m = length o -> grows m (zip_with orb m o).
Proof.
  induction m as [|b m IH]; intros [|c o] E; simpl in E; try discriminate.
  - apply grows_refl.
  - injection E as E. destruct (IH o E) as [L Hi]. split; simpl.
    + now rewrite L.
    + intros [|i] Hl; simpl in *.
      * injection Hl as ->. reflexivity.
      * now apply Hi.
Qed.

Lemma grows_map_orb (m : list bool) (c : bool) : grows m (map (fun t => t || c) m).
Proof.
  induction m as [|b m [L Hi]]; [apply grows_refl|]. split; simpl.
  - now rewrite L.
  - intros [|i] Hl; simpl in *.
    + injection Hl as ->. reflexivity.
    + now apply Hi.
Qed.

Lemma grows_assign (m : list bool) : forall vals, grows m (assign_unmasked m vals).
Proof.
  induction m as [|b m IH]; intros vals; [apply grows_refl|].
  destruct b; simpl.
  - destruct (IH vals) as [L Hi]. split; simpl; [now rewrite L|].
    intros [|i] Hl; simpl in *; [reflexivity | now apply Hi].
  - destruct vals as [|v vs]; [destruct (IH []) as [L Hi] | destruct (IH vs) as [L Hi]];
      (split; simpl; [now rewrite L|]);
      (intros [|i] Hl; simpl in *; [discriminate | now apply Hi]).
Qed.

Lemma ior_grows (m o m' : list bool) : ior m o = OK m' -> grows m m'.
Proof.
  unfold ior. destruct (Nat.eqb (length m) (length o)) eqn:E.
  - intros [= <-]. apply grows_zip_orb. now apply Nat.eqb_eq.
  - destruct o as [|c [|? ?]]; try discriminate. intros [= <-]. apply grows_map_orb.
Qed.

Lemma mask_ior_grows (lc lc' : CheopsLightCurve) (o : list bool) :
  mask_ior lc o = OK lc' -> mask_grows lc lc'.
Proof.
  unfold mask_ior, mask_array. destruct (mask lc) as [m|] eqn:Hm; [|discriminate].
  cbn [mbind result_bind]. destruct (ior m o) as [m'|] eqn:Hi; [|discriminate].
  cbn [mbind result_bind]. intros [= <-]. exists m, m'.
  split; [exact Hm|]. split; [reflexivity | now apply ior_grows in Hi].
Qed.

(** Inversion of a bind that returned. *)
Lemma bind_OK {A B : Type} (r : result A) (f : A -> result B) (b : B) :
  (r ≫= f) = OK b -> exists a, r = OK a /\ f a = OK b.
Proof. destruct r as [a|e]; [|discriminate]. intros Hf. now exists a. Qed.

Ltac inv_bind_fresh H :=
  let x := fresh "x" in
  let Hx := fresh "Hx" in
  apply bind_OK in H as (x & Hx & H).

Tactic Notation "inv_bind" hyp(H) := inv_bind_fresh H.

Tactic Notation "inv_bind" hyp(H) "as" ident(x) ident(Hx) :=
  apply bind_OK in H as (x & Hx & H).

Section MaskMonotone.
Context `{Library}.

Lemma sigma_clip_centroid_grows lc sigma lc' :
  sigma_clip_centroid lc sigma = OK lc' -> mask_grows lc lc'.
Proof.
  unfold sigma_clip_centroid. intros Hr. do 3 inv_bind Hr.
  now apply mask_ior_grows in Hr.
Qed.

Lemma sigma_clip_flux_grows lc su sl maxiters lc' :
  sigma_clip_flux lc su sl maxiters = OK lc' -> mask_grows lc lc'.
Proof.
  unfold sigma_clip_flux, mask_array. intros Hr.
  destruct (mask lc) as [m|] eqn:Hm; [|discriminate].
  cbn [mbind result_bind] in Hr. do 3 inv_bind Hr. injection Hr as <-.
  exists m, (assign_unmasked m x1). split; [exact Hm|].
  split; [reflexivity | apply grows_assign].
Qed.

Lemma high_bg_clip_grows lc bgmin lc' :
  high_bg_clip lc bgmin = OK lc' -> mask_grows lc lc'.
Proof.
  unfold high_bg_clip. intros Hr. inv_bind Hr. now apply mask_ior_grows in Hr.
Qed.

Lemma mask_planetary_signal_grows lc pl lc' :
  mask_planetary_signal lc pl = OK lc' -> mask_grows lc lc'.
Proof.
  unfold mask_planetary_signal. intros Hr. inv_bind Hr. inv_bind Hr.
  now apply mask_ior_grows in Hr.
Qed.

Lemma apply_op_grows lc op lc' : apply_op lc op = OK lc' -> mask_grows lc lc'.
Proof.
  destruct op; simpl.
  - apply sigma_clip_centroid_grows.
  - apply sigma_clip_flux_grows.
  - apply high_bg_clip_grows.
  - apply mask_planetary_signal_grows.
Qed.

Lemma mask_grows_trans lc1 lc2 lc3 :
  mask_grows lc1 lc2 -> mask_grows lc2 lc3 -> mask_grows lc1 lc3.
Proof.
  intros (m1 & m2 & H1 & H2 & G12) (m2' & m3 & H2' & H3 & G23).
  rewrite H2 in H2'. injection H2' as <-.
  exists m1, m3. split; [exact H1|]. split; [exact H3|]. eapply grows_trans; eassumption.
Qed.

End MaskMonotone.

(** ** The loading loop of the constructor *)

Lemma lower_vocabulary (key : string) : key ∈ attrs -> lower key = key.
Proof.
  intros Hk.
  assert (Hall : Forall (fun k => lower k = k) attrs).
  { unfold attrs. simpl app. repeat constructor. }
  rewrite Forall_forall in Hall. apply Hall, Hk.
Qed.

Lemma attrs_NoDup : NoDup attrs.
Proof. refine (bool_decide_unpack (NoDup attrs) _). vm_compute. exact I. Qed.

Lemma foldM_result_app {S I : Type} (f : S -> I -> result S) (l1 l2 : list I) : forall s,
  foldM_result f s (l1 ++ l2) = (s' ← foldM_result f s l1; foldM_result f s' l2).
Proof.
  induction l1 as [|i l1 IH]; intros s; [reflexivity|].
  simpl. destruct (f s i) as [s1|e]; [|reflexivity]. cbn [mbind result_bind]. apply IH.
Qed.

(** The lookup raises nothing but [KeyError]. *)
Lemma recs_getitem_Raise (cols : list (string * vec)) (key : string) (e : exn) :
  recs_getitem cols key = Raise e -> e = KeyError.
Proof.
  unfold recs_getitem. destruct (List.find _ cols); [discriminate|].
  destruct (folded_matches cols key) as [|c [|c' l]]; congruence.
Qed.

(** What a turn of the loop returns: it has set the key itself, or the roll
    angle from the roll column, or nothing. *)
Lemma load_key_OK cols vs key vs' :
  load_key cols vs key = OK vs' ->
  ((key ∈ map (fun c => lower (fst c)) cols) /\
   exists v, recs_getitem cols (upper key) = OK v /\ vs' = <[key := v]> vs) \/
  ((key ∉ map (fun c => lower (fst c)) cols) /\
   ("roll" ∈ map (fun c => lower (fst c)) cols) /\
   exists v, recs_getitem cols "roll" = OK v /\ vs' = <["roll_angle" := v]> vs) \/
  ((key ∉ map (fun c => lower (fst c)) cols) /\
   ("roll" ∉ map (fun c => lower (fst c)) cols) /\ vs' = vs).
Proof.
  unfold load_key. intros Hr. case_bool_decide as Hk.
  - inv_bind Hr as v Hv. injection Hr as <-. left. eauto.
  - case_bool_decide as Hroll.
    + inv_bind Hr as v Hv. injection Hr as <-. right. left. eauto.
    + injection Hr as <-. right. right. auto.
Qed.

Lemma load_key_Raise cols vs key e : load_key cols vs key = Raise e -> e = KeyError.
Proof.
  unfold load_key. repeat case_bool_decide; try discriminate.
  - destruct (recs_getitem cols (upper key)) as [v|e'] eqn:E; [discriminate|].
    intros [= <-]. eapply recs_getitem_Raise, E.
  - destruct (recs_getitem cols "roll") as [v|e'] eqn:E; [discriminate|].
    intros [= <-]. eapply recs_getitem_Raise, E.
Qed.

Lemma load_loop_Raise cols (l : list string) e : forall vs,
  foldM_result (load_key cols) vs l = Raise e -> e = KeyError.
Proof.
  induction l as [|key l IH]; intros vs Hr; [discriminate|]. simpl in Hr.
  destruct (load_key cols vs key) as [vs1|e1] eqn:E.
  - eapply IH, Hr.
  - injection Hr as <-. eapply load_key_Raise, E.
Qed.

(** One turn of the loading loop sets the key itself or [roll_angle], and
    nothing else. *)
Lemma load_key_other cols vs key vs' k :
  load_key cols vs key = OK vs' -> k <> key -> k <> "roll_angle" -> vs' !! k = vs !! k.
Proof.
  intros Hr H1 H2.
  destruct (load_key_OK _ _ _ _ Hr) as [(_ & v & _ & ->)|[(_ & _ & v & _ & ->)|(_ & _ & ->)]];
    rewrite ?lookup_insert_ne by congruence; reflexivity.
Qed.

Lemma load_loop_other cols (l : list string) : forall vs vs' k,
  foldM_result (load_key cols) vs l = OK vs' ->
  k ∉ l -> k <> "roll_angle" -> vs' !! k = vs !! k.
Proof.
  induction l as [|key l IH]; intros vs vs' k Hr Hnin Hk.
  - now injection Hr as <-.
  - simpl in Hr. inv_bind Hr as vs1 H1. apply not_elem_of_cons in Hnin as [Hne Hnin].
    rewrite (IH _ _ _ Hr Hnin Hk). eapply load_key_other; eassumption.
Qed.

(** A key the record has is looked up, and the lookup returned. *)
Lemma load_loop_getitem cols (l : list string) : forall vs vs' k,
  foldM_result (load_key cols) vs l = OK vs' ->
  k ∈ l -> k ∈ map (fun c => lower (fst c)) cols ->
  exists v, recs_getitem cols (upper k) = OK v.
Proof.
  induction l as [|key l IH]; intros vs vs' k Hr Hin Hk; [inversion Hin|].
  simpl in Hr. inv_bind Hr as vs1 H1.
  apply elem_of_cons in Hin as [->|Hin]; [|eapply IH; eassumption].
  destruct (load_key_OK _ _ _ _ H1) as [(_ & v & Hv & _)|[(Hn & _)|(Hn & _)]];
    [eauto | contradiction | contradiction].
Qed.

Lemma load_loop_key cols (l : list string) : forall vs vs' k,
  foldM_result (load_key cols) vs l = OK vs' ->
  NoDup l -> k ∈ l -> k <> "roll_angle" ->
  (k ∈ map (fun c => lower (fst c)) cols ->
   exists v, recs_getitem cols (upper k) = OK v /\ vs' !! k = Some v) /\
  (k ∉ map (fun c => lower (fst c)) cols -> vs' !! k = vs !! k).
Proof.
  induction l as [|key l IH]; intros vs vs' k Hr Hnd Hin Hk; [inversion Hin|].
  apply NoDup_cons in Hnd as [Hkey Hnd]. simpl in Hr. inv_bind Hr as vs1 H1.
  destruct (decide (k = key)) as [->|Hne].
  - rewrite (load_loop_other _ _ _ _ _ Hr Hkey Hk).
    destruct (load_key_OK _ _ _ _ H1)
      as [(Hn & v & Hv & ->)|[(Hn & _ & v & _ & ->)|(Hn & _ & ->)]].
    + split; [|contradiction]. intros _. exists v. split; [exact Hv|].
      apply lookup_insert_eq.
    + split; [contradiction|]. intros _. now rewrite lookup_insert_ne by congruence.
    + split; [contradiction | reflexivity].
  - apply elem_of_cons in Hin as [?|Hin]; [congruence|].
    destruct (IH _ _ k Hr Hnd Hin Hk) as [IH1 IH2].
    split; [exact IH1|]. intros Hn. rewrite (IH2 Hn).
    eapply load_key_other; eassumption.
Qed.

Lemma roll_angle_vocabulary : "roll_angle" ∈ attrs.
Proof. refine (bool_decide_unpack ("roll_angle" ∈ attrs) _). vm_compute. exact I. Qed.

Lemma load_loop_vocabulary cols (l : list string) : forall vs vs',
  foldM_result (load_key cols) vs l = OK vs' ->
  Forall (fun k => k ∈ attrs) l ->
  (forall k, is_Some (vs !! k) -> k ∈ attrs) ->
  forall k, is_Some (vs' !! k) -> k ∈ attrs.
Proof.
  induction l as [|key l IH]; intros vs vs' Hr Hl Hvs.
  - now injection Hr as <-.
  - simpl in Hr. inv_bind Hr as vs1 H1. apply Forall_cons in Hl as [Hkey Hl].
    apply (IH _ _ Hr Hl). intros k Hk.
    destruct (decide (k = key)) as [->|H2]; [exact Hkey|].
    destruct (decide (k = "roll_angle")) as [->|H3]; [apply roll_angle_vocabulary|].
    rewrite (load_key_other _ _ _ _ _ H1 H2 H3) in Hk. now apply Hvs.
Qed.

Lemma load_vectors_key (cols : list (string * vec)) (vs : gmap string vec) (key : string) :
  load_vectors (Some cols) = OK vs ->
  key ∈ attrs -> key <> "roll_angle" ->
  (key ∈ map (fun c => lower (fst c)) cols ->
   exists v, recs_getitem cols (upper key) = OK v /\ vs !! key = Some v) /\
  (key ∉ map (fun c => lower (fst c)) cols -> vs !! key = None).
Proof.
  intros Hr Hk Hra. unfold load_vectors in Hr.
  destruct (load_loop_key cols attrs ∅ vs key Hr attrs_NoDup Hk Hra) as [H1 H2].
  split; [exact H1|]. intros Hn. rewrite (H2 Hn). apply lookup_empty.
Qed.

Lemma load_vectors_vocabulary (record_array : option (list (string * vec)))
    (vs : gmap string vec) (k : string) :
  load_vectors record_array = OK vs -> is_Some (vs !! k) -> k ∈ attrs.
Proof.
  destruct record_array as [cols|]; unfold load_vectors; intros Hr.
  - apply (load_loop_vocabulary cols attrs ∅ vs Hr).
    + apply Forall_forall. auto.
    + intros k' Hk'. rewrite lookup_empty in Hk'. destruct Hk' as [? ?]. discriminate.
  - injection Hr as <-. rewrite lookup_empty. intros [? ?]. discriminate.
Qed.

Section Constructor.
Context `{Library}.

Lemma init_OK_inv record_array extra mask_arg norm lc :
  CheopsLightCurve_init record_array extra mask_arg norm = OK lc ->
  exists vs m,
    load_vectors record_array = OK vs /\
    default_mask vs mask_arg = OK m /\
    recs lc = record_array /\ extra_basis_vectors lc = extra /\ mask lc = m /\
    ((norm = false \/ vs !! "flux" = None) -> vectors lc = vs) /\
    (forall k, k <> "flux" -> k <> "fluxerr" -> vectors lc !! k = vs !! k) /\
    (forall k, is_Some (vectors lc !! k) -> k ∈ attrs).
Proof.
  unfold CheopsLightCurve_init. intros Hr.
  inv_bind Hr as vs Hload. inv_bind Hr as m Hm. inv_bind Hr as vs' Hvs. injection Hr as <-.
  exists vs, m. split; [exact Hload|]. split; [exact Hm|]. simpl.
  do 3 (split; [reflexivity|]).
  assert (Hvoc : forall k, is_Some (vs !! k) -> k ∈ attrs)
    by (intros k; now apply (load_vectors_vocabulary record_array)).
  destruct (vs !! "flux") as [flux|] eqn:Hf.
  - destruct norm.
    + inv_bind Hvs as fe Hfe. injection Hvs as <-. split; [|split].
      * intros [?|?]; discriminate.
      * intros k H1 H2. now rewrite !lookup_insert_ne by congruence.
      * intros k Hk. destruct (decide (k = "flux")) as [->|H1]; [now apply Hvoc; rewrite Hf|].
        destruct (decide (k = "fluxerr")) as [->|H2].
        { apply Hvoc. unfold getattr in Hfe.
          destruct (vs !! "fluxerr"); [eauto | discriminate]. }
        rewrite !lookup_insert_ne in Hk by congruence. now apply Hvoc.
    + injection Hvs as <-. auto.
  - injection Hvs as <-. auto.
Qed.

(** With a flux column the constructor does not look at its [mask]
    argument. *)
Lemma init_ignores_mask (cols : list (string * vec)) extra (mask1 mask2 : option (list bool))
    norm :
  "flux" ∈ map (fun c => lower (fst c)) cols ->
  CheopsLightCurve_init (Some cols) extra mask1 norm
  = CheopsLightCurve_init (Some cols) extra mask2 norm.
Proof.
  intros Hf. unfold CheopsLightCurve_init.
  destruct (load_vectors (Some cols)) as [vs|e] eqn:Hload; [|reflexivity].
  cbn [mbind result_bind].
  assert (Vf : "flux" ∈ attrs)
    by (refine (bool_decide_unpack ("flux" ∈ attrs) _); vm_compute; exact I).
  destruct (load_vectors_key cols vs "flux" Hload Vf ltac:(discriminate)) as [Hin _].
  destruct (Hin Hf) as (flux & _ & Hflux).
  unfold default_mask. rewrite Hflux. reflexivity.
Qed.

(** Without a flux the mask is the [mask] argument. *)
Lemma init_mask_without_flux record_array extra mask_arg norm lc :
  (forall cols, record_array = Some cols -> "flux" ∉ map (fun c => lower (fst c)) cols) ->
  CheopsLightCurve_init record_array extra mask_arg norm = OK lc ->
  mask lc = mask_arg.
Proof.
  intros Hnf Hr.
  destruct (init_OK_inv _ _ _ _ _ Hr) as (vs & m & Hload & Hm & _ & _ & Hmask & _).
  assert (Hf : vs !! "flux" = None).
  { destruct record_array as [cols|].
    - assert (Vf : "flux" ∈ attrs)
        by (refine (bool_decide_unpack ("flux" ∈ attrs) _); vm_compute; exact I).
      destruct (load_vectors_key cols vs "flux" Hload Vf ltac:(discriminate)) as [_ Hout].
      apply Hout. now apply Hnf.
    - injection Hload as <-. apply lookup_empty. }
  unfold default_mask in Hm. rewrite Hf in Hm. injection Hm as <-. exact Hmask.
Qed.

End Constructor.

Lemma apply_ops_grow `{Library} (ops : list mask_op) : forall (lc lc' : CheopsLightCurve)
    (m : list bool),
  apply_ops lc ops = OK lc' -> mask lc = Some m ->
  exists m', mask lc' = Some m' /\ grows m m'.
Proof.
  unfold apply_ops. induction ops as [|op ops IH]; intros lc lc' m Hr Hm.
  - injection Hr as <-. exists m. split; [exact Hm | apply grows_refl].
  - simpl in Hr. inv_bind Hr.
    apply apply_op_grows in Hx as (m0 & m1 & Hm0 & Hm1 & G01).
    rewrite Hm in Hm0. injection Hm0 as <-.
    destruct (IH x lc' m1 Hr Hm1) as (m' & Hm' & G1).
    exists m'. split; [exact Hm' | eapply grows_trans; eassumption].
Qed.

(** C5, as the code has it.  The four methods that refine the mask only add
    to it: whatever the light curve, the sequence of calls and their
    arguments, if the calls return then the mask has kept its length and
    every sample masked before the first call is masked after the last (one
    operation is the sequence of length one, and a call that raises leaves
    the object as it was).  The NaN/flag default is not such an operation: it
    is the first mask, assigned by the constructor, which for a record with a
    flux column is computed from the flux and the flags whatever mask was
    supplied (two calls that differ in the [mask] argument do the same), and
    which is the supplied mask only when there is no flux column. *)
Theorem masking_is_monotone `{Library} :
  (forall (lc : CheopsLightCurve) (ops : list mask_op) (lc' : CheopsLightCurve)
          (m : list bool),
     apply_ops lc ops = OK lc' -> mask lc = Some m ->
     exists m', mask lc' = Some m' /\ grows m m') /\
  (forall (cols : list (string * vec)) extra (mask1 mask2 : option (list bool)) norm,
     "flux" ∈ map (fun c => lower (fst c)) cols ->
     CheopsLightCurve_init (Some cols) extra mask1 norm
     = CheopsLightCurve_init (Some cols) extra mask2 norm) /\
  (forall record_array extra mask_arg norm lc,
     (forall cols, record_array = Some cols ->
                   "flux" ∉ map (fun c => lower (fst c)) cols) ->
     CheopsLightCurve_init record_array extra mask_arg norm = OK lc ->
     mask lc = mask_arg).
Proof.
  split; [|split].
  - intros lc ops lc' m. apply apply_ops_grow.
  - apply init_ignores_mask.
  - apply init_mask_without_flux.
Qed.

Lemma masking_is_monotone_witness :
  (exists m',
     mask (set_mask Examples.full_visit [true; false; true; true]) = Some m' /\
     grows [false; false; false; false] m') /\
  CheopsLightCurve_init (H := Examples.table_library)
    (Some [("FLUX", [Fin 1; NaN; Fin 3])]) None (Some [true; true; true]) false
  = CheopsLightCurve_init (H := Examples.table_library)
      (Some [("FLUX", [Fin 1; NaN; Fin 3])]) None None false.
Proof.
  split.
  - apply (proj1 (masking_is_monotone (H := Examples.table_library)) Examples.full_visit
             [SigmaClipCentroid (Fin (35 # 10)); SigmaClipFlux (Fin 4) (Fin 4) None;
              HighBgClip (Fin 300); MaskPlanetarySignal Examples.planet]).
    + vm_compute. reflexivity.
    + reflexivity.
  - apply (proj1 (proj2 (masking_is_monotone (H := Examples.table_library)))).
    refine (bool_decide_unpack (_ ∈ _) _). vm_compute. exact I.
Defined.

(** C5 as claimed fails for the NaN/flag default: a light curve built from a
    flux with one NaN and with every sample masked by the [mask] argument
    comes out with only the NaN sample masked. *)
Lemma default_mask_drops_supplied_mask :
  exists lc,
    CheopsLightCurve_init (H := Examples.table_library)
      (Some [("FLUX", [Fin 1; NaN; Fin 3])]) None (Some [true; true; true]) false = OK lc /\
    mask lc = Some [false; true; false] /\
    ~ grows [true; true; true] [false; true; false].
Proof.
  eexists. split; [vm_compute; reflexivity|]. split; [reflexivity|].
  intros [_ Hg]. specialize (Hg 0%nat eq_refl). discriminate Hg.
Qed.

(** ** Joint regression targets *)

Lemma select_unmasked_app {A : Type} (m1 m2 : list bool) : forall (v1 v2 : list A),
  length m1 = length v1 ->
  select_unmasked (m1 ++ m2) (v1 ++ v2) = select_unmasked m1 v1 ++ select_unmasked m2 v2.
Proof.
  induction m1 as [|b m1 IH]; intros [|x v1] v2 E; simpl in E; try discriminate.
  - reflexivity.
  - injection E as E. simpl. rewrite (IH v1 v2 E). now destruct b.
Qed.

Lemma select_unmasked_length {A : Type} (m : list bool) : forall (l : list A),
  length m = length l -> length (select_unmasked m l) = count_unmasked m.
Proof.
  unfold count_unmasked.
  induction m as [|b m IH]; intros [|x l] E; simpl in E; try discriminate; [reflexivity|].
  injection E as E. destruct b; simpl; [now apply IH | f_equal; now apply IH].
Qed.

Lemma index_unmasked_OK {A : Type} (m : list bool) (v r : list A) :
  index_unmasked m v = OK r -> length m = length v /\ r = select_unmasked m v.
Proof.
  unfold index_unmasked. destruct (Nat.eqb (length m) (length v)) eqn:E; [|discriminate].
  intros [= <-]. split; [now apply Nat.eqb_eq | reflexivity].
Qed.

Lemma index_unmasked_same_length {A : Type} (m : list bool) (v : list A) :
  length m = length v -> index_unmasked m v = OK (select_unmasked m v).
Proof. intros E. unfold index_unmasked. now rewrite E, Nat.eqb_refl. Qed.

Lemma visit_targets_parts (lcs : list CheopsLightCurve) : forall ys,
  mapM_result visit_targets lcs = OK ys ->
  exists fl er ms,
    mapM_result (fun lc => attr lc "flux") lcs = OK fl /\
    mapM_result (fun lc => attr lc "fluxerr") lcs = OK er /\
    mapM_result mask_array lcs = OK ms /\
    length fl = length lcs /\ length er = length lcs /\ length ms = length lcs /\
    length (concat ms) = length (concat fl) /\
    length (concat ms) = length (concat er) /\
    select_unmasked (concat ms) (concat fl) = concat (map fst ys) /\
    select_unmasked (concat ms) (concat er) = concat (map snd ys).
Proof.
  induction lcs as [|lc lcs IH]; intros ys Hr; simpl in Hr.
  - injection Hr as <-. exists [], [], []. repeat split; reflexivity.
  - inv_bind Hr as y Hy. inv_bind Hr as ys' Hys. injection Hr as <-.
    destruct (IH _ Hys) as (fl & er & ms & Hfl & Her & Hms & Lf & Le & Lm & L1 & L2 & S1 & S2).
    unfold visit_targets in Hy.
    inv_bind Hy as f Hf. inv_bind Hy as m Hm. inv_bind Hy as yf Hyf.
    inv_bind Hy as e He. inv_bind Hy as ye Hye. injection Hy as <-.
    apply index_unmasked_OK in Hyf as [E1 ->].
    apply index_unmasked_OK in Hye as [E2 ->].
    exists (f :: fl), (e :: er), (m :: ms). simpl.
    rewrite Hf, He, Hm, Hfl, Her, Hms. simpl.
    rewrite !length_app, !select_unmasked_app, S1, S2 by assumption.
    repeat split; congruence.
Qed.

Lemma visit_targets_pad_shapes (lcs : list CheopsLightCurve) : forall ys,
  mapM_result visit_targets lcs = OK ys ->
  mapM_result (fun lc => m ← mask_array lc; mret (count_unmasked m)) lcs
  = OK (map (fun y => length (fst y)) ys).
Proof.
  induction lcs as [|lc lcs IH]; intros ys Hr; simpl in Hr.
  - now injection Hr as <-.
  - inv_bind Hr as y Hy. inv_bind Hr as ys' Hys. injection Hr as <-.
    unfold visit_targets in Hy.
    inv_bind Hy as f Hf. inv_bind Hy as m Hm. inv_bind Hy as yf Hyf.
    inv_bind Hy as e He. inv_bind Hy as ye Hye. injection Hy as <-.
    apply index_unmasked_OK in Hyf as [E1 ->].
    simpl. rewrite Hm. cbn [mbind result_bind]. rewrite (IH _ Hys).
    cbn [mbind result_bind]. unfold mret, result_ret. simpl.
    now rewrite (select_unmasked_length m f E1).
Qed.

(** C7.  When each visit's own [flux[~mask]] and [fluxerr[~mask]] are
    defined, the vectors the joint regression hands to the solver,
    the concatenated flux and uncertainty indexed by the concatenated mask,
    are the concatenations, in the order of the visits, of the visits' own;
    and the lengths of the visits' parts are the row counts by which the
    joint design matrix is padded, so the rows agree. *)
Theorem joint_targets_are_concatenated (self : JointLightCurve)
    (lcs : list CheopsLightCurve) (ys : list (vec * vec)) :
  joint_light_curves self = OK lcs ->
  lcs <> [] ->
  mapM_result visit_targets lcs = OK ys ->
  regress_targets self = OK (concat (map fst ys), concat (map snd ys)) /\
  _pad_shapes self = OK (map (fun y => length (fst y)) ys).
Proof.
  intros Hl Hne Hv. split.
  - destruct (visit_targets_parts lcs ys Hv)
      as (fl & er & ms & Hfl & Her & Hms & Lf & Le & Lm & L1 & L2 & S1 & S2).
    unfold regress_targets. rewrite Hl. cbn [mbind result_bind].
    rewrite Hfl, Her, Hms. cbn [mbind result_bind].
    destruct lcs as [|lc lcs]; [congruence|].
    destruct fl as [|f fl]; [discriminate|].
    destruct er as [|e er]; [discriminate|].
    destruct ms as [|m ms]; [discriminate|].
    unfold np_concatenate. cbn [mbind result_bind].
    rewrite (index_unmasked_same_length _ _ L1), (index_unmasked_same_length _ _ L2).
    cbn [mbind result_bind]. rewrite S1, S2. reflexivity.
  - unfold _pad_shapes. rewrite Hl. cbn [mbind result_bind].
    now apply visit_targets_pad_shapes.
Qed.

(** ** The constructor of the joint object *)

(** No vocabulary name is the name of a method or of an attribute of
    [object]. *)
Lemma vocabulary_not_class_attr (a : string) :
  a ∈ attrs -> bool_decide (a ∈ JointLightCurve_methods ++ object_attrs) = false.
Proof.
  intros Ha.
  assert (Hall : Forall (fun a => bool_decide (a ∈ JointLightCurve_methods ++ object_attrs)
                                  = false) attrs).
  { unfold attrs. simpl app. repeat constructor. }
  rewrite Forall_forall in Hall. apply Hall, Ha.
Qed.

Lemma vocabulary_free_hasattr self a :
  vocabulary_free self -> a ∈ attrs -> joint_hasattr self a = false.
Proof.
  intros Hfree Ha. unfold joint_hasattr.
  rewrite (vocabulary_not_class_attr a Ha), (Hfree a Ha), orb_false_r.
  apply bool_decide_eq_false. intros [? ?]. discriminate.
Qed.

Lemma copy_attr_vocabulary_free lcs self name self' :
  vocabulary_free self -> copy_attr lcs self name = OK self' -> vocabulary_free self'.
Proof.
  intros Hfree. unfold copy_attr.
  destruct (joint_hasattr self name) eqn:Hhas; [|intros [= <-]; exact Hfree].
  intros Hr. inv_bind Hr as vals Hvals. injection Hr as <-.
  intros a Ha. unfold joint_setattr; simpl.
  destruct (decide (name = a)) as [->|Hne].
  - rewrite (vocabulary_free_hasattr self a Hfree Ha) in Hhas. discriminate.
  - rewrite lookup_insert_ne by exact Hne. apply Hfree, Ha.
Qed.

Lemma copy_loop_vocabulary_free lcs names : forall self self',
  vocabulary_free self ->
  foldM_result (copy_attr lcs) self names = OK self' -> vocabulary_free self'.
Proof.
  induction names as [|name names IH]; intros self self' Hfree Hr; simpl in Hr.
  - injection Hr as <-. exact Hfree.
  - inv_bind Hr as self1 H1. eapply IH; [|exact Hr].
    eapply copy_attr_vocabulary_free; eassumption.
Qed.

(** The guard is false on a vocabulary name, so the turn of the loop does
    nothing. *)
Lemma copy_attr_vocabulary_skips lcs self a :
  vocabulary_free self -> a ∈ attrs -> copy_attr lcs self a = OK self.
Proof.
  intros Hfree Ha. unfold copy_attr.
  now rewrite (vocabulary_free_hasattr self a Hfree Ha).
Qed.

(** C9.  When the constructor of the joint object returns, no vocabulary
    attribute is an instance attribute of the object, [hasattr] is false for
    each of them, a turn of the copying loop on such a name leaves the object
    as it is, and the light curves are there as they were given. *)
Theorem joint_init_copies_no_vocabulary (light_curves : list CheopsLightCurve)
    (self : JointLightCurve) :
  JointLightCurve_init light_curves = OK self ->
  light_curves <> [] /\
  forall a, a ∈ attrs ->
    jdict self !! a = None /\ joint_hasattr self a = false /\
    copy_attr light_curves self a = OK self.
Proof.
  unfold JointLightCurve_init. intros Hr.
  inv_bind Hr as first Hfirst. inv_bind Hr as cols Hcols.
  split; [destruct light_curves; [discriminate | congruence]|].
  assert (Hfree : vocabulary_free self).
  { eapply copy_loop_vocabulary_free; [|exact Hr].
    intros a Ha. unfold joint_setattr; simpl.
    assert (Hall : Forall (fun a => a <> "attrs" /\ a <> "light_curves") attrs).
    { unfold attrs. simpl app. repeat constructor; discriminate. }
    rewrite Forall_forall in Hall. destruct (Hall a Ha) as [H1 H2].
    rewrite !lookup_insert_ne by congruence. apply lookup_empty. }
  intros a Ha. split; [apply Hfree, Ha|]. split.
  - now apply vocabulary_free_hasattr.
  - now apply copy_attr_vocabulary_skips.
Qed.

Lemma joint_init_copies_no_vocabulary_witness :
  [Examples.full_visit; Examples.extra_visit] <> [] /\
  forall a, a ∈ attrs ->
    jdict Examples.joint !! a = None /\ joint_hasattr Examples.joint a = false /\
    copy_attr [Examples.full_visit; Examples.extra_visit] Examples.joint a
    = OK Examples.joint.
Proof.
  apply (joint_init_copies_no_vocabulary
           [Examples.full_visit; Examples.extra_visit] Examples.joint).
  vm_compute. reflexivity.
Defined.

Lemma joint_targets_are_concatenated_witness :
  regress_targets Examples.joint
  = OK (concat (map fst [([Fin 1; Fin 1; Fin 9; Fin 1], replicate 4 (Fin (1 # 10)));
                         ([Fin 1; Fin 9; Fin 1], replicate 3 (Fin (1 # 10)))]),
        concat (map snd [([Fin 1; Fin 1; Fin 9; Fin 1], replicate 4 (Fin (1 # 10)));
                         ([Fin 1; Fin 9; Fin 1], replicate 3 (Fin (1 # 10)))])) /\
  _pad_shapes Examples.joint
  = OK (map (fun y => length (fst y))
          [([Fin 1; Fin 1; Fin 9; Fin 1], replicate 4 (Fin (1 # 10)));
           ([Fin 1; Fin 9; Fin 1], replicate 3 (Fin (1 # 10)))]).
Proof.
  apply (joint_targets_are_concatenated Examples.joint
           [Examples.full_visit; Examples.extra_visit]).
  - vm_compute. reflexivity.
  - discriminate.
  - vm_compute. reflexivity.
Defined.

Lemma map_is_fmap {A B : Type} (f : A -> B) (l : list A) : map f l = f <$> l.
Proof. reflexivity. Qed.

(** ** Stacking and transposing *)

Lemma vstack_onto_OK (rest : list ndarray) : forall X Y,
  vstack_onto X rest = OK Y ->
  Forall (fun Z => shape1 Z = shape1 X) rest /\
  Y = mk_ndarray (shape0 X + sum_list (map shape0 rest)) (shape1 X)
        (rows X ++ concat (map rows rest)).
Proof.
  induction rest as [|Z rest IH]; intros X Y Hr; simpl in Hr.
  - injection Hr as <-. split; [constructor|]. destruct X as [r c rs]; simpl.
    now rewrite Nat.add_0_r, app_nil_r.
  - destruct (Nat.eqb (shape1 X) (shape1 Z)) eqn:E; [|discriminate].
    apply Nat.eqb_eq in E. apply IH in Hr as [Hall ->]. simpl in *. split.
    + constructor; [congruence | exact Hall].
    + now rewrite Nat.add_assoc, <- app_assoc.
Qed.

Lemma vstack_vectors (X : arr) (vs : list vec) (n : nat) (cols : list vec) (Y : ndarray) :
  atleast_2d X = columns_array n cols ->
  np_vstack (X :: map A1 vs) = OK Y ->
  Forall (fun v => length v = n) vs /\ Y = columns_array n (cols ++ vs).
Proof.
  intros HX Hr. unfold np_vstack in Hr. simpl map in Hr. rewrite HX in Hr.
  apply vstack_onto_OK in Hr as [Hall ->]. simpl in *. split.
  - clear - Hall. induction vs as [|v vs IH]; [constructor|].
    simpl in Hall. apply Forall_cons in Hall as [Hv Hvs].
    constructor; [exact Hv | now apply IH].
  - unfold columns_array. rewrite length_app. f_equal.
    + f_equal. clear. induction vs as [|v vs IH]; simpl; [reflexivity | now rewrite IH].
    + f_equal. clear. induction vs as [|v vs IH]; simpl; [reflexivity | now rewrite IH].
Qed.

Lemma vstack_array (n : nat) (cols : list vec) (M Y : ndarray) :
  length (rows M) = shape0 M ->
  np_vstack [A2 (columns_array n cols); A2 M] = OK Y ->
  shape1 M = n /\ Y = columns_array n (cols ++ rows M).
Proof.
  intros Hwf Hr. unfold np_vstack in Hr. simpl map in Hr.
  apply vstack_onto_OK in Hr as [Hall ->]. simpl in *.
  apply Forall_cons in Hall as [HM _]. split; [exact HM|].
  unfold columns_array. rewrite length_app, Hwf, Nat.add_0_r, app_nil_r. reflexivity.
Qed.

Lemma lookup_default_map_seq (l : vec) :
  map (fun j => default Num.zero (l !! j)) (seq 0 (length l)) = l.
Proof.
  apply list_eq. intros i. rewrite map_is_fmap, list_lookup_fmap.
  destruct (decide (i < length l)%nat) as [Hi|Hi].
  - rewrite lookup_seq_lt by exact Hi. simpl.
    destruct (lookup_lt_is_Some_2 l i Hi) as [x Hx]. now rewrite Hx.
  - rewrite lookup_seq_ge by lia. simpl. symmetry. apply lookup_ge_None. lia.
Qed.

Lemma transpose_rows_length (X : ndarray) : length (rows (transpose X)) = shape0 (transpose X).
Proof. unfold transpose; simpl. now rewrite length_map', length_seq. Qed.

Lemma transpose_involutive (n : nat) (cols : list vec) :
  Forall (fun c => length c = n) cols ->
  transpose (transpose (columns_array n cols)) = columns_array n cols.
Proof.
  intros Hall. unfold transpose, columns_array; simpl. f_equal.
  apply list_eq. intros k. rewrite map_is_fmap, list_lookup_fmap.
  destruct (decide (k < length cols)%nat) as [Hk|Hk].
  - rewrite lookup_seq_lt by exact Hk. simpl.
    destruct (lookup_lt_is_Some_2 cols k Hk) as [ck Hck]. rewrite Hck. f_equal.
    assert (Hlen : length ck = n).
    { rewrite Forall_forall in Hall. apply Hall. eapply list_elem_of_lookup_2, Hck. }
    transitivity (map (fun j => default Num.zero (ck !! j)) (seq 0 (length ck)));
      [|apply lookup_default_map_seq].
    rewrite Hlen, List.map_map. apply List.map_ext. intros j.
    rewrite (map_is_fmap _ cols), list_lookup_fmap, Hck. reflexivity.
  - rewrite lookup_seq_ge by lia. simpl. symmetry. apply lookup_ge_None. lia.
Qed.

(** ** The two builders *)

Lemma select_unmasked_subset {A : Type} (m : list bool) : forall (l : list A) x,
  x ∈ select_unmasked m l -> x ∈ l.
Proof.
  induction m as [|b m IH]; intros [|y l] x Hx; simpl in Hx; try (now inversion Hx).
  destruct b.
  - right. now apply IH.
  - apply elem_of_cons in Hx as [->|Hx]; [left | right; now apply IH].
Qed.

Lemma rows_unmasked_OK (m : list bool) (X Y : ndarray) :
  rows_unmasked m X = OK Y ->
  length m = shape0 X /\
  Y = mk_ndarray (count_unmasked m) (shape1 X) (select_unmasked m (rows X)).
Proof.
  unfold rows_unmasked. destruct (Nat.eqb (length m) (shape0 X)) eqn:E; [|discriminate].
  intros [= <-]. split; [now apply Nat.eqb_eq | reflexivity].
Qed.

Lemma append_extra_rows_length (X X1 : ndarray) (E : option arr) :
  length (rows X) = shape0 X -> append_extra X E = OK X1 ->
  length (rows X1) = shape0 X1.
Proof.
  intros HX. destruct E as [E|]; simpl.
  - intros Hr. inv_bind Hr as Xe He. injection Hr as <-. apply transpose_rows_length.
  - intros [= <-]. exact HX.
Qed.

(** Both builders end with [X[~self.mask]] on a matrix that has a row for
    every sample. *)
Lemma builders_end_with_mask `{Library} (lc : CheopsLightCurve) (X : ndarray) (c : nat) :
  returned_by lc X c ->
  exists m Xfull, mask lc = Some m /\ length (rows Xfull) = shape0 Xfull /\
                  rows_unmasked m Xfull = OK X.
Proof.
  intros [(norm & Hr & _)|(h & norm & names & Hr & _)].
  - unfold design_matrix in Hr.
    inv_bind Hr as roll Hroll. inv_bind Hr as cs Hcs. inv_bind Hr as sn Hsn.
    inv_bind Hr as bjd Hbjd. inv_bind Hr as Xt HXt. inv_bind Hr as X1 HX1.
    inv_bind Hr as m Hm. unfold mask_array in Hm.
    destruct (mask lc) as [m'|] eqn:Hmask; [|discriminate]. injection Hm as ->.
    exists m, X1. split; [reflexivity|]. split; [|exact Hr].
    eapply append_extra_rows_length; [|exact HX1]. apply transpose_rows_length.
  - unfold design_matrix_all in Hr.
    inv_bind Hr as bjd Hbjd. inv_bind Hr as st Hst. destruct st as [X0 names0].
    inv_bind Hr as cen Hcen. destruct cen as [[xc yc] bg].
    inv_bind Hr as nxc Hnxc. inv_bind Hr as nyc Hnyc. inv_bind Hr as nx2 Hnx2.
    inv_bind Hr as ny2 Hny2. inv_bind Hr as xy Hxy. inv_bind Hr as nxy Hnxy.
    inv_bind Hr as nbg Hnbg. inv_bind Hr as X1 HX1.
    cbv zeta in Hr.
    destruct (extra_basis_vectors lc) as [E|].
    + inv_bind Hr as X2 HX2. inv_bind Hr as col Hcol. inv_bind Hr as m Hm.
      inv_bind Hr as Xm HXm. injection Hr as <- <-.
      unfold mask_array in Hm.
      destruct (mask lc) as [m'|] eqn:Hmask; [|discriminate]. injection Hm as ->.
      exists m, X2. split; [reflexivity|]. split; [|exact HXm].
      eapply append_extra_rows_length; [|exact HX2]. apply transpose_rows_length.
    + inv_bind Hr as m Hm. inv_bind Hr as Xm HXm. injection Hr as <- <-.
      unfold mask_array in Hm.
      destruct (mask lc) as [m'|] eqn:Hmask; [|discriminate]. injection Hm as ->.
      exists m, (transpose
        (fst (try_pair lc norm "u1" "u2" "u1" "u2"
           (try_pair lc norm "conta_lc" "smearing_lc" "contamination" "smearing"
              (X1, names0 ++ ["xc"; "yc"; "x2"; "y2"; "xy"; "bg"]))))).
      split; [reflexivity|]. split; [apply transpose_rows_length | exact HXm].
Qed.



(** ** The constant column *)

Lemma row_of_ones_vstack_onto (Xt Y : ndarray) (rest : list ndarray) (c : nat) :
  row_of_ones Xt c -> vstack_onto Xt rest = OK Y -> row_of_ones Y c.
Proof.
  unfold row_of_ones. intros HP Hr. apply vstack_onto_OK in Hr as [_ ->]. simpl.
  now apply lookup_app_l_Some.
Qed.

Lemma row_of_ones_vstack (X : arr) (more : list arr) (Y : ndarray) (c : nat) :
  row_of_ones (atleast_2d X) c -> np_vstack (X :: more) = OK Y -> row_of_ones Y c.
Proof. unfold np_vstack. simpl map. apply row_of_ones_vstack_onto. Qed.

Lemma row_of_ones_transpose (Xt : ndarray) (c : nat) :
  row_of_ones Xt c -> column_of_ones (transpose Xt) c.
Proof.
  unfold row_of_ones, column_of_ones, transpose; simpl. intros HP r Hr.
  rewrite map_is_fmap in Hr. apply list_elem_of_fmap in Hr as (j & -> & Hj).
  apply elem_of_seq in Hj as [_ Hj]. simpl in Hj.
  rewrite map_is_fmap, list_lookup_fmap, HP. simpl.
  rewrite lookup_replicate_2 by exact Hj. reflexivity.
Qed.

Lemma column_of_ones_transpose (X : ndarray) (c : nat) :
  column_of_ones X c -> length (rows X) = shape0 X -> (c < shape1 X)%nat ->
  row_of_ones (transpose X) c.
Proof.
  unfold row_of_ones, column_of_ones, transpose; simpl. intros HQ Hlen Hc.
  rewrite map_is_fmap, list_lookup_fmap, lookup_seq_lt by exact Hc. simpl. f_equal.
  rewrite <- Hlen. clear Hlen. induction (rows X) as [|r rs IH]; [reflexivity|].
  simpl. rewrite (HQ r) by now left. simpl. f_equal. apply IH.
  intros r' Hr'. apply HQ. now right.
Qed.

Lemma column_of_ones_unmasked (m : list bool) (X Y : ndarray) (c : nat) :
  column_of_ones X c -> rows_unmasked m X = OK Y -> column_of_ones Y c.
Proof.
  intros HQ Hr. apply rows_unmasked_OK in Hr as [_ ->]. intros r Hin. simpl in Hin.
  apply HQ. eapply select_unmasked_subset, Hin.
Qed.

Lemma row_of_ones_initial (n : nat) : row_of_ones (atleast_2d (A1 (np_ones n))) 0.
Proof.
  unfold row_of_ones, np_ones; simpl. now rewrite length_replicate.
Qed.

Lemma vstack_onto_shape0 (Xt Y : ndarray) (rest : list ndarray) :
  vstack_onto Xt rest = OK Y -> (shape0 Xt <= shape0 Y)%nat.
Proof. intros Hr. apply vstack_onto_OK in Hr as [_ ->]. simpl. lia. Qed.

(** Appending the extra basis vectors keeps the column of ones where it is. *)
Lemma column_of_ones_append_extra (X X1 : ndarray) (E : option arr) (c : nat) :
  column_of_ones X c -> length (rows X) = shape0 X -> (c < shape1 X)%nat ->
  append_extra X E = OK X1 -> column_of_ones X1 c.
Proof.
  intros HQ Hlen Hc. destruct E as [E|]; simpl; [|now intros [= <-]].
  intros Hr. inv_bind Hr as Xe He. injection Hr as <-.
  apply row_of_ones_transpose.
  eapply row_of_ones_vstack; [|exact He]. simpl. now apply column_of_ones_transpose.
Qed.

Lemma ones_first_vstack (X : arr) (more : list arr) (Y : ndarray) :
  ones_first (atleast_2d X) -> np_vstack (X :: more) = OK Y -> ones_first Y.
Proof.
  intros [HP Hs] Hr. split; [eapply row_of_ones_vstack; eassumption|].
  unfold np_vstack in Hr. simpl map in Hr. apply vstack_onto_shape0 in Hr. lia.
Qed.

Section ConstantColumn.
Context `{Library}.

Lemma harmonic_step_ones_first lc norm st i st' :
  ones_first (atleast_2d (fst st)) -> harmonic_step lc norm st i = OK st' ->
  ones_first (atleast_2d (fst st')).
Proof.
  destruct st as [X names]. unfold harmonic_step. intros Hinv Hr.
  inv_bind Hr as roll Hroll. inv_bind Hr as sin1 Hsin. inv_bind Hr as cos1 Hcos.
  inv_bind Hr as X1 HX1. inv_bind Hr as X2 HX2. injection Hr as <-. simpl.
  eapply ones_first_vstack; [|exact HX2]. simpl.
  eapply ones_first_vstack; [|exact HX1]. exact Hinv.
Qed.

Lemma harmonic_loop_ones_first lc norm (l : list nat) : forall st st',
  ones_first (atleast_2d (fst st)) ->
  foldM_result (harmonic_step lc norm) st l = OK st' ->
  ones_first (atleast_2d (fst st')).
Proof.
  induction l as [|i l IH]; intros st st' Hinv Hr; simpl in Hr.
  - now injection Hr as <-.
  - inv_bind Hr as st1 H1. eapply IH; [|exact Hr].
    eapply harmonic_step_ones_first; eassumption.
Qed.

Lemma try_pair_ones_first lc norm n1 n2 l1 l2 st :
  ones_first (fst st) -> ones_first (fst (try_pair lc norm n1 n2 l1 l2 st)).
Proof.
  intros Hinv. unfold try_pair.
  destruct (attr lc n1 ≫= _) as [st'|e] eqn:Hr; [|exact Hinv].
  inv_bind Hr as v1 Hv1. inv_bind Hr as v1' Hv1'. inv_bind Hr as v2 Hv2.
  inv_bind Hr as v2' Hv2'. inv_bind Hr as X' HX'. injection Hr as <-. simpl.
  eapply ones_first_vstack; [|exact HX']. exact Hinv.
Qed.

Lemma design_matrix_all_stack lc h norm X names :
  design_matrix_all lc h norm = OK (X, names) ->
  exists Xs Xfull m,
    ones_first Xs /\ append_extra (transpose Xs) (extra_basis_vectors lc) = OK Xfull /\
    rows_unmasked m Xfull = OK X.
Proof.
  unfold design_matrix_all. intros Hr.
  inv_bind Hr as bjd Hbjd. inv_bind Hr as st Hst. destruct st as [X0 names0].
  inv_bind Hr as cen Hcen. destruct cen as [[xc yc] bg].
  inv_bind Hr as nxc Hnxc. inv_bind Hr as nyc Hnyc. inv_bind Hr as nx2 Hnx2.
  inv_bind Hr as ny2 Hny2. inv_bind Hr as xy Hxy. inv_bind Hr as nxy Hnxy.
  inv_bind Hr as nbg Hnbg. inv_bind Hr as X1 HX1.
  cbv zeta in Hr.
  assert (H0 : ones_first (atleast_2d X0)).
  { refine (harmonic_loop_ones_first lc norm (seq 0 h) _ (X0, names0) _ Hst).
    split; [apply row_of_ones_initial | simpl; lia]. }
  assert (H1 : ones_first X1) by (eapply ones_first_vstack; [exact H0 | exact HX1]).
  set (st2 := try_pair lc norm "u1" "u2" "u1" "u2"
                (try_pair lc norm "conta_lc" "smearing_lc" "contamination" "smearing"
                   (X1, names0 ++ ["xc"; "yc"; "x2"; "y2"; "xy"; "bg"]))) in *.
  assert (H2 : ones_first (fst st2)).
  { subst st2. apply try_pair_ones_first, try_pair_ones_first. exact H1. }
  destruct (extra_basis_vectors lc) as [E|].
  - inv_bind Hr as X2 HX2. inv_bind Hr as col Hcol. inv_bind Hr as m Hm.
    inv_bind Hr as Xm HXm. injection Hr as <- <-.
    exists (fst st2), X2, m. auto.
  - inv_bind Hr as m Hm. inv_bind Hr as Xm HXm. injection Hr as <- <-.
    exists (fst st2), (transpose (fst st2)), m. auto.
Qed.

Lemma design_matrix_stack lc norm X :
  design_matrix lc norm = OK X ->
  exists Xt Xfull m,
    row_of_ones Xt 2 /\ shape0 Xt = 3%nat /\
    append_extra (transpose Xt) (extra_basis_vectors lc) = OK Xfull /\
    rows_unmasked m Xfull = OK X.
Proof.
  unfold design_matrix. intros Hr.
  inv_bind Hr as roll Hroll. inv_bind Hr as cs Hcs. inv_bind Hr as sn Hsn.
  inv_bind Hr as bjd Hbjd. inv_bind Hr as Xt HXt. inv_bind Hr as X1 HX1.
  inv_bind Hr as m Hm.
  exists Xt, X1, m. split; [|split; [|split; assumption]].
  - apply (vstack_vectors (A1 cs) [sn; np_ones (length bjd)] (length cs) [cs])
      in HXt as [Hall ->]; [|reflexivity].
    apply Forall_cons in Hall as [_ Hall]. apply Forall_cons in Hall as [Hones _].
    unfold row_of_ones; simpl. unfold np_ones in *.
    rewrite length_replicate in Hones. now rewrite Hones.
  - apply (vstack_vectors (A1 cs) [sn; np_ones (length bjd)] (length cs) [cs])
      in HXt as [_ ->]; reflexivity.
Qed.

End ConstantColumn.

Lemma constant_column_rows `{Library} (lc : CheopsLightCurve) (X : ndarray)
    (c : nat) (r : list num) :
  returned_by lc X c ->
  r ∈ rows X ->
  r !! c = Some Num.one.
Proof.
  intros [(norm & Hr & ->)|(h & norm & names & Hr & ->)] Hin.
  - destruct (design_matrix_stack lc norm X Hr) as (Xt & Xfull & m & HP & H3 & Hx & Hm).
    refine (column_of_ones_unmasked m Xfull X 2 _ Hm r Hin).
    eapply column_of_ones_append_extra; [| | |exact Hx].
    + now apply row_of_ones_transpose.
    + apply transpose_rows_length.
    + simpl. lia.
  - destruct (design_matrix_all_stack lc h norm X names Hr)
      as (Xs & Xfull & m & [HP Hs] & Hx & Hm).
    refine (column_of_ones_unmasked m Xfull X 0 _ Hm r Hin).
    eapply column_of_ones_append_extra; [| | |exact Hx].
    + now apply row_of_ones_transpose.
    + apply transpose_rows_length.
    + simpl. lia.
Qed.

Lemma append_extra_width (Xs Xfull : ndarray) (E : option arr) :
  append_extra (transpose Xs) E = OK Xfull -> (shape0 Xs <= shape1 Xfull)%nat.
Proof.
  unfold append_extra. destruct E as [E|].
  - intros Hr. inv_bind Hr as Xe HXe. injection Hr as <-.
    unfold np_vstack in HXe. simpl map in HXe.
    apply vstack_onto_OK in HXe as [_ ->]. simpl. lia.
  - intros [= <-]. simpl. lia.
Qed.

Lemma constant_column_within `{Library} (lc : CheopsLightCurve) (X : ndarray) (c : nat) :
  returned_by lc X c -> (c < shape1 X)%nat.
Proof.
  intros [(norm & Hr & ->)|(h & norm & names & Hr & ->)].
  - destruct (design_matrix_stack lc norm X Hr) as (Xt & Xfull & m & _ & H3 & Hx & Hm).
    apply rows_unmasked_OK in Hm as [_ ->]. apply append_extra_width in Hx. simpl. lia.
  - destruct (design_matrix_all_stack lc h norm X names Hr)
      as (Xs & Xfull & m & [_ Hs] & Hx & Hm).
    apply rows_unmasked_OK in Hm as [_ ->]. apply append_extra_width in Hx. simpl. lia.
Qed.

Lemma map_constant {A B : Type} (f : A -> B) (y : B) (l : list A) :
  (forall x, x ∈ l -> f x = y) -> map f l = replicate (length l) y.
Proof.
  induction l as [|x l IH]; intros Hall; [reflexivity|].
  simpl. rewrite Hall by left. f_equal. apply IH. intros z Hz. apply Hall. now right.
Qed.

(** C10.  In the matrix either builder returns, whatever the normalisation
    flag, the constant column is there (the third of [design_matrix], the
    first of [design_matrix_all], within the width of the matrix), has one
    entry for every unmasked sample, and is exactly one in every row: it is
    built by [np.ones] and never handed to [normalize]. *)
Theorem constant_column_is_ones `{Library} (lc : CheopsLightCurve) (X : ndarray)
    (c : nat) :
  returned_by lc X c ->
  exists m,
    mask lc = Some m /\
    (c < shape1 X)%nat /\
    length (rows X) = count_unmasked m /\
    map (fun r => r !! c) (rows X) = replicate (count_unmasked m) (Some Num.one).
Proof.
  intros Hret.
  destruct (builders_end_with_mask lc X c Hret) as (m & Xfull & Hmask & Hlen & HX).
  assert (Hrows : length (rows X) = count_unmasked m).
  { apply rows_unmasked_OK in HX as [Hm ->]. simpl.
    apply select_unmasked_length. congruence. }
  exists m. split; [exact Hmask|]. split; [exact (constant_column_within lc X c Hret)|].
  split; [exact Hrows|]. rewrite <- Hrows. apply map_constant.
  intros r Hr. eapply constant_column_rows; eassumption.
Qed.

Lemma constant_column_is_ones_witness :
  (exists m,
     mask Examples.extra_visit = Some m /\
     (2 < shape1 Examples.extra_visit_matrix)%nat /\
     length (rows Examples.extra_visit_matrix) = count_unmasked m /\
     map (fun r => r !! 2%nat) (rows Examples.extra_visit_matrix)
     = replicate (count_unmasked m) (Some Num.one)) /\
  (exists m,
     mask Examples.extra_visit = Some m /\
     (0 < shape1 Examples.extra_visit_all_matrix)%nat /\
     length (rows Examples.extra_visit_all_matrix) = count_unmasked m /\
     map (fun r => r !! 0%nat) (rows Examples.extra_visit_all_matrix)
     = replicate (count_unmasked m) (Some Num.one)).
Proof.
  split.
  - apply (constant_column_is_ones (H := Examples.table_library)
             Examples.extra_visit Examples.extra_visit_matrix 2).
    left. exists false. split; [vm_compute; reflexivity | reflexivity].
  - apply (constant_column_is_ones (H := Examples.table_library)
             Examples.extra_visit Examples.extra_visit_all_matrix 0).
    right. exists 1%nat, false, Examples.extra_visit_all_names.
    split; [vm_compute; reflexivity | reflexivity].
Defined.

(** Had the column of ones gone through [normalize], it would be NaN. *)
Lemma normalize_ones (n : nat) :
  (0 < n)%nat -> normalize (np_ones n) = OK (replicate n NaN).
Proof.
  intros Hn. destruct n as [|n]; [lia|].
  pose proof (normalize_constant (replicate (S n) 1)) as Hc.
  assert (Hmap : forall k, map Fin (replicate k 1) = np_ones k).
  { induction k as [|k IH]; simpl; [reflexivity|]. unfold np_ones in *. simpl.
    now rewrite IH. }
  rewrite Hmap, length_replicate in Hc. apply Hc; [discriminate|].
  intros x y Hx Hy. apply list_elem_of_In, elem_of_replicate in Hx as [-> _].
  apply list_elem_of_In, elem_of_replicate in Hy as [-> _]. reflexivity.
Qed.

(** ** The columns of the all-regressors builder *)

Lemma stacked_vstack n cols X names (more : list (string * vec)) Y :
  stacked n cols X names ->
  np_vstack (X :: map A1 (map snd more)) = OK Y ->
  stacked n (cols ++ more) (A2 Y) (names ++ map fst more).
Proof.
  intros (HX & Hn & Hall) Hr.
  apply (vstack_vectors X (map snd more) n (map snd cols)) in Hr as [Hlen ->];
    [|exact HX].
  split; [|split].
  - simpl. now rewrite List.map_app.
  - now rewrite Hn, List.map_app.
  - apply Forall_app. split; [exact Hall|].
    clear - Hlen. induction more as [|c more IH]; [constructor|].
    simpl in Hlen. apply Forall_cons in Hlen as [Hc Hm].
    constructor; [exact Hc | now apply IH].
Qed.

Lemma vstack_onto_total (rest : list ndarray) : forall X,
  Forall (fun Z => shape1 Z = shape1 X) rest -> exists Y, vstack_onto X rest = OK Y.
Proof.
  induction rest as [|Z rest IH]; intros X Hall; simpl.
  - now exists X.
  - apply Forall_cons in Hall as [HZ Hall]. rewrite <- HZ, Nat.eqb_refl.
    apply IH. simpl. rewrite HZ. eapply Forall_impl; [exact Hall|].
    intros W HW. simpl in HW. congruence.
Qed.

Section AllRegressors.
Context `{Library}.

Lemma harmonic_step_stacked lc norm n cols X names i st' :
  stacked n cols X names ->
  harmonic_step lc norm (X, names) i = OK st' ->
  exists pair, is_harmonic_pair lc norm (S i) pair /\
               stacked n (cols ++ pair) (fst st') (snd st').
Proof.
  intros Hst Hr. unfold harmonic_step in Hr.
  inv_bind Hr as roll Hroll. inv_bind Hr as sin1 Hsin. inv_bind Hr as cos1 Hcos.
  inv_bind Hr as X1 HX1. inv_bind Hr as X2 HX2. injection Hr as <-. simpl.
  rewrite Nat.add_1_r in *.
  exists [("sin" +:+ str (S i), sin1); ("cos" +:+ str (S i), cos1)]. split.
  - exists roll, sin1, cos1. auto.
  - pose proof (stacked_vstack n cols X names [("sin" +:+ str (S i), sin1)] X1
                  Hst HX1) as Hs1.
    pose proof (stacked_vstack n _ (A2 X1) _ [("cos" +:+ str (S i), cos1)] X2
                  Hs1 HX2) as Hs2.
    rewrite <- !app_assoc in Hs2. exact Hs2.
Qed.

Lemma harmonic_loop_stacked lc norm n (l : list nat) : forall cols X names st',
  stacked n cols X names ->
  foldM_result (harmonic_step lc norm) (X, names) l = OK st' ->
  exists pairs, Forall2 (is_harmonic_pair lc norm) (map S l) pairs /\
                stacked n (cols ++ concat pairs) (fst st') (snd st').
Proof.
  induction l as [|i l IH]; intros cols X names st' Hst Hr; simpl in Hr.
  - injection Hr as <-. exists []. split; [constructor|].
    simpl. now rewrite app_nil_r.
  - inv_bind Hr as st1 H1.
    destruct (harmonic_step_stacked lc norm n cols X names i st1 Hst H1)
      as (pair & Hpair & Hst1).
    destruct st1 as [X1 names1].
    destruct (IH _ _ _ _ Hst1 Hr) as (pairs & Hpairs & Hst').
    exists (pair :: pairs). split; [now constructor|].
    simpl. now rewrite app_assoc.
Qed.

End AllRegressors.

Lemma centroid_vectors_OK lc xc yc bg :
  centroid_vectors lc = OK (xc, yc, bg) -> centroid_resolved lc xc yc bg.
Proof.
  unfold centroid_vectors, centroid_resolved, attr, getattr.
  destruct (vectors lc !! "centroid_x") as [x|]; cbn [mbind result_bind try_except];
    [destruct (vectors lc !! "centroid_y") as [y|]; cbn [mbind result_bind try_except];
     [destruct (vectors lc !! "background") as [b|]; cbn [mbind result_bind try_except]|]|].
  1: { intros [= <- <- <-]. left. auto. }
  all: intros Hr; inv_bind Hr as x' Hx'; inv_bind Hr as y' Hy'; inv_bind Hr as b' Hb';
    injection Hr as <- <- <-; right; split; [|now rewrite Hx', Hy', Hb'].
  - right; right; reflexivity.
  - right; left; reflexivity.
  - left; reflexivity.
Qed.

Lemma try_pair_stacked lc norm n n1 n2 l1 l2 cols X names :
  stacked n cols (A2 X) names ->
  exists os,
    optional_columns lc norm n n1 n2 l1 l2 os /\
    stacked n (cols ++ os) (A2 (fst (try_pair lc norm n1 n2 l1 l2 (X, names))))
      (snd (try_pair lc norm n1 n2 l1 l2 (X, names))).
Proof.
  intros Hst. unfold try_pair. simpl fst. simpl snd.
  destruct (attr lc n1 ≫= _) as [st'|e] eqn:Hr.
  - inv_bind Hr as v1 Hv1. inv_bind Hr as w1 Hw1. inv_bind Hr as v2 Hv2.
    inv_bind Hr as w2 Hw2. inv_bind Hr as X' HX'. injection Hr as <-. simpl.
    pose proof (stacked_vstack n cols (A2 X) names [(l1, w1); (l2, w2)] X' Hst HX')
      as Hst'.
    exists [(l1, w1); (l2, w2)]. split; [|exact Hst'].
    left. exists w1, w2. split; [|reflexivity].
    destruct Hst' as (_ & _ & Hall). apply Forall_app in Hall as [_ Hall].
    apply Forall_cons in Hall as [L1 Hall]. apply Forall_cons in Hall as [L2 _].
    exists v1, v2. auto 10.
  - exists []. rewrite app_nil_r. split; [|exact Hst].
    right. split; [reflexivity|].
    intros w1 w2 (v1 & v2 & Hv1 & Hv2 & Hw1 & Hw2 & L1 & L2).
    rewrite Hv1 in Hr. cbn [mbind result_bind] in Hr.
    rewrite Hw1 in Hr. cbn [mbind result_bind] in Hr.
    rewrite Hv2 in Hr. cbn [mbind result_bind] in Hr.
    rewrite Hw2 in Hr. cbn [mbind result_bind] in Hr.
    destruct Hst as (HX & _ & _). simpl in HX.
    destruct (vstack_onto_total [atleast_2d (A1 w1); atleast_2d (A1 w2)] X) as [Y HY].
    { rewrite HX. simpl. repeat constructor; simpl; assumption. }
    change (np_vstack [A2 X; A1 w1; A1 w2])
      with (vstack_onto X [atleast_2d (A1 w1); atleast_2d (A1 w2)]) in Hr.
    rewrite HY in Hr. discriminate.
Qed.

Lemma map_fst_zip {A B : Type} (l : list A) : forall (k : list B),
  length l = length k -> map fst (zip l k) = l.
Proof.
  induction l as [|x l IH]; intros [|y k] E; simpl in E; try discriminate; [reflexivity|].
  simpl. f_equal. apply IH. congruence.
Qed.

Lemma map_snd_zip {A B : Type} (l : list A) : forall (k : list B),
  length l = length k -> map snd (zip l k) = k.
Proof.
  induction l as [|x l IH]; intros [|y k] E; simpl in E; try discriminate; [reflexivity|].
  simpl. f_equal. apply IH. congruence.
Qed.

Lemma column0_length (M : ndarray) (col : vec) :
  column0 M = OK col -> length col = length (rows M).
Proof.
  unfold column0. destruct (shape1 M); [discriminate|].
  intros [= <-]. apply length_map'.
Qed.

(** C6, as the code has it.  When the all-regressors builder returns, its
    matrix is the unmasked rows of the matrix whose columns are, in this
    order and with the names in the same order: the column of ones; for each
    harmonic index 1..H the sine and then the cosine of the index times the
    roll angle; xc, yc, x2, y2, xy, bg from the centroid and background under
    the DRP names when all three are there and under the PIPE names otherwise;
    the contamination and smearing columns when available; then, whether or
    not those were added, the u1 and u2 columns when available; then the
    extra basis vectors as extra1, extra2, ...  With normalisation, each
    column but the first is normalised on its own. *)
Theorem design_matrix_all_column_order `{Library} (lc : CheopsLightCurve) (harmonics : nat)
    (norm : bool) (X : ndarray) (names : list string) :
  extra_wf (extra_basis_vectors lc) ->
  design_matrix_all lc harmonics norm = OK (X, names) ->
  exists bjd m cols,
    attr lc "bjd_time" = OK bjd /\ mask lc = Some m /\
    all_columns lc harmonics norm (length bjd) (extra_basis_vectors lc) cols /\
    names = map fst cols /\
    Forall (fun c => length (snd c) = length bjd) cols /\
    rows_unmasked m (matrix_of_columns (length bjd) (map snd cols)) = OK X.
Proof.
  intros Hwf Hr. unfold design_matrix_all in Hr.
  inv_bind Hr as bjd Hbjd. inv_bind Hr as st Hst. destruct st as [X0 names0].
  inv_bind Hr as cen Hcen. destruct cen as [[xc yc] bg].
  inv_bind Hr as nxc Hnxc. inv_bind Hr as nyc Hnyc. inv_bind Hr as nx2 Hnx2.
  inv_bind Hr as ny2 Hny2. inv_bind Hr as xy Hxy. inv_bind Hr as nxy Hnxy.
  inv_bind Hr as nbg Hnbg. inv_bind Hr as X1 HX1.
  cbv zeta in Hr. set (n := length bjd) in *.
  (* the loop over the harmonics *)
  assert (Hinit : stacked n [("ones", np_ones n)] (A1 (np_ones n)) ["ones"]).
  { split; [|split; [reflexivity|]].
    - unfold columns_array, np_ones; simpl. now rewrite length_replicate.
    - repeat constructor. simpl. apply length_replicate. }
  destruct (harmonic_loop_stacked lc norm n (seq 0 harmonics) _ _ _ _ Hinit Hst)
    as (pairs & Hpairs & Hst0).
  rewrite seq_shift in Hpairs. simpl fst in Hst0. simpl snd in Hst0.
  (* the centroid and background columns *)
  set (cs := [("xc", nxc); ("yc", nyc); ("x2", nx2); ("y2", ny2); ("xy", nxy); ("bg", nbg)]).
  pose proof (stacked_vstack n _ X0 names0 cs X1 Hst0 HX1) as Hst1.
  assert (Hcs : centroid_columns lc norm cs).
  { exists xc, yc, bg, xy, nxc, nyc, nx2, ny2, nxy, nbg.
    split; [now apply centroid_vectors_OK|]. auto 10. }
  (* the two optional groups *)
  change (names0 ++ ["xc"; "yc"; "x2"; "y2"; "xy"; "bg"]) with (names0 ++ map fst cs) in Hr.
  destruct (try_pair_stacked lc norm n "conta_lc" "smearing_lc" "contamination" "smearing"
              _ X1 _ Hst1) as (o1 & Ho1 & Hst2).
  destruct (try_pair lc norm "conta_lc" "smearing_lc" "contamination" "smearing"
              (X1, names0 ++ map fst cs)) as [X2 names2].
  simpl fst in Hst2. simpl snd in Hst2.
  destruct (try_pair_stacked lc norm n "u1" "u2" "u1" "u2" _ X2 _ Hst2)
    as (o2 & Ho2 & Hst3).
  destruct (try_pair lc norm "u1" "u2" "u1" "u2" (X2, names2)) as [X3 names3].
  simpl fst in Hst3, Hr. simpl snd in Hst3, Hr.
  destruct Hst3 as (HX3 & Hnames3 & Hall3). simpl in HX3. subst X3.
  rewrite <- !app_assoc in Hall3, Hnames3.
  set (cols3 := [("ones", np_ones n)] ++ concat pairs ++ cs ++ o1 ++ o2) in *.
  assert (Hcols3 : forall es, exists pairs' cs' o1' o2',
             Forall2 (is_harmonic_pair lc norm) (seq 1 harmonics) pairs' /\
             centroid_columns lc norm cs' /\
             optional_columns lc norm n "conta_lc" "smearing_lc" "contamination" "smearing" o1' /\
             optional_columns lc norm n "u1" "u2" "u1" "u2" o2' /\
             cols3 ++ es = ("ones", np_ones n) :: concat pairs' ++ cs' ++ o1' ++ o2' ++ es).
  { intros es. exists pairs, cs, o1, o2. repeat (split; [assumption|]).
    subst cols3. rewrite <- !app_assoc. reflexivity. }
  assert (Hvs3 : Forall (fun v => length v = n) (map snd cols3)).
  { clear - Hall3. induction cols3 as [|c l IH]; [constructor|].
    apply Forall_cons in Hall3 as [Hc Hl]. constructor; [exact Hc | now apply IH]. }
  destruct (extra_basis_vectors lc) as [E|] eqn:HE.
  - (* with extra basis vectors *)
    inv_bind Hr as X4 HX4. inv_bind Hr as col Hcol. inv_bind Hr as m Hm.
    inv_bind Hr as Xm HXm. injection Hr as <- <-.
    destruct E as [v|M]; [discriminate|].
    unfold append_extra in HX4. inv_bind HX4 as Xe HXe. injection HX4 as <-.
    rewrite <- !app_assoc in HXe. fold cols3 in HXe.
    rewrite transpose_involutive in HXe by exact Hvs3.
    destruct Hwf as [Hwf0 Hwf1].
    apply vstack_array in HXe as [HM ->]; [|exact Hwf0].
    apply column0_length in Hcol.
    unfold mask_array in Hm. destruct (mask lc) as [m'|] eqn:Hmask; [|discriminate].
    injection Hm as ->.
    exists bjd, m, (cols3 ++ extra_columns (Some (A2 M))).
    split; [exact Hbjd|]. split; [reflexivity|]. split; [apply Hcols3|].
    assert (Hlen : length (map (fun i => "extra" +:+ str (i + 1)) (seq 0 (length (rows M))))
                   = length (rows M)) by now rewrite length_map', length_seq.
    split; [|split].
    + unfold extra_columns. rewrite Hnames3, List.map_app, map_fst_zip, Hcol by exact Hlen.
      reflexivity.
    + apply Forall_app. split; [exact Hall3|]. unfold extra_columns.
      apply List.Forall_forall. intros c Hc. fold n. rewrite <- HM.
      apply (proj1 (List.Forall_forall _ _) Hwf1 (snd c)).
      rewrite <- (map_snd_zip _ (rows M) Hlen). apply in_map, Hc.
    + unfold extra_columns, matrix_of_columns.
      rewrite List.map_app, map_snd_zip by exact Hlen. exact HXm.
  - (* without *)
    inv_bind Hr as m Hm. inv_bind Hr as Xm HXm. injection Hr as <- <-.
    unfold mask_array in Hm. destruct (mask lc) as [m'|] eqn:Hmask; [|discriminate].
    injection Hm as ->.
    exists bjd, m, (cols3 ++ extra_columns None).
    split; [exact Hbjd|]. split; [reflexivity|]. split; [apply Hcols3|].
    unfold extra_columns. rewrite app_nil_r.
    split; [exact Hnames3|]. split; [exact Hall3|].
    rewrite <- !app_assoc in HXm. exact HXm.
Qed.

Lemma design_matrix_all_column_order_witness :
  exists bjd m cols,
    attr Examples.extra_visit "bjd_time" = OK bjd /\ mask Examples.extra_visit = Some m /\
    all_columns (H := Examples.table_library) Examples.extra_visit 1 false (length bjd)
      (extra_basis_vectors Examples.extra_visit) cols /\
    Examples.extra_visit_all_names = map fst cols /\
    Forall (fun c => length (snd c) = length bjd) cols /\
    rows_unmasked m (matrix_of_columns (length bjd) (map snd cols))
    = OK Examples.extra_visit_all_matrix.
Proof.
  apply (design_matrix_all_column_order (H := Examples.table_library)
           Examples.extra_visit 1 false).
  - split; [reflexivity | repeat constructor].
  - vm_compute. reflexivity.
Defined.

(** C6 as claimed fails on a visit that has the contamination and smearing
    vectors and the u1 and u2 vectors: the builder adds both groups, not the
    first alone. *)
Lemma design_matrix_all_adds_both_groups :
  exists X,
    design_matrix_all (H := Examples.table_library) Examples.full_visit 0 false
    = OK (X, ["ones"; "xc"; "yc"; "x2"; "y2"; "xy"; "bg";
              "contamination"; "smearing"; "u1"; "u2"]) /\
    shape1 X = 11%nat.
Proof. eexists. split; [vm_compute; reflexivity | reflexivity]. Qed.

(** ** The joint design matrix *)

Lemma vstack_onto_eq (rest : list ndarray) (X : ndarray) :
  Forall (fun Z => shape1 Z = shape1 X) rest ->
  vstack_onto X rest
  = OK (mk_ndarray (shape0 X + sum_list (map shape0 rest)) (shape1 X)
          (rows X ++ concat (map rows rest))).
Proof.
  intros Hall. destruct (vstack_onto_total rest X Hall) as [Y HY].
  rewrite HY. f_equal. now apply vstack_onto_OK in HY as [_ ->].
Qed.

Lemma sum_list_app' (l k : list nat) : sum_list (l ++ k) = (sum_list l + sum_list k)%nat.
Proof. induction l as [|x l IH]; simpl; [reflexivity | rewrite IH; lia]. Qed.

Lemma sum_list_split (rs : list nat) (k r : nat) :
  rs !! k = Some r ->
  sum_list rs = (sum_list (take k rs) + r + sum_list (drop (S k) rs))%nat.
Proof.
  intros Hk. rewrite <- (take_drop_middle rs k r Hk) at 1.
  rewrite sum_list_app'. simpl. lia.
Qed.

Lemma padded_block_OK (rs : list nat) (c k : nat) (D : ndarray) :
  rs !! k = Some (shape0 D) -> shape1 D = c -> length (rows D) = shape0 D ->
  padded_block rs c k D = OK (padded rs c k D).
Proof.
  intros Hk Hc Hlen. unfold padded_block, padded.
  rewrite (sum_list_split rs k _ Hk), Nat.add_1_r.
  destruct (take k rs) as [|b bs]; destruct (drop (S k) rs) as [|a a's];
    cbn [length Nat.ltb Nat.leb omap list_omap id map];
    unfold np_vstack; cbn [map atleast_2d];
    (rewrite vstack_onto_eq by (repeat constructor; simpl; congruence));
    f_equal; unfold np_zeros; simpl; rewrite ?app_nil_r, ?Nat.add_0_r;
    f_equal; try congruence; lia.
Qed.

Lemma padded_blocks_OK (rs : list nat) (c : nat) (Ds : list ndarray) : forall (g : nat -> nat),
  (forall k D, Ds !! k = Some D ->
     rs !! g k = Some (shape0 D) /\ shape1 D = c /\ length (rows D) = shape0 D) ->
  mapM_result (fun '(i, D) => padded_block rs c i D) (imap (fun i D => (g i, D)) Ds)
  = OK (imap (fun i D => padded rs c (g i) D) Ds).
Proof.
  induction Ds as [|D Ds IH]; intros g Hg; [reflexivity|].
  simpl. destruct (Hg 0%nat D eq_refl) as (H1 & H2 & H3).
  rewrite (padded_block_OK rs c (g 0%nat) D H1 H2 H3). cbn [mbind result_bind].
  assert (IH' := IH (g ∘ S) (fun k D' Hk => Hg (S k) D' Hk)).
  unfold compose in IH'. unfold compose. rewrite IH'. reflexivity.
Qed.

Lemma hstack_onto_OK (rest : list ndarray) : forall X,
  length (rows X) = shape0 X ->
  Forall (fun Z => shape0 Z = shape0 X /\ length (rows Z) = shape0 Z) rest ->
  exists J, hstack_onto X rest = OK J /\
    shape0 J = shape0 X /\
    shape1 J = (shape1 X + sum_list (map shape1 rest))%nat /\
    length (rows J) = shape0 X /\
    forall i, (i < shape0 X)%nat -> rows J !! i = Some (joined_row (X :: rest) i).
Proof.
  induction rest as [|Z rest IH]; intros X HX Hall; simpl.
  - exists X. split; [reflexivity|]. split; [reflexivity|]. split; [simpl; lia|].
    split; [exact HX|]. intros i Hi. unfold joined_row. simpl.
    rewrite <- HX in Hi. destruct (lookup_lt_is_Some_2 _ _ Hi) as [xi Hxi].
    rewrite Hxi. simpl. now rewrite app_nil_r.
  - apply Forall_cons in Hall as [[HZ0 HZl] Hall]. rewrite <- HZ0, Nat.eqb_refl.
    set (XZ := mk_ndarray (shape0 Z) (shape1 X + shape1 Z) (zip_with app (rows X) (rows Z))).
    assert (HXZ : length (rows XZ) = shape0 XZ).
    { subst XZ; simpl. rewrite length_zip_with. lia. }
    destruct (IH XZ HXZ) as (J & HJ & J0 & J1 & Jl & Jrow).
    { eapply Forall_impl; [exact Hall|]. simpl. intros W [HW0 HWl]. split; congruence. }
    exists J. split; [exact HJ|]. simpl in *. split; [congruence|]. split; [lia|].
    split; [congruence|]. intros i Hi. rewrite Jrow by lia.
    unfold joined_row. simpl. rewrite app_assoc. f_equal.
    rewrite lookup_zip_with.
    assert (Hix : (i < length (rows X))%nat) by lia.
    assert (Hiz : (i < length (rows Z))%nat) by lia.
    destruct (lookup_lt_is_Some_2 _ _ Hix) as [xi ->].
    destruct (lookup_lt_is_Some_2 _ _ Hiz) as [zi ->]. reflexivity.
Qed.

Lemma lookup_concat_uniform (c : nat) (zs : list (list num)) : forall k z j,
  Forall (fun z => length z = c) zs ->
  zs !! k = Some z -> (j < c)%nat -> concat zs !! (k * c + j)%nat = z !! j.
Proof.
  induction zs as [|y zs IH]; intros k z j Hall Hk Hj; [discriminate|].
  apply Forall_cons in Hall as [Hy Hall]. destruct k as [|k]; simpl in *.
  - injection Hk as ->. apply lookup_app_l. lia.
  - rewrite lookup_app_r by lia. rewrite <- (IH k z j Hall Hk Hj). f_equal. lia.
Qed.

Lemma lookup_padded_row (rs : list nat) (c k : nat) (D : ndarray) (i : nat) :
  length (rows D) = shape0 D ->
  rows (padded rs c k D) !! i =
    if decide (i < sum_list (take k rs))%nat then Some (replicate c Num.zero)
    else if decide (i < sum_list (take k rs) + shape0 D)%nat
         then rows D !! (i - sum_list (take k rs))%nat
         else if decide (i < sum_list (take k rs) + shape0 D
                             + sum_list (drop (S k) rs))%nat
              then Some (replicate c Num.zero) else None.
Proof.
  intros Hlen. unfold padded. simpl.
  set (pre := sum_list (take k rs)). set (post := sum_list (drop (S k) rs)).
  repeat case_decide.
  - rewrite lookup_app_l by (rewrite length_replicate; lia).
    apply lookup_replicate_2. lia.
  - rewrite lookup_app_r by (rewrite length_replicate; lia).
    rewrite length_replicate. apply lookup_app_l. lia.
  - rewrite lookup_app_r by (rewrite length_replicate; lia).
    rewrite length_replicate, lookup_app_r by lia.
    apply lookup_replicate_2. lia.
  - apply lookup_ge_None. rewrite !length_app, !length_replicate. lia.
Qed.

Lemma padded_rows_length (rs : list nat) (c k : nat) (D : ndarray) :
  rs !! k = Some (shape0 D) -> length (rows D) = shape0 D ->
  length (rows (padded rs c k D)) = sum_list rs.
Proof.
  intros Hk Hlen. unfold padded; simpl.
  rewrite !length_app, !length_replicate, Hlen, (sum_list_split rs k _ Hk). lia.
Qed.

Lemma padded_row_width (rs : list nat) (c k : nat) (D : ndarray) (i : nat) :
  rs !! k = Some (shape0 D) -> wf_ndarray D -> shape1 D = c -> (i < sum_list rs)%nat ->
  exists z, rows (padded rs c k D) !! i = Some z /\ length z = c.
Proof.
  intros Hk [Hlen Hrows] Hc Hi. rewrite (lookup_padded_row rs c k D i Hlen).
  rewrite (sum_list_split rs k _ Hk) in Hi.
  repeat case_decide; try lia.
  - eexists. split; [reflexivity | apply length_replicate].
  - assert (Hlt : (i - sum_list (take k rs) < length (rows D))%nat) by lia.
    destruct (lookup_lt_is_Some_2 _ _ Hlt) as [z Hz]. exists z. split; [exact Hz|].
    rewrite <- Hc. eapply (proj1 (List.Forall_forall _ _) Hrows).
    apply list_elem_of_In. eapply list_elem_of_lookup_2, Hz.
  - eexists. split; [reflexivity | apply length_replicate].
Qed.

Lemma per_visit_lookup rs c Ds k D :
  per_visit rs c Ds -> Ds !! k = Some D ->
  rs !! k = Some (shape0 D) /\ shape1 D = c /\ wf_ndarray D.
Proof.
  intros Hpv Hk. destruct (Forall2_lookup_l _ _ _ _ _ Hpv Hk) as (r & Hr & H0 & H1 & Hwf).
  subst r. auto.
Qed.

(** The rows of the block-padded matrix: row [i] is row [i] of every padded
    block, side by side. *)
Lemma joined_padded_row rs c Ds i :
  per_visit rs c Ds -> (i < sum_list rs)%nat ->
  exists zs,
    joined_row (imap (fun k D => padded rs c k D) Ds) i = concat zs /\
    Forall (fun z => length z = c) zs /\ length zs = length Ds /\
    forall k D, Ds !! k = Some D -> zs !! k = rows (padded rs c k D) !! i.
Proof.
  intros Hpv Hi. unfold joined_row.
  exists (map (fun P => default [] (rows P !! i)) (imap (fun k D => padded rs c k D) Ds)).
  split; [reflexivity|]. split; [|split].
  - apply List.Forall_forall. intros z Hz.
    apply in_map_iff in Hz as (P & <- & HP).
    apply list_elem_of_In, list_elem_of_lookup in HP as [k HP].
    rewrite list_lookup_imap in HP.
    destruct (Ds !! k) as [D|] eqn:HD; [|discriminate]. injection HP as <-.
    destruct (per_visit_lookup rs c Ds k D Hpv HD) as (Hk & Hc & Hwf).
    destruct (padded_row_width rs c k D i Hk Hwf Hc Hi) as (z & Hz1 & Hz2).
    cbv beta. rewrite Hz1. exact Hz2.
  - now rewrite length_map', length_imap.
  - intros k D HD. rewrite map_is_fmap, list_lookup_fmap, list_lookup_imap, HD.
    destruct (per_visit_lookup rs c Ds k D Hpv HD) as (Hk & Hc & Hwf).
    destruct (padded_row_width rs c k D i Hk Hwf Hc Hi) as (z & Hz1 & Hz2).
    change (Some (default [] (rows (padded rs c k D) !! i)) = rows (padded rs c k D) !! i).
    now rewrite Hz1.
Qed.

Lemma np_hstack_OK (Ps : list ndarray) (R : nat) :
  Ps <> [] ->
  Forall (fun P => shape0 P = R /\ length (rows P) = R) Ps ->
  exists J, np_hstack Ps = OK J /\
    shape0 J = R /\ shape1 J = sum_list (map shape1 Ps) /\ length (rows J) = R /\
    forall i, (i < R)%nat -> rows J !! i = Some (joined_row Ps i).
Proof.
  destruct Ps as [|X rest]; [congruence|]. intros _ Hall.
  apply Forall_cons in Hall as [[HX0 HXl] Hall]. subst R.
  destruct (hstack_onto_OK rest X) as (J & HJ & J0 & J1 & Jl & Jrow).
  - congruence.
  - eapply Forall_impl; [exact Hall|]. simpl. intros Z [HZ0 HZl]. split; congruence.
  - exists J. simpl. auto.
Qed.

Lemma padded_blocks_shape (rs : list nat) (c : nat) (Ds : list ndarray) :
  per_visit rs c Ds ->
  Forall (fun P => shape0 P = sum_list rs /\ length (rows P) = sum_list rs)
    (imap (fun k D => padded rs c k D) Ds) /\
  sum_list (map shape1 (imap (fun k D => padded rs c k D) Ds)) = (length Ds * c)%nat.
Proof.
  intros Hpv. split.
  - apply List.Forall_forall. intros P HP.
    apply list_elem_of_In, list_elem_of_lookup in HP as [k HP].
    rewrite list_lookup_imap in HP.
    destruct (Ds !! k) as [D|] eqn:HD; [|discriminate]. injection HP as <-.
    destruct (per_visit_lookup rs c Ds k D Hpv HD) as (Hk & Hc & [Hlen _]).
    split; [reflexivity | now apply padded_rows_length].
  - clear Hpv.
    assert (Hgen : forall (g : nat -> ndarray -> ndarray),
               (forall k D, shape1 (g k D) = c) ->
               sum_list (map shape1 (imap g Ds)) = (length Ds * c)%nat).
    { clear. induction Ds as [|D Ds IH]; intros g Hg; [reflexivity|].
      simpl. rewrite Hg, (IH (g ∘ S)); [lia|]. intros k D'. apply Hg. }
    apply Hgen. reflexivity.
Qed.

(** C4.  For a joint object whose visits have [rs] unmasked samples and a
    non-empty list of per-visit design matrices, one per visit, each with as
    many rows as its visit has unmasked samples and all with [c] columns:
    the assembler returns a matrix of shape (sum of [rs]) x (N c) in which
    block [k] is visit [k]'s matrix, at rows from the sum of the counts of the
    visits before it and at columns from [k c], and every entry outside the
    blocks is zero. *)
Theorem combined_design_matrix_blocks `{Library} (self : JointLightCurve)
    (rs : list nat) (c : nat) (Ds : list ndarray) (norm : bool) :
  _pad_shapes self = OK rs ->
  Ds <> [] ->
  per_visit rs c Ds ->
  exists J,
    combined_design_matrix self (Some Ds) norm = OK J /\
    shape0 J = sum_list rs /\ shape1 J = (length Ds * c)%nat /\
    length (rows J) = sum_list rs /\
    (forall k D i j, Ds !! k = Some D -> (i < shape0 D)%nat -> (j < c)%nat ->
       entry J (sum_list (take k rs) + i) (k * c + j) = entry D i j) /\
    (forall i j, (i < sum_list rs)%nat -> (j < length Ds * c)%nat ->
       (forall k, ~ ((sum_list (take k rs) <= i < sum_list (take (S k) rs))%nat /\
                     (k * c <= j < (k + 1) * c)%nat)) ->
       entry J i j = Some Num.zero).
Proof.
  intros Hpad Hne Hpv.
  destruct (padded_blocks_shape rs c Ds Hpv) as [Hshape Hwidth].
  destruct (np_hstack_OK (imap (fun k D => padded rs c k D) Ds) (sum_list rs))
    as (J & HJ & J0 & J1 & Jl & Jrow).
  { destruct Ds; [congruence | discriminate]. }
  { exact Hshape. }
  exists J. split; [|split; [exact J0|split; [congruence|split; [exact Jl|split]]]].
  - unfold combined_design_matrix. cbn [mbind result_bind]. rewrite Hpad.
    cbn [mbind result_bind].
    destruct Ds as [|D0 Ds'] eqn:EDs; [congruence|]. cbn [mbind result_bind].
    rewrite <- EDs in *.
    assert (Hc0 : shape1 D0 = c).
    { destruct (per_visit_lookup rs c Ds 0 D0 Hpv) as (_ & Hc0 & _);
        [now rewrite EDs | exact Hc0]. }
    rewrite Hc0.
    rewrite (padded_blocks_OK rs c Ds (fun i => i)).
    + cbn [mbind result_bind]. exact HJ.
    + intros k D HD. destruct (per_visit_lookup rs c Ds k D Hpv HD) as (Hk & Hc & [Hl _]).
      auto.
  - (* the blocks *)
    intros k D i j HD Hi Hj.
    destruct (per_visit_lookup rs c Ds k D Hpv HD) as (Hk & Hc & [Hlen Hrows]).
    assert (Hrow : (sum_list (take k rs) + i < sum_list rs)%nat).
    { rewrite (sum_list_split rs k _ Hk). lia. }
    destruct (joined_padded_row rs c Ds _ Hpv Hrow) as (zs & Hzs & Hall & Hlz & Hz).
    unfold entry. rewrite (Jrow _ Hrow), Hzs. cbn [mbind option_bind].
    specialize (Hz k D HD). rewrite (lookup_padded_row rs c k D _ Hlen) in Hz.
    repeat case_decide; try lia.
    replace (sum_list (take k rs) + i - sum_list (take k rs))%nat with i in Hz by lia.
    assert (Hi' : (i < length (rows D))%nat) by lia.
    destruct (lookup_lt_is_Some_2 _ _ Hi') as [row Hrow'].
    rewrite Hrow' in Hz |- *. cbn [mbind option_bind].
    now apply (lookup_concat_uniform c zs k row j Hall Hz Hj).
  - (* the zeros *)
    intros i j Hi Hj Hout.
    destruct (joined_padded_row rs c Ds i Hpv Hi) as (zs & Hzs & Hall & Hlz & Hz).
    unfold entry. rewrite (Jrow _ Hi), Hzs. cbn [mbind option_bind].
    assert (Hc : (0 < c)%nat) by (destruct c; [lia | lia]).
    set (k := (j / c)%nat). set (j' := (j mod c)%nat).
    assert (Hj' : (j' < c)%nat) by (apply Nat.mod_upper_bound; lia).
    assert (Hjk : j = (k * c + j')%nat).
    { subst k j'. rewrite (Nat.div_mod_eq j c) at 1. lia. }
    assert (Hk : (k < length Ds)%nat).
    { subst k. apply Nat.Div0.div_lt_upper_bound. lia. }
    destruct (lookup_lt_is_Some_2 _ _ Hk) as [D HD].
    destruct (per_visit_lookup rs c Ds k D Hpv HD) as (Hrk & HcD & [Hlen Hrows]).
    specialize (Hz k D HD). rewrite (lookup_padded_row rs c k D _ Hlen) in Hz.
    assert (Htake : sum_list (take (S k) rs) = (sum_list (take k rs) + shape0 D)%nat).
    { rewrite (take_S_r rs k _ Hrk), sum_list_app'. simpl. lia. }
    specialize (Hout k). rewrite Htake in Hout.
    rewrite (sum_list_split rs k _ Hrk) in Hi.
    rewrite Hjk.
    repeat case_decide; try lia.
    + rewrite (lookup_concat_uniform c zs k _ j' Hall Hz Hj').
      apply lookup_replicate_2. exact Hj'.
    + rewrite (lookup_concat_uniform c zs k _ j' Hall Hz Hj').
      apply lookup_replicate_2. exact Hj'.
Qed.

Lemma combined_design_matrix_blocks_witness :
  exists J,
    combined_design_matrix (H := Examples.table_library) Examples.joint
      (Some [Examples.block0; Examples.block1]) true = OK J /\
    shape0 J = sum_list [4; 3]%nat /\ shape1 J = (2 * 2)%nat /\
    length (rows J) = sum_list [4; 3]%nat /\
    (forall k D i j, [Examples.block0; Examples.block1] !! k = Some D ->
       (i < shape0 D)%nat -> (j < 2)%nat ->
       entry J (sum_list (take k [4; 3]%nat) + i) (k * 2 + j) = entry D i j) /\
    (forall i j, (i < sum_list [4; 3]%nat)%nat -> (j < 2 * 2)%nat ->
       (forall k, ~ ((sum_list (take k [4; 3]%nat) <= i
                      < sum_list (take (S k) [4; 3]%nat))%nat /\
                     (k * 2 <= j < (k + 1) * 2)%nat)) ->
       entry J i j = Some Num.zero).
Proof.
  apply (combined_design_matrix_blocks (H := Examples.table_library) Examples.joint
           [4; 3]%nat 2 [Examples.block0; Examples.block1] true).
  - vm_compute. reflexivity.
  - discriminate.
  - repeat constructor.
Defined.

Example combined_design_matrix_example :
  combined_design_matrix (H := Examples.table_library) Examples.joint
    (Some [Examples.block0; Examples.block1]) true
  = OK (mk_ndarray 7 4
          [ [Fin 1; Fin 2; Fin 0; Fin 0];
            [Fin 3; Fin 4; Fin 0; Fin 0];
            [Fin 5; Fin 6; Fin 0; Fin 0];
            [Fin 7; Fin 8; Fin 0; Fin 0];
            [Fin 0; Fin 0; Fin 9; Fin 10];
            [Fin 0; Fin 0; Fin 11; Fin 12];
            [Fin 0; Fin 0; Fin 13; Fin 14] ]).
Proof. vm_compute. reflexivity. Qed.

(** * Further properties *)

(** ** More on normalisation *)

Lemma normalize_OK_length (v r : vec) : normalize v = OK r -> length r = length v.
Proof.
  unfold normalize. intros Hr. inv_bind Hr as lo Hlo. inv_bind Hr as range Hrange.
  injection Hr as <-. apply length_map'.
Qed.

(** X1.  [normalize] raises on the empty array, with [ValueError], and on
    nothing else: whatever the entries (NaN, infinite, all equal), an array
    with an entry gives an array of the same length. *)
Theorem normalize_raises_iff_empty (v : vec) :
  (v = [] -> normalize v = Raise ValueError) /\
  (v <> [] -> exists r, normalize v = OK r /\ length r = length v).
Proof.
  split.
  - intros ->. reflexivity.
  - intros Hne. destruct v as [|x xs]; [congruence|].
    eexists. split; [reflexivity|]. simpl. now rewrite length_map'.
Qed.

Lemma normalize_raises_iff_empty_witness :
  normalize [] = Raise ValueError /\
  exists r, normalize [Fin 1; NaN; PInf] = OK r /\ length r = 3%nat.
Proof.
  split.
  - apply (proj1 (normalize_raises_iff_empty [])). reflexivity.
  - apply (proj2 (normalize_raises_iff_empty [Fin 1; NaN; PInf])). discriminate.
Defined.

Lemma not_constant_spread (qs : list Q) lo hi :
  ~ constant qs -> In lo qs -> In hi qs ->
  (forall q, In q qs -> lo <= q) -> (forall q, In q qs -> q <= hi) -> lo < hi.
Proof.
  intros Hnc Hlo Hhi Hmin Hmax.
  destruct (constant_or_spread qs lo hi Hlo Hhi Hmin Hmax) as [[Hlt _]|[_ Hc]];
    [exact Hlt | contradiction].
Qed.

Lemma not_constant_nonempty (qs : list Q) : ~ constant qs -> qs <> [].
Proof. intros Hnc ->. apply Hnc. intros x y []. Qed.

(** X2.  Normalising twice is normalising once: on a column of finite
    numbers that is not constant, the normalised column is left as it is by
    a second normalisation. *)
Theorem normalize_idempotent (qs : list Q) :
  ~ constant qs ->
  exists r r2,
    normalize (map Fin qs) = OK (map Fin r) /\
    normalize (map Fin r) = OK (map Fin r2) /\
    Forall2 Qeq r r2.
Proof.
  intros Hnc.
  destruct (normalize_spread qs Hnc) as (r & lo & hi & Hr & Hlo & Hhi & Elo & Ehi).
  assert (Hlt : lo < hi) by lra.
  exists r, (map (rescale lo hi) r). split; [exact Hr|].
  split; [now apply normalize_fin|].
  apply Forall2_map_r. intros x _. unfold rescale. rewrite Elo, Ehi. field.
Qed.

Lemma normalize_idempotent_witness :
  exists r r2,
    normalize (map Fin [1; 3; 2]) = OK (map Fin r) /\
    normalize (map Fin r) = OK (map Fin r2) /\
    Forall2 Qeq r r2.
Proof.
  apply (normalize_idempotent [1; 3; 2]).
  intros Hc. assert (E : 1 == 3) by (apply Hc; simpl; auto). discriminate E.
Defined.

(** X3.  The normalised column does not depend on the unit or the zero
    point of the vector: for [a > 0], normalising [a v + b] gives what
    normalising [v] gives (on a column of finite numbers that is not
    constant). *)
Theorem normalize_affine_invariant (qs : list Q) (a b : Q) :
  0 < a -> ~ constant qs ->
  exists r r',
    normalize (map Fin qs) = OK (map Fin r) /\
    normalize (map Fin (map (fun x => a * x + b) qs)) = OK (map Fin r') /\
    Forall2 Qeq r r'.
Proof.
  intros Ha Hnc.
  pose proof (not_constant_nonempty qs Hnc) as Hne.
  destruct (vmin_fin qs Hne) as (lo & Hlo & Hlo_in & Hmin).
  destruct (vmax_fin qs Hne) as (hi & Hhi & Hhi_in & Hmax).
  pose proof (not_constant_spread qs lo hi Hnc Hlo_in Hhi_in Hmin Hmax) as Hlt.
  set (f := fun x => a * x + b).
  assert (Hne' : map f qs <> []) by (destruct qs; [congruence | discriminate]).
  destruct (vmin_fin (map f qs) Hne') as (lo' & Hlo' & Hlo'_in & Hmin').
  destruct (vmax_fin (map f qs) Hne') as (hi' & Hhi' & Hhi'_in & Hmax').
  apply in_map_iff in Hlo'_in as (x0 & <- & Hx0).
  apply in_map_iff in Hhi'_in as (x1 & <- & Hx1).
  assert (E0 : f x0 == a * lo + b).
  { pose proof (Hmin' _ (in_map f _ _ Hlo_in)) as H1. pose proof (Hmin x0 Hx0) as H2.
    assert (0 <= a * (x0 - lo)) by (apply Qmult_le_0_compat; lra).
    assert (a * (x0 - lo) == a * x0 - a * lo) by ring.
    unfold f in *. cbv beta in *. lra. }
  assert (E1 : f x1 == a * hi + b).
  { pose proof (Hmax' _ (in_map f _ _ Hhi_in)) as H1. pose proof (Hmax x1 Hx1) as H2.
    assert (0 <= a * (hi - x1)) by (apply Qmult_le_0_compat; lra).
    assert (a * (hi - x1) == a * hi - a * x1) by ring.
    unfold f in *. cbv beta in *. lra. }
  assert (Hlt' : f x0 < f x1).
  { assert (0 < a * (hi - lo)) by (apply Qmult_lt_0_compat; lra).
    assert (a * (hi - lo) == a * hi - a * lo) by ring. rewrite E0, E1. lra. }
  exists (map (rescale lo hi) qs), (map (rescale (f x0) (f x1)) (map f qs)).
  split; [now apply normalize_fin|]. split; [now apply normalize_fin|].
  assert (Hprod : 0 < a * (hi - lo)) by (apply Qmult_lt_0_compat; lra).
  assert (Hring : a * (hi - lo) == a * hi - a * lo) by ring.
  rewrite List.map_map. clear - Ha Hlt E0 E1 Hprod Hring.
  induction qs as [|x qs IH]; simpl; constructor; [|exact IH].
  unfold rescale. rewrite E0, E1. unfold f. field. split; lra.
Qed.

Lemma normalize_affine_invariant_witness :
  exists r r',
    normalize (map Fin [1; 3; 2]) = OK (map Fin r) /\
    normalize (map Fin (map (fun x => 10 * x + 5) [1; 3; 2])) = OK (map Fin r') /\
    Forall2 Qeq r r'.
Proof.
  apply (normalize_affine_invariant [1; 3; 2] 10 5); [reflexivity|].
  intros Hc. assert (E : 1 == 3) by (apply Hc; simpl; auto). discriminate E.
Defined.

(** ** The constructor of a light curve *)

(** X4.  The constructor sets none but vocabulary attributes: whatever the
    columns of the record array and the arguments, every vector attribute of
    the constructed light curve bears one of the 24 names of [attrs]. *)
Theorem init_sets_only_vocabulary `{Library} record_array extra mask_arg norm lc
    (k : string) :
  CheopsLightCurve_init record_array extra mask_arg norm = OK lc ->
  is_Some (vectors lc !! k) ->
  k ∈ attrs.
Proof.
  intros Hr Hk.
  destruct (init_OK_inv _ _ _ _ _ Hr) as (vs & m & _ & _ & _ & _ & _ & _ & _ & Hv).
  now apply Hv.
Qed.

Lemma init_sets_only_vocabulary_witness : "flux" ∈ attrs.
Proof.
  apply (init_sets_only_vocabulary (H := Examples.table_library)
           (Some Examples.columns) None None false Examples.full_visit "flux").
  - vm_compute. reflexivity.
  - vm_compute. eauto.
Defined.

Lemma upper_vocabulary_rstrip (key : string) :
  key ∈ attrs -> rstrip (upper key) = upper key.
Proof.
  intros Hk.
  assert (Hall : Forall (fun k => rstrip (upper k) = upper k) attrs).
  { unfold attrs. simpl app. repeat constructor. }
  rewrite Forall_forall in Hall. apply Hall, Hk.
Qed.

Lemma init_Raise_load `{Library} (cols : list (string * vec)) extra mask_arg norm (e : exn) :
  load_vectors (Some cols) = Raise e ->
  CheopsLightCurve_init (Some cols) extra mask_arg norm = Raise KeyError.
Proof.
  intros Hload. unfold CheopsLightCurve_init. rewrite Hload. cbn [mbind result_bind].
  f_equal. unfold load_vectors in Hload. eapply load_loop_Raise, Hload.
Qed.

(** X5.  What the constructor loads.  A vocabulary attribute other than the
    flux pair and the roll angle (and the flux pair too when the constructor
    is told not to normalise) is what [self.recs[KEY]] gives for the name in
    upper case: the column named exactly so if there is one, and otherwise
    the one column whose name is that ignoring case and trailing blanks.  The
    attribute is absent exactly when no column name is the key in lower case.
    When a column name is the key in lower case and the lookup does not
    return (several columns match ignoring case and none exactly), the
    constructor raises [KeyError]. *)
Theorem init_loads_columns `{Library} (cols : list (string * vec)) extra mask_arg norm
    (key : string) :
  key ∈ attrs -> key <> "roll_angle" ->
  norm = false \/ (key <> "flux" /\ key <> "fluxerr") ->
  (forall lc, CheopsLightCurve_init (Some cols) extra mask_arg norm = OK lc ->
     ((key ∈ map (fun c => lower (fst c)) cols) ->
      exists v, recs_getitem cols (upper key) = OK v /\ vectors lc !! key = Some v) /\
     ((key ∉ map (fun c => lower (fst c)) cols) -> vectors lc !! key = None) /\
     (forall v, vectors lc !! key = Some v ->
        match List.find (fun c => String.eqb (fst c) (upper key)) cols with
        | Some c => v = snd c
        | None => exists c, folded_matches cols (upper key) = [c] /\ v = snd c
        end)) /\
  ((key ∈ map (fun c => lower (fst c)) cols) ->
   (forall v, recs_getitem cols (upper key) <> OK v) ->
   CheopsLightCurve_init (Some cols) extra mask_arg norm = Raise KeyError).
Proof.
  intros Hk Hra Hn. split.
  - intros lc Hr.
    destruct (init_OK_inv _ _ _ _ _ Hr)
      as (vs & m & Hload & _ & _ & _ & _ & Hsame & Hother & _).
    assert (E : vectors lc !! key = vs !! key).
    { destruct Hn as [->|[H1 H2]]; [now rewrite Hsame by auto | now apply Hother]. }
    destruct (load_vectors_key cols vs key Hload Hk Hra) as [Hin Hout].
    rewrite E. split; [exact Hin|]. split; [exact Hout|].
    intros v Hv.
    destruct (decide (key ∈ map (fun c => lower (fst c)) cols)) as [Hmem|Hmem];
      [|rewrite (Hout Hmem) in Hv; discriminate].
    destruct (Hin Hmem) as (v' & Hget & Hv'). rewrite Hv in Hv'. injection Hv' as <-.
    unfold recs_getitem in Hget. rewrite (upper_vocabulary_rstrip key Hk) in Hget.
    destruct (List.find _ cols) as [c|]; [now injection Hget|].
    destruct (folded_matches cols (upper key)) as [|c [|c' l]]; try discriminate.
    exists c. split; [reflexivity | now injection Hget].
  - intros Hmem Hfail.
    destruct (load_vectors (Some cols)) as [vs|e] eqn:Hload.
    + destruct (load_vectors_key cols vs key Hload Hk Hra) as [Hin _].
      destruct (Hin Hmem) as (v & Hget & _). now destruct (Hfail v).
    + eapply init_Raise_load, Hload.
Qed.

Lemma init_loads_columns_witness :
  (forall lc,
     CheopsLightCurve_init (H := Examples.table_library)
       (Some [("flux", [Fin 1; Fin 2]); ("FLUX", [Fin 3; Fin 4])]) None None false = OK lc ->
     (("flux" ∈ map (fun c => lower (fst c))
                  [("flux", [Fin 1; Fin 2]); ("FLUX", [Fin 3; Fin 4])]) ->
      exists v, recs_getitem [("flux", [Fin 1; Fin 2]); ("FLUX", [Fin 3; Fin 4])]
                  (upper "flux") = OK v /\ vectors lc !! "flux" = Some v) /\
     (("flux" ∉ map (fun c => lower (fst c))
                  [("flux", [Fin 1; Fin 2]); ("FLUX", [Fin 3; Fin 4])]) ->
      vectors lc !! "flux" = None) /\
     (forall v, vectors lc !! "flux" = Some v ->
        match List.find (fun c => String.eqb (fst c) (upper "flux"))
                [("flux", [Fin 1; Fin 2]); ("FLUX", [Fin 3; Fin 4])] with
        | Some c => v = snd c
        | None => exists c, folded_matches [("flux", [Fin 1; Fin 2]); ("FLUX", [Fin 3; Fin 4])]
                              (upper "flux") = [c] /\ v = snd c
        end)) /\
  (("flux" ∈ map (fun c => lower (fst c))
               [("flux", [Fin 1; Fin 2]); ("FLUX", [Fin 3; Fin 4])]) ->
   (forall v, recs_getitem [("flux", [Fin 1; Fin 2]); ("FLUX", [Fin 3; Fin 4])]
                (upper "flux") <> OK v) ->
   CheopsLightCurve_init (H := Examples.table_library)
     (Some [("flux", [Fin 1; Fin 2]); ("FLUX", [Fin 3; Fin 4])]) None None false
   = Raise KeyError).
Proof.
  apply (init_loads_columns (H := Examples.table_library)
           [("flux", [Fin 1; Fin 2]); ("FLUX", [Fin 3; Fin 4])] None None false "flux").
  - refine (bool_decide_unpack ("flux" ∈ attrs) _). vm_compute. exact I.
  - discriminate.
  - left. reflexivity.
Defined.

(** The two cases of the lookup on concrete records: of two columns flux and
    FLUX the constructor loads the one named exactly FLUX; with Flux and fLUX
    it raises [KeyError]. *)
Example init_exact_name_first :
  (lc ← CheopsLightCurve_init (H := Examples.table_library)
          (Some [("flux", [Fin 1; Fin 2]); ("FLUX", [Fin 3; Fin 4])]) None None false;
   mret (vectors lc !! "flux"))
  = OK (Some [Fin 3; Fin 4]) /\
  CheopsLightCurve_init (H := Examples.table_library)
    (Some [("Flux", [Fin 1; Fin 2]); ("fLUX", [Fin 3; Fin 4])]) None None false
  = Raise KeyError.
Proof. split; vm_compute; reflexivity. Qed.

Section RollAngle.
Context (cols : list (string * vec)).

Lemma load_key_roll_keeps vs k vs' v :
  vs !! "roll_angle" = Some v -> recs_getitem cols "roll" = OK v -> k <> "roll_angle" ->
  load_key cols vs k = OK vs' -> vs' !! "roll_angle" = Some v.
Proof.
  intros Hvs Hroll Hk Hr.
  destruct (load_key_OK _ _ _ _ Hr)
    as [(_ & v' & _ & ->)|[(_ & _ & v' & Hv' & ->)|(_ & _ & ->)]].
  - now rewrite lookup_insert_ne by congruence.
  - rewrite Hroll in Hv'. injection Hv' as <-. apply lookup_insert_eq.
  - exact Hvs.
Qed.

Lemma load_key_roll_sets vs k vs' :
  k ∉ map (fun c => lower (fst c)) cols -> "roll" ∈ map (fun c => lower (fst c)) cols ->
  load_key cols vs k = OK vs' ->
  exists v, recs_getitem cols "roll" = OK v /\ vs' !! "roll_angle" = Some v.
Proof.
  intros Hk Hin Hr.
  destruct (load_key_OK _ _ _ _ Hr)
    as [(Hk' & _)|[(_ & _ & v & Hv & ->)|(_ & Hnin & _)]]; try contradiction.
  exists v. split; [exact Hv | apply lookup_insert_eq].
Qed.

Lemma load_loop_roll_keeps (l : list string) v : forall vs vs',
  "roll_angle" ∉ l -> recs_getitem cols "roll" = OK v ->
  vs !! "roll_angle" = Some v ->
  foldM_result (load_key cols) vs l = OK vs' -> vs' !! "roll_angle" = Some v.
Proof.
  induction l as [|k l IH]; intros vs vs' Hra Hroll Hvs Hr.
  - now injection Hr as <-.
  - simpl in Hr. inv_bind Hr as vs1 H1. apply not_elem_of_cons in Hra as [Hk Hra].
    apply (IH vs1 vs' Hra Hroll); [|exact Hr].
    eapply load_key_roll_keeps; eauto.
Qed.

Lemma load_loop_roll_sets (l : list string) : forall vs vs',
  "roll_angle" ∉ l -> "roll" ∈ map (fun c => lower (fst c)) cols ->
  Exists (fun k => k ∉ map (fun c => lower (fst c)) cols) l ->
  foldM_result (load_key cols) vs l = OK vs' ->
  exists v, recs_getitem cols "roll" = OK v /\ vs' !! "roll_angle" = Some v.
Proof.
  induction l as [|k l IH]; intros vs vs' Hra Hin Hex Hr; [inversion Hex|].
  simpl in Hr. inv_bind Hr as vs1 H1. apply not_elem_of_cons in Hra as [Hk Hra].
  apply Exists_cons in Hex as [Hmiss|Hex].
  - destruct (load_key_roll_sets vs k vs1 Hmiss Hin H1) as (v & Hv & Hvs1).
    exists v. split; [exact Hv|]. eapply load_loop_roll_keeps; eauto.
  - eapply IH; eauto.
Qed.

Lemma load_loop_without_roll (l : list string) : forall vs vs',
  "roll" ∉ map (fun c => lower (fst c)) cols -> "roll_angle" ∉ l ->
  foldM_result (load_key cols) vs l = OK vs' -> vs' !! "roll_angle" = vs !! "roll_angle".
Proof.
  induction l as [|k l IH]; intros vs vs' Hnin Hra Hr.
  - now injection Hr as <-.
  - simpl in Hr. inv_bind Hr as vs1 H1. apply not_elem_of_cons in Hra as [Hk Hra].
    rewrite (IH vs1 vs' Hnin Hra Hr).
    destruct (load_key_OK _ _ _ _ H1)
      as [(_ & v & _ & ->)|[(_ & Hin & _)|(_ & _ & ->)]]; try contradiction.
    + now rewrite lookup_insert_ne by congruence.
    + reflexivity.
Qed.

(** The loading loop, around the name of the roll angle. *)
Lemma load_vectors_around_roll (vs : gmap string vec) :
  load_vectors (Some cols) = OK vs ->
  exists vs1 vs2,
    foldM_result (load_key cols) ∅ (take 13 attrs) = OK vs1 /\
    load_key cols vs1 "roll_angle" = OK vs2 /\
    foldM_result (load_key cols) vs2 (drop 14 attrs) = OK vs.
Proof.
  unfold load_vectors. intros Hr.
  assert (E : attrs = take 13 attrs ++ "roll_angle" :: drop 14 attrs) by reflexivity.
  rewrite E in Hr at 1. rewrite foldM_result_app in Hr.
  inv_bind Hr as vs1 H1. cbn [foldM_result] in Hr. inv_bind Hr as vs2 H2.
  exists vs1, vs2. auto.
Qed.

End RollAngle.

Lemma roll_angle_not_around :
  ("roll_angle" ∉ take 13 attrs) /\ ("roll_angle" ∉ drop 14 attrs).
Proof.
  split.
  - refine (bool_decide_unpack ("roll_angle" ∉ take 13 attrs) _). vm_compute. exact I.
  - refine (bool_decide_unpack ("roll_angle" ∉ drop 14 attrs) _). vm_compute. exact I.
Qed.

(** X6.  The roll angle of the constructed light curve.  Without a column
    named roll (in lower case) it is what [self.recs['ROLL_ANGLE']] gives, or
    absent when no column name is roll_angle in lower case.  With a column
    named roll it is what [self.recs['roll']] gives whenever the record has
    no roll_angle column, and also, over a roll_angle column that is there,
    whenever the record lacks a column for one of the vocabulary names that
    follow roll_angle in [attrs] (smearing_lc, ..., bg): the loop then
    overwrites what it had loaded. *)
Theorem init_roll_angle `{Library} (cols : list (string * vec)) extra mask_arg norm lc :
  CheopsLightCurve_init (Some cols) extra mask_arg norm = OK lc ->
  (("roll" ∉ map (fun c => lower (fst c)) cols) ->
   (("roll_angle" ∈ map (fun c => lower (fst c)) cols) ->
    exists v, recs_getitem cols "ROLL_ANGLE" = OK v /\
              vectors lc !! "roll_angle" = Some v) /\
   (("roll_angle" ∉ map (fun c => lower (fst c)) cols) ->
    vectors lc !! "roll_angle" = None)) /\
  (("roll" ∈ map (fun c => lower (fst c)) cols) ->
   ("roll_angle" ∉ map (fun c => lower (fst c)) cols) \/
   Exists (fun k => k ∉ map (fun c => lower (fst c)) cols) (drop 14 attrs) ->
   exists v, recs_getitem cols "roll" = OK v /\ vectors lc !! "roll_angle" = Some v).
Proof.
  intros Hr.
  destruct (init_OK_inv _ _ _ _ _ Hr) as (vs & m & Hload & _ & _ & _ & _ & _ & Hother & _).
  rewrite Hother by discriminate.
  destruct roll_angle_not_around as (Hpre & Hpost).
  destruct (load_vectors_around_roll cols vs Hload) as (vs1 & vs2 & H1 & H2 & H3).
  split.
  - intros Hnin. rewrite (load_loop_without_roll cols _ _ _ Hnin Hpost H3).
    assert (Hvs1 : vs1 !! "roll_angle" = None).
    { rewrite (load_loop_without_roll cols _ _ _ Hnin Hpre H1). apply lookup_empty. }
    destruct (load_key_OK _ _ _ _ H2)
      as [(Hra & v & Hv & ->)|[(_ & Hin & _)|(Hra & _ & ->)]]; try contradiction.
    + split; [|contradiction]. intros _. exists v. split; [exact Hv|].
      apply lookup_insert_eq.
    + split; [contradiction|]. intros _. exact Hvs1.
  - intros Hin [Hra|Hex].
    + destruct (load_key_roll_sets cols vs1 "roll_angle" vs2 Hra Hin H2) as (v & Hv & Hvs2).
      exists v. split; [exact Hv|].
      exact (load_loop_roll_keeps cols (drop 14 attrs) v vs2 vs Hpost Hv Hvs2 H3).
    + exact (load_loop_roll_sets cols (drop 14 attrs) vs2 vs Hpost Hin Hex H3).
Qed.

Lemma init_roll_angle_witness :
  let cols := [("ROLL_ANGLE", [Fin 1]); ("ROLL", [Fin 2])] in
  let lc := mk_lc (Some cols) None {[ "roll_angle" := [Fin 2] ]} None in
  (("roll" ∉ map (fun c => lower (fst c)) cols) ->
   (("roll_angle" ∈ map (fun c => lower (fst c)) cols) ->
    exists v, recs_getitem cols "ROLL_ANGLE" = OK v /\
              vectors lc !! "roll_angle" = Some v) /\
   (("roll_angle" ∉ map (fun c => lower (fst c)) cols) ->
    vectors lc !! "roll_angle" = None)) /\
  (("roll" ∈ map (fun c => lower (fst c)) cols) ->
   ("roll_angle" ∉ map (fun c => lower (fst c)) cols) \/
   Exists (fun k => k ∉ map (fun c => lower (fst c)) cols) (drop 14 attrs) ->
   exists v, recs_getitem cols "roll" = OK v /\ vectors lc !! "roll_angle" = Some v).
Proof.
  apply (init_roll_angle (H := Examples.table_library)
           [("ROLL_ANGLE", [Fin 1]); ("ROLL", [Fin 2])] None None true).
  vm_compute. reflexivity.
Defined.

(** What the loop does with a roll column beside a roll_angle column: for a
    record with the two and nothing else, the roll angle is the roll column. *)
Example init_roll_overrides_roll_angle :
  (lc ← CheopsLightCurve_init (H := Examples.table_library)
          (Some [("ROLL_ANGLE", [Fin 1]); ("ROLL", [Fin 2])]) None None true;
   mret (vectors lc !! "roll_angle"))
  = OK (Some [Fin 2]).
Proof. vm_compute. reflexivity. Qed.

Lemma broadcast2_same_length {A B C : Type} (f : A -> B -> C) (xs : list A) (ys : list B) :
  length xs = length ys -> broadcast2 f xs ys = OK (zip_with f xs ys).
Proof. intros E. unfold broadcast2. now rewrite E, Nat.eqb_refl. Qed.

(** X7.  With a flux column the constructor computes the mask from the flux
    and the flags and does not look at its [mask] argument: two calls that
    differ in that argument only do the same.  When the call returns, the
    flux is what [self.recs['FLUX']] gives and the mask is [isnan(flux)] when
    the record lacks a status or an event column, and
    [isnan(flux) | status != 0 | event != 0], sample by sample, when it has
    both with as many entries as the flux. *)
Theorem init_mask_from_flux `{Library} (cols : list (string * vec)) extra
    (mask1 mask2 : option (list bool)) norm :
  "flux" ∈ map (fun c => lower (fst c)) cols ->
  CheopsLightCurve_init (Some cols) extra mask1 norm
  = CheopsLightCurve_init (Some cols) extra mask2 norm /\
  forall lc, CheopsLightCurve_init (Some cols) extra mask1 norm = OK lc ->
    exists flux,
      recs_getitem cols "FLUX" = OK flux /\
      (("status" ∉ map (fun c => lower (fst c)) cols) \/
       ("event" ∉ map (fun c => lower (fst c)) cols) ->
       mask lc = Some (map Num.isnan flux)) /\
      (forall status event,
         "status" ∈ map (fun c => lower (fst c)) cols ->
         "event" ∈ map (fun c => lower (fst c)) cols ->
         recs_getitem cols "STATUS" = OK status ->
         recs_getitem cols "EVENT" = OK event ->
         length status = length flux -> length event = length flux ->
         mask lc = Some (zip_with orb (zip_with orb (map Num.isnan flux)
                                         (map astype_bool status))
                           (map astype_bool event))).
Proof.
  intros Hf. split; [now apply init_ignores_mask|]. intros lc Hr.
  destruct (init_OK_inv _ _ _ _ _ Hr) as (vs & m & Hload & Hm & _ & _ & Hmask & _).
  assert (Vf : "flux" ∈ attrs)
    by (refine (bool_decide_unpack ("flux" ∈ attrs) _); vm_compute; exact I).
  assert (Vst : "status" ∈ attrs)
    by (refine (bool_decide_unpack ("status" ∈ attrs) _); vm_compute; exact I).
  assert (Vev : "event" ∈ attrs)
    by (refine (bool_decide_unpack ("event" ∈ attrs) _); vm_compute; exact I).
  destruct (load_vectors_key cols vs "flux" Hload Vf ltac:(discriminate)) as [Fin_ _].
  destruct (load_vectors_key cols vs "status" Hload Vst ltac:(discriminate)) as [Sin Sout].
  destruct (load_vectors_key cols vs "event" Hload Vev ltac:(discriminate)) as [Ein Eout].
  destruct (Fin_ Hf) as (flux & Hget & Hflux).
  exists flux. split; [exact Hget|].
  unfold default_mask in Hm. rewrite Hflux in Hm. split.
  - intros [Hs|He].
    + rewrite (Sout Hs) in Hm. injection Hm as <-. exact Hmask.
    + rewrite (Eout He) in Hm. destruct (vs !! "status"); injection Hm as <-; exact Hmask.
  - intros status event Hs He Gs Ge Ls Le.
    destruct (Sin Hs) as (status' & Gs' & Hstatus).
    destruct (Ein He) as (event' & Ge' & Hevent).
    change (upper "status") with "STATUS" in Gs'.
    change (upper "event") with "EVENT" in Ge'.
    rewrite Gs in Gs'. injection Gs' as <-. rewrite Ge in Ge'. injection Ge' as <-.
    rewrite Hstatus, Hevent in Hm.
    rewrite broadcast2_same_length in Hm by now rewrite !length_map'.
    cbn [mbind result_bind] in Hm.
    rewrite broadcast2_same_length in Hm
      by (rewrite length_zip_with, !length_map'; lia).
    injection Hm as <-. exact Hmask.
Qed.

Lemma init_mask_from_flux_witness :
  CheopsLightCurve_init (H := Examples.table_library)
    (Some [("FLUX", [Fin 1; NaN; Fin 3]); ("FLUXERR", [Fin 1; Fin 1; Fin 1])])
    None (Some [true; true; true]) false
  = CheopsLightCurve_init (H := Examples.table_library)
      (Some [("FLUX", [Fin 1; NaN; Fin 3]); ("FLUXERR", [Fin 1; Fin 1; Fin 1])])
      None None false /\
  forall lc,
    CheopsLightCurve_init (H := Examples.table_library)
      (Some [("FLUX", [Fin 1; NaN; Fin 3]); ("FLUXERR", [Fin 1; Fin 1; Fin 1])])
      None (Some [true; true; true]) false = OK lc ->
    exists flux,
      recs_getitem [("FLUX", [Fin 1; NaN; Fin 3]); ("FLUXERR", [Fin 1; Fin 1; Fin 1])]
        "FLUX" = OK flux /\
      (("status" ∉ map (fun c => lower (fst c))
                     [("FLUX", [Fin 1; NaN; Fin 3]); ("FLUXERR", [Fin 1; Fin 1; Fin 1])]) \/
       ("event" ∉ map (fun c => lower (fst c))
                    [("FLUX", [Fin 1; NaN; Fin 3]); ("FLUXERR", [Fin 1; Fin 1; Fin 1])]) ->
       mask lc = Some (map Num.isnan flux)) /\
      (forall status event,
         "status" ∈ map (fun c => lower (fst c))
                      [("FLUX", [Fin 1; NaN; Fin 3]); ("FLUXERR", [Fin 1; Fin 1; Fin 1])] ->
         "event" ∈ map (fun c => lower (fst c))
                     [("FLUX", [Fin 1; NaN; Fin 3]); ("FLUXERR", [Fin 1; Fin 1; Fin 1])] ->
         recs_getitem [("FLUX", [Fin 1; NaN; Fin 3]); ("FLUXERR", [Fin 1; Fin 1; Fin 1])]
           "STATUS" = OK status ->
         recs_getitem [("FLUX", [Fin 1; NaN; Fin 3]); ("FLUXERR", [Fin 1; Fin 1; Fin 1])]
           "EVENT" = OK event ->
         length status = length flux -> length event = length flux ->
         mask lc = Some (zip_with orb (zip_with orb (map Num.isnan flux)
                                         (map astype_bool status))
                           (map astype_bool event))).
Proof.
  apply (init_mask_from_flux (H := Examples.table_library)
           [("FLUX", [Fin 1; NaN; Fin 3]); ("FLUXERR", [Fin 1; Fin 1; Fin 1])]
           None (Some [true; true; true]) None false).
  refine (bool_decide_unpack (_ ∈ _) _). vm_compute. exact I.
Defined.



(** ** More on the masking operations *)

Lemma zip_with_orb_replicate (m : list bool) (b : bool) :
  map (fun t => t || b) m = zip_with orb m (replicate (length m) b).
Proof. induction m as [|x m IH]; simpl; [reflexivity | now rewrite IH]. Qed.

(** [target |= other] depends on the target through its length only. *)
Lemma ior_shape (m o m' : list bool) :
  ior m o = OK m' ->
  exists o', length o' = length m /\ m' = zip_with orb m o' /\
    forall m2, length m2 = length m -> ior m2 o = OK (zip_with orb m2 o').
Proof.
  unfold ior. destruct (Nat.eqb (length m) (length o)) eqn:E.
  - apply Nat.eqb_eq in E. intros [= <-]. exists o. split; [auto|]. split; [reflexivity|].
    intros m2 L2. now rewrite L2, E, Nat.eqb_refl.
  - destruct o as [|b [|? ?]]; try discriminate. intros [= <-].
    exists (replicate (length m) b). rewrite length_replicate. split; [reflexivity|].
    split; [apply zip_with_orb_replicate|].
    intros m2 L2. rewrite L2, E, <- L2. now rewrite zip_with_orb_replicate.
Qed.

Lemma zip_with_orb_idem (m : list bool) : forall o,
  zip_with orb (zip_with orb m o) o = zip_with orb m o.
Proof.
  induction m as [|x m IH]; intros [|y o]; simpl; try reflexivity.
  rewrite IH. f_equal. now destruct x, y.
Qed.

Lemma zip_with_orb_swap (m : list bool) : forall o1 o2,
  zip_with orb (zip_with orb m o1) o2 = zip_with orb (zip_with orb m o2) o1.
Proof.
  induction m as [|x m IH]; intros [|y o1] [|z o2]; simpl; try reflexivity.
  rewrite IH. f_equal. now destruct x, y, z.
Qed.

Lemma mask_ior_OK_inv (lc lc' : CheopsLightCurve) (o : list bool) :
  mask_ior lc o = OK lc' ->
  exists m m', mask lc = Some m /\ ior m o = OK m' /\ lc' = set_mask lc m'.
Proof.
  unfold mask_ior, mask_array. destruct (mask lc) as [m|]; [|discriminate].
  cbn [mbind result_bind]. destruct (ior m o) as [m'|] eqn:Hi; [|discriminate].
  cbn [mbind result_bind]. intros [= <-]. eauto.
Qed.

Lemma mask_ior_set_mask (lc : CheopsLightCurve) (m o : list bool) :
  mask_ior (set_mask lc m) o = (m' ← ior m o; mret (set_mask lc m')).
Proof. reflexivity. Qed.

Lemma mask_ior_twice (lc lc1 : CheopsLightCurve) (o : list bool) :
  mask_ior lc o = OK lc1 -> mask_ior lc1 o = OK lc1.
Proof.
  intros Hr. apply mask_ior_OK_inv in Hr as (m & m1 & Hm & Hi & ->).
  apply ior_shape in Hi as (o' & Lo & -> & Hany).
  rewrite mask_ior_set_mask, Hany by (rewrite length_zip_with; lia).
  cbn [mbind result_bind]. now rewrite zip_with_orb_idem.
Qed.

Lemma mask_ior_swap (lc a b : CheopsLightCurve) (o1 o2 : list bool) :
  mask_ior lc o1 = OK a -> mask_ior a o2 = OK b ->
  exists a', mask_ior lc o2 = OK a' /\ mask_ior a' o1 = OK b.
Proof.
  intros H1 H2. apply mask_ior_OK_inv in H1 as (m & m1 & Hm & Hi1 & ->).
  rewrite mask_ior_set_mask in H2. inv_bind H2 as m2 Hi2. injection H2 as <-.
  apply ior_shape in Hi1 as (o1' & L1 & -> & Hany1).
  apply ior_shape in Hi2 as (o2' & L2 & -> & Hany2).
  rewrite length_zip_with in L2, Hany2.
  exists (set_mask lc (zip_with orb m o2')). split.
  - unfold mask_ior, mask_array. rewrite Hm. cbn [mbind result_bind].
    rewrite Hany2 by lia. reflexivity.
  - rewrite mask_ior_set_mask, Hany1 by (rewrite length_zip_with; lia).
    cbn [mbind result_bind]. now rewrite zip_with_orb_swap.
Qed.

Section MaskIndependent.
Context `{Library}.

Lemma apply_op_outliers (lc : CheopsLightCurve) (op : mask_op) :
  mask_independent op ->
  apply_op lc op = (o ← op_outliers lc op; mask_ior lc o).
Proof.
  destruct op as [sigma| | bgmin | pl]; simpl; intros Hop; try contradiction.
  - unfold sigma_clip_centroid.
    destruct (attr lc "centroid_x") as [cx|]; [|reflexivity]. cbn [mbind result_bind].
    destruct (attr lc "centroid_y") as [cy|]; [|reflexivity]. cbn [mbind result_bind].
    destruct (broadcast2 _ _ _) as [dist|]; reflexivity.
  - unfold high_bg_clip. destruct (attr lc "bg"); reflexivity.
  - unfold mask_planetary_signal.
    destruct (transit_duration pl) as [t14|]; [|reflexivity]. cbn [mbind result_bind].
    destruct (attr lc "bjd_time"); reflexivity.
Qed.

Lemma op_outliers_set_mask (lc : CheopsLightCurve) (m : list bool) (op : mask_op) :
  op_outliers (set_mask lc m) op = op_outliers lc op.
Proof. destruct op; reflexivity. Qed.

Lemma apply_op_OK_inv (lc lc' : CheopsLightCurve) (op : mask_op) :
  mask_independent op -> apply_op lc op = OK lc' ->
  exists o m', op_outliers lc op = OK o /\ mask_ior lc o = OK lc' /\ lc' = set_mask lc m'.
Proof.
  intros Hop Hr. rewrite (apply_op_outliers lc op Hop) in Hr. inv_bind Hr as o Ho.
  destruct (mask_ior_OK_inv _ _ _ Hr) as (m & m' & _ & _ & E). eauto.
Qed.

End MaskIndependent.

(** X9.  The centroid clip, the high-background clip and the
    planetary-signal mask are idempotent: a second call with the same
    arguments changes nothing. *)
Theorem mask_independent_idempotent `{Library} (lc lc1 : CheopsLightCurve) (op : mask_op) :
  mask_independent op ->
  apply_op lc op = OK lc1 ->
  apply_op lc1 op = OK lc1.
Proof.
  intros Hop Hr. destruct (apply_op_OK_inv lc lc1 op Hop Hr) as (o & m' & Ho & Hi & E).
  rewrite (apply_op_outliers lc1 op Hop). rewrite E at 1.
  rewrite op_outliers_set_mask, Ho. cbn [mbind result_bind].
  exact (mask_ior_twice lc lc1 o Hi).
Qed.

Lemma mask_independent_idempotent_witness :
  apply_op (H := Examples.table_library)
    (set_mask Examples.full_visit [false; false; true; false]) (HighBgClip (Fin 300))
  = OK (set_mask Examples.full_visit [false; false; true; false]).
Proof.
  apply (mask_independent_idempotent (H := Examples.table_library) Examples.full_visit).
  - exact I.
  - vm_compute. reflexivity.
Defined.

(** X10.  The centroid clip, the high-background clip and the
    planetary-signal mask commute: two of them called in either order leave
    the same mask (and the second order returns whenever the first does). *)
Theorem mask_independent_commute `{Library} (lc lc2 : CheopsLightCurve) (op1 op2 : mask_op) :
  mask_independent op1 -> mask_independent op2 ->
  apply_ops lc [op1; op2] = OK lc2 ->
  apply_ops lc [op2; op1] = OK lc2.
Proof.
  intros Hop1 Hop2 Hr. unfold apply_ops in *. simpl in *.
  inv_bind Hr as a Ha. inv_bind Hr as b Hb. injection Hr as <-.
  destruct (apply_op_OK_inv lc a op1 Hop1 Ha) as (o1 & m1 & Ho1 & Hi1 & Ea).
  destruct (apply_op_OK_inv a b op2 Hop2 Hb) as (o2 & m2 & Ho2 & Hi2 & Eb).
  rewrite Ea, op_outliers_set_mask in Ho2.
  destruct (mask_ior_swap lc a b o1 o2 Hi1 Hi2) as (a' & Hs1 & Hs2).
  destruct (mask_ior_OK_inv _ _ _ Hs1) as (m & m' & _ & _ & Ea').
  rewrite (apply_op_outliers lc op2 Hop2), Ho2. cbn [mbind result_bind].
  rewrite Hs1. cbn [mbind result_bind].
  rewrite (apply_op_outliers a' op1 Hop1). rewrite Ea' at 1.
  rewrite op_outliers_set_mask, Ho1. cbn [mbind result_bind].
  rewrite Hs2. reflexivity.
Qed.

Lemma mask_independent_commute_witness :
  apply_ops (H := Examples.table_library) Examples.full_visit
    [MaskPlanetarySignal Examples.planet; HighBgClip (Fin 300)]
  = OK (set_mask Examples.full_visit [true; false; true; false]).
Proof.
  apply (mask_independent_commute (H := Examples.table_library) Examples.full_visit _
           (HighBgClip (Fin 300)) (MaskPlanetarySignal Examples.planet)).
  - exact I.
  - exact I.
  - vm_compute. reflexivity.
Defined.

Lemma select_unmasked_self (m : list bool) :
  select_unmasked m m = replicate (count_unmasked m) false.
Proof.
  unfold count_unmasked. induction m as [|b m IH]; [reflexivity|].
  destruct b; simpl; [exact IH | now rewrite IH].
Qed.

Lemma zip_with_orb_false (n : nat) : forall (v : list bool),
  length v = n -> zip_with orb (replicate n false) v = v.
Proof.
  induction n as [|n IH]; intros [|x v] E; simpl in E; try discriminate; [reflexivity|].
  simpl. f_equal. apply IH. congruence.
Qed.

Lemma select_assign_unmasked (m : list bool) : forall vals,
  length vals = count_unmasked m -> select_unmasked m (assign_unmasked m vals) = vals.
Proof.
  unfold count_unmasked. induction m as [|b m IH]; intros vals E; simpl in *.
  - now destruct vals.
  - destruct b; simpl in *; [now apply IH|].
    destruct vals as [|v vs]; [discriminate|]. simpl in E. injection E as E.
    destruct v; simpl; f_equal; now apply IH.
Qed.

Lemma count_assign_unmasked (m : list bool) : forall vals,
  length vals = count_unmasked m ->
  count_unmasked (assign_unmasked m vals) = count_unmasked vals.
Proof.
  unfold count_unmasked. induction m as [|b m IH]; intros vals E; simpl in *.
  - now destruct vals.
  - destruct b; simpl in *; [now apply IH|].
    destruct vals as [|v vs]; [discriminate|]. simpl in E. injection E as E.
    destruct v; simpl; rewrite IH by exact E; reflexivity.
Qed.

(** X11.  The flux sigma-clip hands the clipper the fluxes of the unmasked
    samples, in order, and writes its verdicts back onto those samples: when
    the clipper answers with one flag per unmasked sample, the new mask read
    at the previously unmasked samples is the clipper's answer, and the
    samples left unmasked are as many as the flags that are [False]. *)
Theorem sigma_clip_flux_writes_back `{Library} (lc : CheopsLightCurve)
    (sigma_upper sigma_lower : num) (maxiters : option nat) (m : list bool) (flux : vec) :
  mask lc = Some m ->
  vectors lc !! "flux" = Some flux ->
  length flux = length m ->
  length (sigma_clip sigma_upper sigma_lower maxiters (select_unmasked m flux))
  = count_unmasked m ->
  exists m',
    sigma_clip_flux lc sigma_upper sigma_lower maxiters = OK (set_mask lc m') /\
    select_unmasked m m'
    = sigma_clip sigma_upper sigma_lower maxiters (select_unmasked m flux) /\
    count_unmasked m'
    = count_unmasked (sigma_clip sigma_upper sigma_lower maxiters (select_unmasked m flux)).
Proof.
  intros Hm Hf Lf Lc.
  set (clipped := sigma_clip sigma_upper sigma_lower maxiters (select_unmasked m flux)) in *.
  exists (assign_unmasked m clipped). split; [|split].
  - unfold sigma_clip_flux, mask_array, attr. rewrite Hm, Hf. simpl getattr.
    cbn [mbind result_bind].
    rewrite index_unmasked_same_length by congruence. cbn [mbind result_bind].
    fold clipped. rewrite select_unmasked_self.
    rewrite ior_same_length by (rewrite length_replicate; congruence).
    cbn [mbind result_bind]. now rewrite zip_with_orb_false.
  - now apply select_assign_unmasked.
  - now apply count_assign_unmasked.
Qed.

Lemma sigma_clip_flux_writes_back_witness :
  exists m',
    sigma_clip_flux (H := Examples.table_library) Examples.extra_visit (Fin 4) (Fin 4) None
    = OK (set_mask Examples.extra_visit m') /\
    select_unmasked [false; true; false; false] m'
    = sigma_clip (Library := Examples.table_library) (Fin 4) (Fin 4) None
        (select_unmasked [false; true; false; false] [Fin 1; Fin 1; Fin 9; Fin 1]) /\
    count_unmasked m'
    = count_unmasked (sigma_clip (Library := Examples.table_library) (Fin 4) (Fin 4) None
        (select_unmasked [false; true; false; false] [Fin 1; Fin 1; Fin 9; Fin 1])).
Proof.
  apply (sigma_clip_flux_writes_back (H := Examples.table_library) Examples.extra_visit
           (Fin 4) (Fin 4) None); reflexivity.
Defined.

Lemma zip_with_orb_true (m : list bool) :
  zip_with orb m (replicate (length m) true) = replicate (length m) true.
Proof.
  induction m as [|b m IH]; simpl; [reflexivity|]. rewrite IH. now rewrite orb_true_r.
Qed.

Lemma zip_with_orb_all_false (m : list bool) :
  zip_with orb m (replicate (length m) false) = m.
Proof.
  induction m as [|b m IH]; simpl; [reflexivity|]. rewrite IH. now rewrite orb_false_r.
Qed.

Lemma planetary_signal_nan (per1 : num) : forall (phs1 phs2 : vec),
  length phs1 = length phs2 ->
  planetary_signal per1 NaN phs1 phs2 = replicate (length phs1) true.
Proof.
  unfold planetary_signal.
  induction phs1 as [|p phs1 IH]; intros [|q phs2] E; simpl in E; try discriminate;
    [reflexivity|].
  simpl. rewrite IH by congruence. reflexivity.
Qed.

Lemma centred_phase_length (tc per1 : num) (bjd : vec) :
  length (centred_phase tc per1 bjd) = length bjd.
Proof. unfold centred_phase, wrap_above. now rewrite !length_map'. Qed.

(** X12.  When the geometry gives no duration, that is when the computation
    of [t14] returns NaN (as numpy's [arcsin] does beyond 1, for an orbit that
    does not transit), the planetary-signal mask masks every sample: every
    comparison with NaN is false, and the mask is the negation of their
    conjunction.  A semi-major axis of zero is not such a case: there
    [1/ar1] raises [ZeroDivisionError] and so does the call. *)
Theorem mask_planetary_signal_nan_masks_all `{Library} (lc : CheopsLightCurve)
    (pl : Planet.t) (bjd : vec) (m : list bool) :
  vectors lc !! "bjd_time" = Some bjd ->
  mask lc = Some m -> length bjd = length m ->
  transit_duration pl = OK NaN ->
  mask_planetary_signal lc pl = OK (set_mask lc (replicate (length m) true)) /\
  ~ Num.eqv (Planet.a pl) Num.zero.
Proof.
  intros Hb Hm Hlen Hd. split.
  2: { intros Ha. unfold transit_duration in Hd.
       destruct (py_div (Planet.per pl) np_pi); [|discriminate Hd].
       cbn [mbind result_bind] in Hd.
       destruct (Planet.a pl) as [q| | |]; simpl in Ha; try contradiction.
       apply Qeq_bool_iff in Ha. unfold py_div in Hd. rewrite Ha in Hd.
       discriminate Hd. }
  unfold mask_planetary_signal, attr. rewrite Hd. cbn [mbind result_bind].
  rewrite Hb. simpl getattr.
  cbn [mbind result_bind].
  rewrite planetary_signal_nan by now rewrite !centred_phase_length.
  rewrite centred_phase_length, Hlen.
  unfold mask_ior, mask_array. rewrite Hm. cbn [mbind result_bind].
  rewrite ior_same_length by now rewrite length_replicate.
  cbn [mbind result_bind]. now rewrite zip_with_orb_true.
Qed.

Lemma in_signal_nonpositive (e p d t : Q) : d <= 0 -> in_signal e p d t = false.
Proof.
  intros Hd. unfold in_signal, Num.geb.
  assert (Hle : forall x, Num.leb (Fin d) (Fin (Qabs x)) = true).
  { intros x. apply leb_fin. pose proof (Qabs_nonneg x). lra. }
  now rewrite !Hle.
Qed.

Lemma set_mask_same (lc : CheopsLightCurve) (m : list bool) :
  mask lc = Some m -> set_mask lc m = lc.
Proof. destruct lc as [r e v k]. simpl. intros ->. reflexivity. Qed.

(** X13.  A duration that is zero or negative masks nothing: for finite
    times and epoch and a positive period, in exact arithmetic, the call
    returns the light curve as it was.  (A negative duration comes from a
    negative semi-major axis; float64 overflow in the phases is outside this
    statement.) *)
Theorem mask_planetary_signal_nonpositive `{Library} (lc : CheopsLightCurve)
    (pl : Planet.t) (ts : list Q) (m : list bool) (e p d : Q) :
  vectors lc !! "bjd_time" = Some (map Fin ts) ->
  mask lc = Some m -> length m = length ts ->
  Planet.t0 pl = Fin e -> Planet.per pl = Fin p -> 0 < p ->
  transit_duration pl = OK (Fin d) -> d <= 0 ->
  mask_planetary_signal lc pl = OK lc.
Proof.
  intros Hb Hm Hlen He Hp Hpos Hd Hd0.
  unfold mask_planetary_signal, attr. rewrite Hd. cbn [mbind result_bind].
  rewrite Hb, He, Hp. simpl getattr.
  cbn [mbind result_bind]. rewrite planetary_signal_fin by exact Hpos.
  unfold mask_ior, mask_array. rewrite Hm. cbn [mbind result_bind].
  rewrite ior_same_length by now rewrite length_map'.
  cbn [mbind result_bind]. unfold mret, result_ret. f_equal.
  rewrite <- (set_mask_same lc m Hm) at 2. f_equal.
  rewrite <- (zip_with_orb_all_false m) at 2. f_equal.
  rewrite Hlen. clear - Hd0. induction ts as [|t ts IH]; simpl; [reflexivity|].
  now rewrite IH, in_signal_nonpositive.
Qed.

Lemma mask_planetary_signal_nan_masks_all_witness :
  mask_planetary_signal (H := Examples.table_library) Examples.visit
    (Planet.mk (Fin 6) (Fin (1 # 2)) (Fin 90) (Fin 0) (Fin 0))
  = OK (set_mask Examples.visit (replicate (length [false; false; false]) true)) /\
  ~ Num.eqv (Planet.a (Planet.mk (Fin 6) (Fin (1 # 2)) (Fin 90) (Fin 0) (Fin 0))) Num.zero.
Proof.
  apply (mask_planetary_signal_nan_masks_all (H := Examples.table_library) Examples.visit
           (Planet.mk (Fin 6) (Fin (1 # 2)) (Fin 90) (Fin 0) (Fin 0))
           [Fin 0; Fin (3 # 2); Fin 3] [false; false; false]); reflexivity.
Defined.


Lemma mask_planetary_signal_nonpositive_witness :
  mask_planetary_signal (H := Examples.table_library) Examples.visit
    (Planet.mk (Fin 6) (Fin (-2)) (Fin 90) (Fin 0) (Fin 0))
  = OK Examples.visit.
Proof.
  apply (mask_planetary_signal_nonpositive (H := Examples.table_library) Examples.visit
           (Planet.mk (Fin 6) (Fin (-2)) (Fin 90) (Fin 0) (Fin 0))
           [0; 3 # 2; 3] [false; false; false] 0 6 (-240690 # 240690)).
  - vm_compute. reflexivity.
  - vm_compute. reflexivity.
  - vm_compute. reflexivity.
  - vm_compute. reflexivity.
  - vm_compute. reflexivity.
  - vm_compute. reflexivity.
  - vm_compute. reflexivity.
  - discriminate.
Defined.

(** X14.  The two clips know one naming convention each.  On a light curve
    built from a record without a column named bg, as the DRP records are,
    the high-background clip raises [AttributeError]; on one built from a
    record without a centroid_x or a centroid_y column, as the PIPE records
    are, the centroid clip raises [AttributeError].  Neither falls back to
    the other names, as the all-regressors builder does. *)
Theorem clips_know_one_naming `{Library} (cols : list (string * vec)) extra mask_arg norm
    (lc : CheopsLightCurve) (bgmin sigma : num) :
  CheopsLightCurve_init (Some cols) extra mask_arg norm = OK lc ->
  let names := map (fun c => lower (fst c)) cols in
  ("bg" ∉ names -> high_bg_clip lc bgmin = Raise AttributeError) /\
  ("centroid_x" ∉ names \/ "centroid_y" ∉ names ->
   sigma_clip_centroid lc sigma = Raise AttributeError).
Proof.
  intros Hr names.
  destruct (init_OK_inv _ _ _ _ _ Hr) as (vs & m & Hvs & _ & _ & _ & _ & _ & Hother & _).
  assert (Hload : forall key, key ∈ attrs -> key <> "roll_angle" -> key <> "flux" ->
            key <> "fluxerr" -> key ∉ names -> vectors lc !! key = None).
  { intros key Hk H1 H2 H3 Hn. rewrite Hother by assumption.
    now apply (load_vectors_key cols vs key Hvs Hk H1). }
  assert (Vbg : "bg" ∈ attrs)
    by (refine (bool_decide_unpack ("bg" ∈ attrs) _); vm_compute; exact I).
  assert (Vcx : "centroid_x" ∈ attrs)
    by (refine (bool_decide_unpack ("centroid_x" ∈ attrs) _); vm_compute; exact I).
  assert (Vcy : "centroid_y" ∈ attrs)
    by (refine (bool_decide_unpack ("centroid_y" ∈ attrs) _); vm_compute; exact I).
  split.
  - intros Hn. unfold high_bg_clip, attr.
    rewrite (Hload "bg" Vbg) by (discriminate || exact Hn). reflexivity.
  - intros [Hn|Hn]; unfold sigma_clip_centroid, attr.
    + rewrite (Hload "centroid_x" Vcx) by (discriminate || exact Hn). reflexivity.
    + rewrite (Hload "centroid_y" Vcy) by (discriminate || exact Hn).
      destruct (vectors lc !! "centroid_x"); reflexivity.
Qed.

Lemma clips_know_one_naming_witness :
  let cols := [("BACKGROUND", [Fin 1; Fin 2])] in
  let lc := mk_lc (Some cols) None {[ "background" := [Fin 1; Fin 2] ]} None in
  let names := map (fun c => lower (fst c)) cols in
  ("bg" ∉ names -> high_bg_clip lc (Fin 300) = Raise AttributeError) /\
  ("centroid_x" ∉ names \/ "centroid_y" ∉ names ->
   sigma_clip_centroid (H := Examples.table_library) lc (Fin 3) = Raise AttributeError).
Proof.
  apply (clips_know_one_naming (H := Examples.table_library)
           [("BACKGROUND", [Fin 1; Fin 2])] None None true).
  vm_compute. reflexivity.
Defined.

(** ** More on the design matrices *)

Lemma append_extra_columns (n : nat) (cols : list vec) (E : option arr) (X1 : ndarray) :
  Forall (fun v => length v = n) cols -> extra_wf E ->
  append_extra (matrix_of_columns n cols) E = OK X1 ->
  Forall (fun v => length v = n) (extra_rows E) /\
  X1 = matrix_of_columns n (cols ++ extra_rows E).
Proof.
  intros Hall Hwf Hr. unfold append_extra, matrix_of_columns in *.
  destruct E as [[v|M]|].
  - inv_bind Hr as Xe HXe. injection Hr as <-.
    rewrite transpose_involutive in HXe by exact Hall.
    apply (vstack_vectors (A2 (columns_array n cols)) [v] n cols) in HXe as [Hv ->];
      [|reflexivity].
    split; [exact Hv | reflexivity].
  - inv_bind Hr as Xe HXe. injection Hr as <-.
    rewrite transpose_involutive in HXe by exact Hall.
    destruct Hwf as [Hwf0 Hwf1].
    apply vstack_array in HXe as [HM ->]; [|exact Hwf0].
    split; [|reflexivity]. simpl. now rewrite <- HM.
  - injection Hr as <-. simpl. rewrite app_nil_r. split; [constructor | reflexivity].
Qed.

Lemma matrix_of_columns_rows (n : nat) (cols : list vec) :
  shape0 (matrix_of_columns n cols) = n /\
  shape1 (matrix_of_columns n cols) = length cols /\
  length (rows (matrix_of_columns n cols)) = n /\
  Forall (fun r => length r = length cols) (rows (matrix_of_columns n cols)).
Proof.
  unfold matrix_of_columns, transpose, columns_array; simpl.
  split; [reflexivity|]. split; [reflexivity|].
  split; [now rewrite length_map', length_seq|].
  apply List.Forall_forall. intros r Hr. apply in_map_iff in Hr as (j & <- & _).
  apply length_map'.
Qed.

Lemma design_matrix_OK_inv `{Library} (lc : CheopsLightCurve) (norm : bool) (X : ndarray) :
  design_matrix lc norm = OK X ->
  exists roll bjd m c s X1,
    attr lc "roll_angle" = OK roll /\ attr lc "bjd_time" = OK bjd /\ mask lc = Some m /\
    normalize_if norm (map (fun r => np_cos (np_radians r)) roll) = OK c /\
    normalize_if norm (map (fun r => np_sin (np_radians r)) roll) = OK s /\
    Forall (fun v => length v = length bjd) [c; s; np_ones (length bjd)] /\
    append_extra (matrix_of_columns (length bjd) [c; s; np_ones (length bjd)])
      (extra_basis_vectors lc) = OK X1 /\
    rows_unmasked m X1 = OK X.
Proof.
  intros Hr. unfold design_matrix in Hr.
  inv_bind Hr as roll Hroll. inv_bind Hr as cs Hcs. inv_bind Hr as sn Hsn.
  inv_bind Hr as bjd Hbjd. inv_bind Hr as Xt HXt. inv_bind Hr as X1 HX1.
  inv_bind Hr as m Hm. unfold mask_array in Hm.
  destruct (mask lc) as [m'|] eqn:Hmask; [|discriminate]. injection Hm as ->.
  apply (vstack_vectors (A1 cs) [sn; np_ones (length bjd)] (length cs) [cs])
    in HXt as [Hall ->]; [|reflexivity].
  assert (Hn : length cs = length bjd).
  { apply Forall_cons in Hall as [_ Hall]. apply Forall_cons in Hall as [Hones _].
    unfold np_ones in Hones. now rewrite length_replicate in Hones. }
  rewrite Hn in *.
  exists roll, bjd, m, cs, sn, X1. do 5 (split; [assumption || reflexivity|]).
  split; [constructor; [exact Hn | exact Hall]|]. split; [exact HX1 | exact Hr].
Qed.

(** X15.  The columns of the minimal builder.  When [design_matrix] returns,
    its matrix is the unmasked rows of the matrix whose columns are, in this
    order: the cosine of the roll angle, its sine (each normalised on its own
    when asked), the column of ones, and the extra basis vectors (a single
    one-dimensional vector counts as one), so it has three columns and one
    per extra vector; all these vectors have one entry per time sample. *)
Theorem design_matrix_columns `{Library} (lc : CheopsLightCurve) (norm : bool) (X : ndarray) :
  extra_wf (extra_basis_vectors lc) ->
  design_matrix lc norm = OK X ->
  exists roll bjd m c s,
    attr lc "roll_angle" = OK roll /\ attr lc "bjd_time" = OK bjd /\ mask lc = Some m /\
    normalize_if norm (map (fun r => np_cos (np_radians r)) roll) = OK c /\
    normalize_if norm (map (fun r => np_sin (np_radians r)) roll) = OK s /\
    let cols := [c; s; np_ones (length bjd)] ++ extra_rows (extra_basis_vectors lc) in
    Forall (fun v => length v = length bjd) cols /\
    rows_unmasked m (matrix_of_columns (length bjd) cols) = OK X /\
    shape1 X = (3 + length (extra_rows (extra_basis_vectors lc)))%nat /\
    Forall (fun r => length r = (3 + length (extra_rows (extra_basis_vectors lc)))%nat)
      (rows X).
Proof.
  intros Hwf Hr.
  destruct (design_matrix_OK_inv lc norm X Hr)
    as (roll & bjd & m & cs & sn & X1 & Hroll & Hbjd & Hmask & Hcs & Hsn & Hcols & HX1 & HX).
  apply append_extra_columns in HX1 as [Hex ->]; [|exact Hcols|exact Hwf].
  exists roll, bjd, m, cs, sn. do 5 (split; [assumption|]).
  cbv zeta. split; [apply Forall_app; auto|]. split; [exact HX|].
  apply rows_unmasked_OK in HX as [_ ->]. simpl.
  destruct (matrix_of_columns_rows (length bjd)
              ([cs; sn; np_ones (length bjd)] ++ extra_rows (extra_basis_vectors lc)))
    as (_ & _ & _ & Hrows).
  split; [reflexivity|]. simpl in Hrows.
  apply List.Forall_forall. intros r Hin.
  apply (proj1 (List.Forall_forall _ _) Hrows).
  apply list_elem_of_In. eapply select_unmasked_subset. apply list_elem_of_In, Hin.
Qed.

Lemma design_matrix_columns_witness :
  exists roll bjd m c s,
    attr Examples.extra_visit "roll_angle" = OK roll /\
    attr Examples.extra_visit "bjd_time" = OK bjd /\ mask Examples.extra_visit = Some m /\
    normalize_if false (map (fun r => np_cos (Library := Examples.table_library)
                                        (np_radians (Library := Examples.table_library) r)) roll) = OK c /\
    normalize_if false (map (fun r => np_sin (Library := Examples.table_library)
                                        (np_radians (Library := Examples.table_library) r)) roll) = OK s /\
    let cols := [c; s; np_ones (length bjd)]
                ++ extra_rows (extra_basis_vectors Examples.extra_visit) in
    Forall (fun v => length v = length bjd) cols /\
    rows_unmasked m (matrix_of_columns (length bjd) cols) = OK Examples.extra_visit_matrix /\
    shape1 Examples.extra_visit_matrix
    = (3 + length (extra_rows (extra_basis_vectors Examples.extra_visit)))%nat /\
    Forall (fun r => length r
                     = (3 + length (extra_rows (extra_basis_vectors Examples.extra_visit)))%nat)
      (rows Examples.extra_visit_matrix).
Proof.
  apply (design_matrix_columns (H := Examples.table_library) Examples.extra_visit false).
  - split; [reflexivity | repeat constructor].
  - vm_compute. reflexivity.
Defined.

(** The all-regressors builder keeps its columns and their names side by
    side: the form in which the next properties use it. *)
Lemma design_matrix_all_stacked `{Library} (lc : CheopsLightCurve) (harmonics : nat)
    (norm : bool) (X : ndarray) (names : list string) :
  extra_wf (extra_basis_vectors lc) ->
  design_matrix_all lc harmonics norm = OK (X, names) ->
  exists bjd m cols,
    attr lc "bjd_time" = OK bjd /\ mask lc = Some m /\
    all_columns lc harmonics norm (length bjd) (extra_basis_vectors lc) cols /\
    names = map fst cols /\
    Forall (fun c => length (snd c) = length bjd) cols /\
    rows_unmasked m (matrix_of_columns (length bjd) (map snd cols)) = OK X.
Proof.
  intros Hwf Hr. unfold design_matrix_all in Hr.
  inv_bind Hr as bjd Hbjd. inv_bind Hr as st Hst. destruct st as [X0 names0].
  inv_bind Hr as cen Hcen. destruct cen as [[xc yc] bg].
  inv_bind Hr as nxc Hnxc. inv_bind Hr as nyc Hnyc. inv_bind Hr as nx2 Hnx2.
  inv_bind Hr as ny2 Hny2. inv_bind Hr as xy Hxy. inv_bind Hr as nxy Hnxy.
  inv_bind Hr as nbg Hnbg. inv_bind Hr as X1 HX1.
  cbv zeta in Hr. set (n := length bjd) in *.
  (* the loop over the harmonics *)
  assert (Hinit : stacked n [("ones", np_ones n)] (A1 (np_ones n)) ["ones"]).
  { split; [|split; [reflexivity|]].
    - unfold columns_array, np_ones; simpl. now rewrite length_replicate.
    - repeat constructor. simpl. apply length_replicate. }
  destruct (harmonic_loop_stacked lc norm n (seq 0 harmonics) _ _ _ _ Hinit Hst)
    as (pairs & Hpairs & Hst0).
  rewrite seq_shift in Hpairs. simpl fst in Hst0. simpl snd in Hst0.
  (* the centroid and background columns *)
  set (cs := [("xc", nxc); ("yc", nyc); ("x2", nx2); ("y2", ny2); ("xy", nxy); ("bg", nbg)]).
  pose proof (stacked_vstack n _ X0 names0 cs X1 Hst0 HX1) as Hst1.
  assert (Hcs : centroid_columns lc norm cs).
  { exists xc, yc, bg, xy, nxc, nyc, nx2, ny2, nxy, nbg.
    split; [now apply centroid_vectors_OK|]. auto 10. }
  (* the two optional groups *)
  change (names0 ++ ["xc"; "yc"; "x2"; "y2"; "xy"; "bg"]) with (names0 ++ map fst cs) in Hr.
  destruct (try_pair_stacked lc norm n "conta_lc" "smearing_lc" "contamination" "smearing"
              _ X1 _ Hst1) as (o1 & Ho1 & Hst2).
  destruct (try_pair lc norm "conta_lc" "smearing_lc" "contamination" "smearing"
              (X1, names0 ++ map fst cs)) as [X2 names2].
  simpl fst in Hst2. simpl snd in Hst2.
  destruct (try_pair_stacked lc norm n "u1" "u2" "u1" "u2" _ X2 _ Hst2)
    as (o2 & Ho2 & Hst3).
  destruct (try_pair lc norm "u1" "u2" "u1" "u2" (X2, names2)) as [X3 names3].
  simpl fst in Hst3, Hr. simpl snd in Hst3, Hr.
  destruct Hst3 as (HX3 & Hnames3 & Hall3). simpl in HX3. subst X3.
  rewrite <- !app_assoc in Hall3, Hnames3.
  set (cols3 := [("ones", np_ones n)] ++ concat pairs ++ cs ++ o1 ++ o2) in *.
  assert (Hcols3 : forall es, exists pairs' cs' o1' o2',
             Forall2 (is_harmonic_pair lc norm) (seq 1 harmonics) pairs' /\
             centroid_columns lc norm cs' /\
             optional_columns lc norm n "conta_lc" "smearing_lc" "contamination" "smearing" o1' /\
             optional_columns lc norm n "u1" "u2" "u1" "u2" o2' /\
             cols3 ++ es = ("ones", np_ones n) :: concat pairs' ++ cs' ++ o1' ++ o2' ++ es).
  { intros es. exists pairs, cs, o1, o2. repeat (split; [assumption|]).
    subst cols3. rewrite <- !app_assoc. reflexivity. }
  assert (Hvs3 : Forall (fun v => length v = n) (map snd cols3)).
  { clear - Hall3. induction cols3 as [|c l IH]; [constructor|].
    apply Forall_cons in Hall3 as [Hc Hl]. constructor; [exact Hc | now apply IH]. }
  destruct (extra_basis_vectors lc) as [E|] eqn:HE.
  - (* with extra basis vectors *)
    inv_bind Hr as X4 HX4. inv_bind Hr as col Hcol. inv_bind Hr as m Hm.
    inv_bind Hr as Xm HXm. injection Hr as <- <-.
    destruct E as [v|M]; [discriminate|].
    unfold append_extra in HX4. inv_bind HX4 as Xe HXe. injection HX4 as <-.
    rewrite <- !app_assoc in HXe. fold cols3 in HXe.
    rewrite transpose_involutive in HXe by exact Hvs3.
    destruct Hwf as [Hwf0 Hwf1].
    apply vstack_array in HXe as [HM ->]; [|exact Hwf0].
    apply column0_length in Hcol.
    unfold mask_array in Hm. destruct (mask lc) as [m'|] eqn:Hmask; [|discriminate].
    injection Hm as ->.
    exists bjd, m, (cols3 ++ extra_columns (Some (A2 M))).
    split; [exact Hbjd|]. split; [reflexivity|]. split; [apply Hcols3|].
    assert (Hlen : length (map (fun i => "extra" +:+ str (i + 1)) (seq 0 (length (rows M))))
                   = length (rows M)) by now rewrite length_map', length_seq.
    split; [|split].
    + unfold extra_columns. rewrite Hnames3, List.map_app, map_fst_zip, Hcol by exact Hlen.
      reflexivity.
    + apply Forall_app. split; [exact Hall3|]. unfold extra_columns.
      apply List.Forall_forall. intros c Hc. fold n. rewrite <- HM.
      apply (proj1 (List.Forall_forall _ _) Hwf1 (snd c)).
      rewrite <- (map_snd_zip _ (rows M) Hlen). apply in_map, Hc.
    + unfold extra_columns, matrix_of_columns.
      rewrite List.map_app, map_snd_zip by exact Hlen. exact HXm.
  - (* without *)
    inv_bind Hr as m Hm. inv_bind Hr as Xm HXm. injection Hr as <- <-.
    unfold mask_array in Hm. destruct (mask lc) as [m'|] eqn:Hmask; [|discriminate].
    injection Hm as ->.
    exists bjd, m, (cols3 ++ extra_columns None).
    split; [exact Hbjd|]. split; [reflexivity|]. split; [apply Hcols3|].
    unfold extra_columns. rewrite app_nil_r.
    split; [exact Hnames3|]. split; [exact Hall3|].
    rewrite <- !app_assoc in HXm. exact HXm.
Qed.

Lemma harmonic_pairs_length `{Library} lc norm (l : list nat) (pairs : list (list (string * vec))) :
  Forall2 (is_harmonic_pair lc norm) l pairs ->
  (length (concat pairs) = 2 * length l)%nat.
Proof.
  induction 1 as [|k pair l pairs (roll & s & c & _ & _ & _ & ->) _ IH]; [reflexivity|].
  simpl. rewrite IH. lia.
Qed.

Lemma optional_columns_length lc norm n n1 n2 l1 l2 os :
  optional_columns lc norm n n1 n2 l1 l2 os -> (length os = 0)%nat \/ (length os = 2)%nat.
Proof. intros [(w1 & w2 & _ & ->)|[-> _]]; [right | left]; reflexivity. Qed.

Lemma extra_columns_length (E : option arr) (r : ndarray * list string) `{Library} lc h norm :
  extra_basis_vectors lc = E -> design_matrix_all lc h norm = OK r ->
  (length (extra_columns E) = length (extra_rows E))%nat.
Proof.
  intros HE Hr. destruct E as [[v|M]|]; [exfalso| |reflexivity].
  - unfold design_matrix_all in Hr.
    inv_bind Hr as bjd Hbjd. inv_bind Hr as st Hst. destruct st as [X0 names0].
    inv_bind Hr as cen Hcen. destruct cen as [[xc yc] bg].
    inv_bind Hr as nxc Hnxc. inv_bind Hr as nyc Hnyc. inv_bind Hr as nx2 Hnx2.
    inv_bind Hr as ny2 Hny2. inv_bind Hr as xy Hxy. inv_bind Hr as nxy Hnxy.
    inv_bind Hr as nbg Hnbg. inv_bind Hr as X1 HX1.
    cbv zeta in Hr. rewrite HE in Hr.
    inv_bind Hr as X4 HX4. discriminate.
  - simpl. rewrite length_zip, length_map', length_seq. lia.
Qed.

(** X16.  Names and columns of the all-regressors builder agree in number.
    When [design_matrix_all] returns a matrix and its list of names, the
    matrix has exactly one column per name, in every row, and their number is
    7 (the constant, xc, yc, x2, y2, xy, bg) plus two per harmonic, plus two
    for each of the optional groups present (none, one or both), plus one
    per extra basis vector. *)
Theorem design_matrix_all_names_count `{Library} (lc : CheopsLightCurve) (harmonics : nat)
    (norm : bool) (X : ndarray) (names : list string) :
  extra_wf (extra_basis_vectors lc) ->
  design_matrix_all lc harmonics norm = OK (X, names) ->
  (shape1 X = length names)%nat /\
  Forall (fun r => (length r = length names)%nat) (rows X) /\
  exists groups, (groups <= 2)%nat /\
    (length names
     = 7 + 2 * harmonics + 2 * groups + length (extra_rows (extra_basis_vectors lc)))%nat.
Proof.
  intros Hwf Hr.
  pose proof (extra_columns_length _ _ lc harmonics norm eq_refl Hr) as Hextra.
  destruct (design_matrix_all_stacked lc harmonics norm X names Hwf Hr)
    as (bjd & m & cols & Hbjd & Hmask & Hcols & -> & Hall & HX).
  rewrite !length_map'.
  apply rows_unmasked_OK in HX as [_ ->]. simpl.
  destruct (matrix_of_columns_rows (length bjd) (map snd cols)) as (_ & _ & _ & Hrows).
  rewrite length_map' in Hrows.
  split; [apply length_map'|]. split.
  - apply List.Forall_forall. intros r Hin.
    apply (proj1 (List.Forall_forall _ _) Hrows).
    apply list_elem_of_In. eapply select_unmasked_subset. apply list_elem_of_In, Hin.
  - destruct Hcols as (pairs & cs & o1 & o2 & Hpairs & Hcs & Ho1 & Ho2 & ->).
    apply harmonic_pairs_length in Hpairs. rewrite length_seq in Hpairs.
    destruct Hcs as (xc & yc & bg & xy & nxc & nyc & nx2 & ny2 & nxy & nbg & _ & _ & _ & _
                     & _ & _ & _ & _ & ->).
    apply optional_columns_length in Ho1, Ho2.
    rewrite length_cons, !length_app, Hpairs, Hextra. cbn [length].
    destruct Ho1 as [-> | ->], Ho2 as [-> | ->].
    + exists 0%nat. lia.
    + exists 1%nat. lia.
    + exists 1%nat. lia.
    + exists 2%nat. lia.
Qed.

Lemma design_matrix_all_names_count_witness :
  (shape1 Examples.extra_visit_all_matrix = length Examples.extra_visit_all_names)%nat /\
  Forall (fun r => (length r = length Examples.extra_visit_all_names)%nat)
    (rows Examples.extra_visit_all_matrix) /\
  exists groups, (groups <= 2)%nat /\
    (length Examples.extra_visit_all_names
    = 7 + 2 * 1 + 2 * groups
       + length (extra_rows (extra_basis_vectors Examples.extra_visit)))%nat.
Proof.
  apply (design_matrix_all_names_count (H := Examples.table_library)
           Examples.extra_visit 1 false).
  - split; [reflexivity | repeat constructor].
  - vm_compute. reflexivity.
Defined.

Lemma normalize_if_OK_length (norm : bool) (v r : vec) :
  normalize_if norm v = OK r -> length r = length v.
Proof.
  destruct norm; simpl; [apply normalize_OK_length | now intros [= <-]].
Qed.

Lemma normalize_if_returns (norm : bool) (v : vec) :
  (norm = true -> v <> []) ->
  exists r, normalize_if norm v = OK r /\ length r = length v.
Proof.
  intros Hne. destruct norm; simpl; [|now exists v].
  destruct v as [|x xs]; [now destruct Hne|].
  eexists. split; [reflexivity|]. simpl. now rewrite length_map'.
Qed.

Lemma vstack_vectors_returns (X : arr) (vs : list vec) (n : nat) (cols : list vec) :
  atleast_2d X = columns_array n cols -> Forall (fun v => length v = n) vs ->
  np_vstack (X :: map A1 vs) = OK (columns_array n (cols ++ vs)).
Proof.
  intros HX Hall.
  destruct (vstack_onto_total (map atleast_2d (map A1 vs)) (atleast_2d X)) as [Y HY].
  { rewrite HX. simpl. clear - Hall. induction Hall as [|v vs Hv _ IH]; constructor; auto. }
  change (np_vstack (X :: map A1 vs) = OK Y) in HY.
  rewrite HY. f_equal. now apply (vstack_vectors X vs n cols) in HY as [_ ->].
Qed.

Lemma append_extra_returns (n : nat) (cols : list vec) (E : option arr) :
  Forall (fun v => length v = n) cols -> extra_fits n E ->
  exists X1, append_extra (matrix_of_columns n cols) E = OK X1 /\ shape0 X1 = n.
Proof.
  intros Hall Hfit. unfold append_extra, matrix_of_columns.
  destruct E as [E|]; [|now eexists].
  rewrite transpose_involutive by exact Hall.
  destruct (vstack_onto_total [atleast_2d E] (columns_array n cols)) as [Y HY].
  { constructor; [|constructor]. destruct E; exact Hfit. }
  change (np_vstack [A2 (columns_array n cols); E] = OK Y) in HY.
  rewrite HY. cbn [mbind result_bind mret result_ret]. eexists. split; [reflexivity|].
  unfold np_vstack in HY. simpl map in HY. now apply vstack_onto_OK in HY as [_ ->].
Qed.

Lemma append_extra_fits (n : nat) (cols : list vec) (E : option arr) (X1 : ndarray) :
  Forall (fun v => length v = n) cols ->
  append_extra (matrix_of_columns n cols) E = OK X1 ->
  extra_fits n E /\ shape0 X1 = n.
Proof.
  intros Hall Hr. unfold append_extra, matrix_of_columns in Hr.
  destruct E as [E|]; [|injection Hr as <-; now split].
  inv_bind Hr as Xe HXe. injection Hr as <-.
  rewrite transpose_involutive in HXe by exact Hall.
  unfold np_vstack in HXe. simpl map in HXe.
  apply vstack_onto_OK in HXe as [HE ->]. apply Forall_cons in HE as [HE _].
  split; [destruct E; exact HE | reflexivity].
Qed.

Lemma design_matrix_defined_returns `{Library} (lc : CheopsLightCurve) (norm : bool) :
  design_matrix_defined lc norm -> exists X, design_matrix lc norm = OK X.
Proof.
  intros (roll & bjd & m & Hroll & Hbjd & Hmask & Lr & Lm & Hfit & Hne).
  unfold design_matrix. rewrite Hroll. cbn [mbind result_bind].
  destruct (normalize_if_returns norm (map (fun r => np_cos (np_radians r)) roll))
    as (c & Hc & Lc).
  { intros Hn E. apply (Hne Hn). now destruct roll. }
  destruct (normalize_if_returns norm (map (fun r => np_sin (np_radians r)) roll))
    as (s & Hs & Ls).
  { intros Hn E. apply (Hne Hn). now destruct roll. }
  rewrite length_map' in Lc, Ls.
  rewrite Hc. cbn [mbind result_bind]. rewrite Hs. cbn [mbind result_bind].
  rewrite Hbjd. cbn [mbind result_bind].
  assert (Hcols : Forall (fun v => length v = length bjd) [c; s; np_ones (length bjd)]).
  { repeat constructor; [congruence | congruence | apply length_replicate]. }
  assert (HXt : np_vstack [A1 c; A1 s; A1 (np_ones (length bjd))]
                = OK (columns_array (length bjd) [c; s; np_ones (length bjd)])).
  { apply (vstack_vectors_returns (A1 c) [s; np_ones (length bjd)] (length bjd) [c]).
    - simpl. unfold columns_array. simpl. f_equal. congruence.
    - now apply Forall_cons in Hcols as [_ Hcols]. }
  rewrite HXt. cbn [mbind result_bind].
  destruct (append_extra_returns (length bjd) [c; s; np_ones (length bjd)]
              (extra_basis_vectors lc) Hcols Hfit) as (X1 & HX1 & HS0).
  unfold matrix_of_columns in HX1. rewrite HX1. cbn [mbind result_bind].
  unfold mask_array. rewrite Hmask. cbn [mbind result_bind].
  unfold rows_unmasked. rewrite HS0, Lm, Nat.eqb_refl. now eexists.
Qed.

(** X17.  When the minimal builder returns.  [design_matrix] returns a
    matrix exactly when the light curve has roll angles and times in equal
    number, a mask array with one flag per sample, extra basis vectors (if
    any) with one entry per sample, and, when normalising, at least one
    sample; in every other case it raises. *)
Theorem design_matrix_returns_iff `{Library} (lc : CheopsLightCurve) (norm : bool) :
  (exists X, design_matrix lc norm = OK X) <-> design_matrix_defined lc norm.
Proof.
  split.
  - intros [X Hr].
    destruct (design_matrix_OK_inv lc norm X Hr)
      as (roll & bjd & m & cs & sn & X1 & Hroll & Hbjd & Hmask & Hcs & Hsn & Hcols & HX1 & HX).
    exists roll, bjd, m. do 3 (split; [assumption|]).
    pose proof (normalize_if_OK_length _ _ _ Hcs) as Lc. rewrite length_map' in Lc.
    apply append_extra_fits in HX1 as [Hfit HS0]; [|exact Hcols].
    apply rows_unmasked_OK in HX as [Hm _].
    apply Forall_cons in Hcols as [Hc _].
    split; [congruence|]. split; [congruence|]. split; [exact Hfit|].
    intros -> ->. discriminate.
  - apply design_matrix_defined_returns.
Qed.

Lemma design_matrix_returns_iff_witness :
  design_matrix_defined Examples.extra_visit false /\
  exists X, design_matrix (H := Examples.table_library) Examples.full_visit true = OK X.
Proof.
  split.
  - apply (proj1 (design_matrix_returns_iff (H := Examples.table_library)
                    Examples.extra_visit false)).
    exists Examples.extra_visit_matrix. vm_compute. reflexivity.
  - apply (proj2 (design_matrix_returns_iff (H := Examples.table_library)
                    Examples.full_visit true)).
    eexists _, _, _. split; [vm_compute; reflexivity|].
    split; [vm_compute; reflexivity|]. split; [reflexivity|].
    split; [reflexivity|]. split; [reflexivity|]. split; [exact I | discriminate].
Defined.

(** X18.  The all-regressors builder needs two-dimensional extra basis
    vectors.  With a one-dimensional array as [extra_basis_vectors], which
    [design_matrix] takes as one more column, [design_matrix_all] never
    returns: it counts the extra columns with [extra_basis_vectors[:, 0]],
    which a one-dimensional array does not support. *)
Theorem design_matrix_all_rejects_flat_extra `{Library} (lc : CheopsLightCurve)
    (harmonics : nat) (norm : bool) (v : vec) :
  extra_basis_vectors lc = Some (A1 v) ->
  exists e, design_matrix_all lc harmonics norm = Raise e.
Proof.
  intros HE. destruct (design_matrix_all lc harmonics norm) as [r|e] eqn:Hr;
    [exfalso | now exists e].
  unfold design_matrix_all in Hr.
  inv_bind Hr as bjd Hbjd. inv_bind Hr as st Hst. destruct st as [X0 names0].
  inv_bind Hr as cen Hcen. destruct cen as [[xc yc] bg].
  inv_bind Hr as nxc Hnxc. inv_bind Hr as nyc Hnyc. inv_bind Hr as nx2 Hnx2.
  inv_bind Hr as ny2 Hny2. inv_bind Hr as xy Hxy. inv_bind Hr as nxy Hnxy.
  inv_bind Hr as nbg Hnbg. inv_bind Hr as X1 HX1.
  cbv zeta in Hr. rewrite HE in Hr.
  inv_bind Hr as X4 HX4. discriminate.
Qed.

Lemma design_matrix_all_rejects_flat_extra_witness :
  let lc := mk_lc (Some Examples.columns) (Some (A1 [Fin 1; Fin 2; Fin 3; Fin 4]))
              (Examples.loaded Examples.columns) (Some [false; false; false; false]) in
  (exists X, design_matrix (H := Examples.table_library) lc false = OK X) /\
  exists e, design_matrix_all (H := Examples.table_library) lc 1 false = Raise e.
Proof.
  split; [eexists; vm_compute; reflexivity|].
  apply (design_matrix_all_rejects_flat_extra (H := Examples.table_library) _ 1 false
           [Fin 1; Fin 2; Fin 3; Fin 4]).
  reflexivity.
Defined.

(** X19.  The matrix of either builder fits the vectors [regress] sets
    against it.  When [design_matrix] or [design_matrix_all] returned a
    matrix for a light curve and [regress] can take [flux[~mask]] and
    [fluxerr[~mask]], the matrix has as many rows as each of the two vectors
    has entries. *)
Theorem design_matrix_fits_regress `{Library} (lc : CheopsLightCurve) (X : ndarray)
    (y yerr : vec) :
  (exists norm, design_matrix lc norm = OK X) \/
  (exists harmonics norm names, design_matrix_all lc harmonics norm = OK (X, names)) ->
  visit_targets lc = OK (y, yerr) ->
  length (rows X) = length y /\ length (rows X) = length yerr /\ shape0 X = length y.
Proof.
  intros Hret Hy.
  assert (Hby : returned_by lc X 0 \/ returned_by lc X 2).
  { destruct Hret as [[norm Hr]|(h & norm & names & Hr)].
    - right. left. now exists norm.
    - left. right. now exists h, norm, names. }
  assert (Hend : exists m Xfull, mask lc = Some m /\ length (rows Xfull) = shape0 Xfull /\
                                 rows_unmasked m Xfull = OK X).
  { destruct Hby as [Hby|Hby]; exact (builders_end_with_mask lc X _ Hby). }
  destruct Hend as (m & Xfull & Hmask & Hrows & HX).
  apply rows_unmasked_OK in HX as [Hm ->]. simpl.
  unfold visit_targets in Hy.
  inv_bind Hy as flux Hflux. inv_bind Hy as m' Hm'. inv_bind Hy as y' Hy'.
  inv_bind Hy as fluxerr Hfluxerr. inv_bind Hy as yerr' Hyerr'. injection Hy as <- <-.
  unfold mask_array in Hm'. rewrite Hmask in Hm'. injection Hm' as <-.
  apply index_unmasked_OK in Hy' as [Lf ->]. apply index_unmasked_OK in Hyerr' as [Le ->].
  rewrite !select_unmasked_length by congruence. auto.
Qed.

Lemma design_matrix_fits_regress_witness :
  exists y yerr,
    visit_targets Examples.extra_visit = OK (y, yerr) /\
    length (rows Examples.extra_visit_matrix) = length y /\
    length (rows Examples.extra_visit_matrix) = length yerr /\
    shape0 Examples.extra_visit_matrix = length y.
Proof.
  eexists _, _. split; [vm_compute; reflexivity|].
  apply (design_matrix_fits_regress (H := Examples.table_library) Examples.extra_visit).
  - left. exists false. vm_compute. reflexivity.
  - vm_compute. reflexivity.
Defined.

(** ** More on the joint object *)

Lemma design_matrix_OK_shape `{Library} (lc : CheopsLightCurve) (norm : bool) (X : ndarray) :
  extra_wf (extra_basis_vectors lc) ->
  design_matrix lc norm = OK X ->
  exists m, mask lc = Some m /\ shape0 X = count_unmasked m /\
            shape1 X = (3 + length (extra_rows (extra_basis_vectors lc)))%nat /\
            wf_ndarray X.
Proof.
  intros Hwf Hr.
  destruct (design_matrix_OK_inv lc norm X Hr)
    as (roll & bjd & m & cs & sn & X1 & Hroll & Hbjd & Hmask & Hcs & Hsn & Hcols & HX1 & HX).
  apply append_extra_columns in HX1 as [Hex ->]; [|exact Hcols|exact Hwf].
  destruct (matrix_of_columns_rows (length bjd)
              ([cs; sn; np_ones (length bjd)] ++ extra_rows (extra_basis_vectors lc)))
    as (HS0 & HS1 & Hlen & Hrows).
  apply rows_unmasked_OK in HX as [Hm ->].
  exists m. split; [exact Hmask|]. split; [reflexivity|]. split; [exact HS1|].
  unfold wf_ndarray. cbn [rows shape0 shape1]. split.
  - apply select_unmasked_length. congruence.
  - rewrite HS1. apply List.Forall_forall. intros r Hin.
    apply (proj1 (List.Forall_forall _ _) Hrows).
    apply list_elem_of_In. eapply select_unmasked_subset. apply list_elem_of_In, Hin.
Qed.

Lemma visits_design_matrices `{Library} (norm : bool) (k : nat) (lcs : list CheopsLightCurve) :
  Forall (visit_ready norm k) lcs ->
  exists Ds rs,
    mapM_result (fun lc => design_matrix lc norm) lcs = OK Ds /\
    mapM_result (fun lc => m ← mask_array lc; mret (count_unmasked m)) lcs = OK rs /\
    per_visit rs (3 + k) Ds /\ length Ds = length lcs.
Proof.
  induction 1 as [|lc lcs (Hdef & Hwf & Hk) _ (Ds & rs & HDs & Hrs & Hpv & Hlen)].
  - exists [], []. repeat split; constructor.
  - destruct (design_matrix_defined_returns lc norm Hdef) as [D HD].
    destruct (design_matrix_OK_shape lc norm D Hwf HD) as (m & Hmask & H0 & H1 & HwfD).
    exists (D :: Ds), (count_unmasked m :: rs).
    split; [cbn [mapM_result]; now rewrite HD, HDs|].
    split; [cbn [mapM_result]; rewrite Hrs; unfold mask_array; now rewrite Hmask|].
    split; [|simpl; now rewrite Hlen].
    constructor; [|exact Hpv]. split; [exact H0|]. split; [congruence | exact HwfD].
Qed.

(** X20.  The joint design matrix of visits left to themselves.  Called
    without matrices, [combined_design_matrix] asks every visit for its
    [design_matrix].  When there is at least one visit and each is one the
    minimal builder accepts, all with the same number [k] of extra basis
    vectors, the call returns; the result is the one for the visits' own
    matrices passed explicitly, with one row per unmasked sample of all
    visits and [3 + k] columns per visit. *)
Theorem combined_design_matrix_default `{Library} (self : JointLightCurve)
    (lcs : list CheopsLightCurve) (norm : bool) (k : nat) :
  joint_light_curves self = OK lcs ->
  lcs <> [] ->
  Forall (visit_ready norm k) lcs ->
  exists Ds rs J,
    mapM_result (fun lc => design_matrix lc norm) lcs = OK Ds /\
    _pad_shapes self = OK rs /\
    combined_design_matrix self None norm = OK J /\
    combined_design_matrix self (Some Ds) norm = OK J /\
    shape0 J = sum_list rs /\ shape1 J = (length lcs * (3 + k))%nat /\
    length (rows J) = sum_list rs.
Proof.
  intros Hl Hne Hall.
  destruct (visits_design_matrices norm k lcs Hall) as (Ds & rs & HDs & Hrs & Hpv & Hlen).
  assert (HDne : Ds <> []) by (destruct Ds, lcs; simpl in *; congruence).
  assert (Hpad : _pad_shapes self = OK rs).
  { unfold _pad_shapes. rewrite Hl. exact Hrs. }
  destruct (padded_blocks_shape rs (3 + k) Ds Hpv) as [Hshape Hwidth].
  destruct (np_hstack_OK (imap (fun i D => padded rs (3 + k) i D) Ds) (sum_list rs))
    as (J & HJ & J0 & J1 & Jl & _).
  { destruct Ds; [congruence | discriminate]. }
  { exact Hshape. }
  assert (Hexp : combined_design_matrix self (Some Ds) norm = OK J).
  { unfold combined_design_matrix. cbn [mbind result_bind]. rewrite Hpad.
    cbn [mbind result_bind].
    destruct Ds as [|D0 Ds'] eqn:EDs; [congruence|]. cbn [mbind result_bind].
    rewrite <- EDs in *.
    assert (Hc0 : shape1 D0 = (3 + k)%nat).
    { destruct (per_visit_lookup rs (3 + k) Ds 0 D0 Hpv) as (_ & Hc0 & _);
        [now rewrite EDs | exact Hc0]. }
    rewrite Hc0.
    rewrite (padded_blocks_OK rs (3 + k) Ds (fun i => i)).
    + cbn [mbind result_bind]. exact HJ.
    + intros i D HD. destruct (per_visit_lookup rs (3 + k) Ds i D Hpv HD)
        as (Hi & Hc & [Hlr _]). auto. }
  exists Ds, rs, J. split; [exact HDs|]. split; [exact Hpad|]. split; [|split; [exact Hexp|]].
  - unfold combined_design_matrix in *. rewrite Hl. cbn [mbind result_bind].
    rewrite HDs. exact Hexp.
  - split; [exact J0|]. split; [congruence | exact Jl].
Qed.

Lemma combined_design_matrix_default_witness :
  exists Ds rs J,
    mapM_result (fun lc => design_matrix (H := Examples.table_library) lc false)
      [Examples.full_visit; Examples.full_visit] = OK Ds /\
    _pad_shapes (mk_joint {[ "light_curves" :=
                               JLightCurves [Examples.full_visit; Examples.full_visit] ]})
    = OK rs /\
    combined_design_matrix (H := Examples.table_library)
      (mk_joint {[ "light_curves" :=
                     JLightCurves [Examples.full_visit; Examples.full_visit] ]})
      None false = OK J /\
    combined_design_matrix (H := Examples.table_library)
      (mk_joint {[ "light_curves" :=
                     JLightCurves [Examples.full_visit; Examples.full_visit] ]})
      (Some Ds) false = OK J /\
    shape0 J = sum_list rs /\ shape1 J = (2 * (3 + 0))%nat /\
    length (rows J) = sum_list rs.
Proof.
  apply (combined_design_matrix_default (H := Examples.table_library)
           (mk_joint {[ "light_curves" :=
                          JLightCurves [Examples.full_visit; Examples.full_visit] ]})
           [Examples.full_visit; Examples.full_visit] false 0).
  - reflexivity.
  - discriminate.
  - assert (Hv : visit_ready false 0 Examples.full_visit).
    { split; [|split; [exact I | reflexivity]].
      eexists _, _, _. split; [vm_compute; reflexivity|].
      split; [vm_compute; reflexivity|]. split; [reflexivity|].
      split; [reflexivity|]. split; [reflexivity|]. split; [exact I | discriminate]. }
    constructor; [exact Hv|]. constructor; [exact Hv | constructor].
Defined.

Lemma copy_loop_skips (lcs : list CheopsLightCurve) (self : JointLightCurve) :
  forall names,
    Forall (fun a => joint_hasattr self a = false) names ->
    foldM_result (copy_attr lcs) self names = OK self.
Proof.
  induction names as [|a names IH]; intros Hall; [reflexivity|].
  apply Forall_cons in Hall as [Ha Hall]. cbn [foldM_result].
  assert (Hskip : copy_attr lcs self a = OK self) by (unfold copy_attr; now rewrite Ha).
  rewrite Hskip. cbn [mbind result_bind]. now apply IH.
Qed.

Lemma object_attrs_underscore (a : string) :
  a ∈ object_attrs -> starts_with_underscore a = true.
Proof.
  intros Ha.
  assert (Hall : Forall (fun a => starts_with_underscore a = true) object_attrs).
  { unfold object_attrs. repeat constructor. }
  rewrite Forall_forall in Hall. apply Hall, Ha.
Qed.

(** X21.  The joint object for ordinary columns.  Given at least one light
    curve whose first one has a record array, none of whose column names, in
    lower case, begins with an underscore or is [light_curves], [attrs] or
    the name of a method of the class (so that [hasattr] finds none of them
    on the new object, the attributes of [object] all beginning with an
    underscore), the constructor returns, copies nothing, and leaves exactly
    two instance attributes: the light curves as they were given and the
    lower-case column names of the first. *)
Theorem joint_init_plain_columns (lc : CheopsLightCurve) (rest : list CheopsLightCurve)
    (cols : list (string * vec)) :
  recs lc = Some cols ->
  Forall (fun c => plain_column (fst c)) cols ->
  exists self,
    JointLightCurve_init (lc :: rest) = OK self /\
    jdict self = <["attrs" := JNames (map (fun c => lower (fst c)) cols)]>
                   (<["light_curves" := JLightCurves (lc :: rest)]> ∅) /\
    joint_light_curves self = OK (lc :: rest).
Proof.
  intros Hrecs Hcols.
  exists (mk_joint (<["attrs" := JNames (map (fun c => lower (fst c)) cols)]>
                      (<["light_curves" := JLightCurves (lc :: rest)]> ∅))).
  split; [|split; reflexivity].
  unfold JointLightCurve_init. cbn [mbind result_bind]. rewrite Hrecs.
  cbn [getattr mbind result_bind]. apply copy_loop_skips.
  apply List.Forall_forall. intros a Ha. apply in_map_iff in Ha as (c & <- & Hc).
  destruct (proj1 (List.Forall_forall _ _) Hcols c Hc) as [Hres Hund].
  unfold joint_reserved in Hres.
  apply not_elem_of_cons in Hres as [H1 Hres]. apply not_elem_of_cons in Hres as [H2 Hres].
  unfold joint_hasattr, joint_setattr. cbn [jdict].
  rewrite !lookup_insert_ne, lookup_empty by congruence.
  rewrite bool_decide_eq_false_2 by (intros [x Hx]; discriminate).
  rewrite bool_decide_eq_false_2; [reflexivity|].
  intros Hin. apply elem_of_app in Hin as [Hin|Hin]; [contradiction|].
  apply object_attrs_underscore in Hin. congruence.
Qed.

Lemma joint_init_plain_columns_witness :
  exists self,
    JointLightCurve_init [Examples.full_visit; Examples.extra_visit] = OK self /\
    jdict self = <["attrs" := JNames (map (fun c => lower (fst c)) Examples.columns)]>
                   (<["light_curves" :=
                        JLightCurves [Examples.full_visit; Examples.extra_visit]]> ∅) /\
    joint_light_curves self = OK [Examples.full_visit; Examples.extra_visit].
Proof.
  apply (joint_init_plain_columns Examples.full_visit [Examples.extra_visit]
           Examples.columns).
  - reflexivity.
  - apply List.Forall_forall. intros c Hc.
    refine (proj1 (List.Forall_forall
                     (fun c => plain_column (fst c)) Examples.columns) _ c Hc).
    unfold Examples.columns.
    repeat (constructor;
            [split; [refine (bool_decide_unpack (_ ∉ _) _); vm_compute; exact I
                    | reflexivity]|]).
    constructor.
Defined.

Lemma vstack_onto_Raise (rest : list ndarray) : forall X e,
  vstack_onto X rest = Raise e -> e = ValueError.
Proof.
  induction rest as [|Y rest IH]; intros X e Hr; simpl in Hr; [discriminate|].
  destruct (Nat.eqb (shape1 X) (shape1 Y)); [eapply IH, Hr | congruence].
Qed.

Lemma padded_block_Raise (rs : list nat) (c i : nat) (D : ndarray) (e : exn) :
  padded_block rs c i D = Raise e -> e = ValueError.
Proof.
  unfold padded_block.
  destruct (Nat.ltb 0 (length (take i rs))), (Nat.ltb 0 (length (drop (i + 1) rs)));
    cbn [omap id]; unfold np_vstack; simpl map; apply vstack_onto_Raise.
Qed.

Lemma padded_block_columns (rs : list nat) (c i : nat) (D P : ndarray) :
  (2 <= length rs)%nat -> padded_block rs c i D = OK P -> shape1 D = c.
Proof.
  intros Hrs Hr. unfold padded_block in Hr.
  destruct (Nat.ltb 0 (length (take i rs))) eqn:Eb.
  - assert (Hfirst : exists more, np_vstack (A2 (np_zeros (sum_list (take i rs)) c)
                                             :: A2 D :: more) = OK P).
    { destruct (Nat.ltb 0 (length (drop (i + 1) rs))); cbn [omap id] in Hr;
        simpl map in Hr; eexists; exact Hr. }
    destruct Hfirst as [more Hfirst]. unfold np_vstack in Hfirst. simpl map in Hfirst.
    apply vstack_onto_OK in Hfirst as [Hall _]. apply Forall_cons in Hall as [HD _].
    exact HD.
  - apply Nat.ltb_ge in Eb. rewrite length_take in Eb.
    assert (Hi : i = 0%nat) by lia. subst i.
    assert (Ea : Nat.ltb 0 (length (drop (0 + 1) rs)) = true).
    { apply Nat.ltb_lt. rewrite length_drop. lia. }
    rewrite Ea in Hr. cbn [omap id] in Hr. unfold np_vstack in Hr. simpl map in Hr.
    apply vstack_onto_OK in Hr as [Hall _]. apply Forall_cons in Hall as [HZ _].
    simpl in HZ. congruence.
Qed.

Lemma mapM_result_OK_lookup {A B : Type} (f : A -> result B) (l : list A) :
  forall ys i x, mapM_result f l = OK ys -> l !! i = Some x -> exists y, f x = OK y.
Proof.
  induction l as [|a l IH]; intros ys i x Hr Hi; [discriminate|].
  simpl in Hr. inv_bind Hr as y Hy. inv_bind Hr as ys' Hys'.
  destruct i as [|i]; [injection Hi as <-; now exists y|].
  exact (IH ys' i x Hys' Hi).
Qed.

Lemma mapM_result_Raise {A B : Type} (f : A -> result B) (l : list A) (e : exn) :
  mapM_result f l = Raise e -> exists x, x ∈ l /\ f x = Raise e.
Proof.
  induction l as [|a l IH]; intros Hr; [discriminate|]. simpl in Hr.
  destruct (f a) as [y|e'] eqn:Ha.
  - cbn [mbind result_bind] in Hr.
    destruct (mapM_result f l) as [ys|e''] eqn:Hl; [discriminate|].
    cbn [mbind result_bind] in Hr. injection Hr as ->.
    destruct (IH eq_refl) as (x & Hx & Hfx). exists x. split; [now right | exact Hfx].
  - cbn [mbind result_bind] in Hr. injection Hr as ->. exists a. split; [left | exact Ha].
Qed.

(** X22.  Visits with different numbers of regressors cannot be combined.
    For a joint object of two or more visits, [combined_design_matrix]
    raises [ValueError] as soon as one of the matrices it is given has a
    number of columns other than that of the first: the zero padding of
    every block takes its width from the first matrix. *)
Theorem combined_design_matrix_column_mismatch `{Library} (self : JointLightCurve)
    (rs : list nat) (Ds : list ndarray) (norm : bool) (i : nat) (D0 D : ndarray) :
  _pad_shapes self = OK rs -> (2 <= length rs)%nat ->
  Ds !! 0%nat = Some D0 -> Ds !! i = Some D -> shape1 D <> shape1 D0 ->
  combined_design_matrix self (Some Ds) norm = Raise ValueError.
Proof.
  intros Hpad Hrs H0 Hi Hne.
  unfold combined_design_matrix. cbn [mbind result_bind]. rewrite Hpad.
  cbn [mbind result_bind].
  destruct Ds as [|D0' Ds'] eqn:EDs; [discriminate|]. injection H0 as ->.
  cbn [mbind result_bind]. rewrite <- EDs in *.
  destruct (mapM_result (fun '(i, D) => padded_block rs (shape1 D0) i D)
              (imap (fun i D => (i, D)) Ds)) as [Ps|e] eqn:HPs.
  - exfalso. apply Hne.
    destruct (mapM_result_OK_lookup _ _ Ps i (i, D) HPs) as [P HP].
    { rewrite list_lookup_imap, Hi. reflexivity. }
    exact (padded_block_columns rs (shape1 D0) i D P Hrs HP).
  - cbn [mbind result_bind]. f_equal.
    apply mapM_result_Raise in HPs as ([k Dk] & _ & Hk).
    exact (padded_block_Raise rs (shape1 D0) k Dk e Hk).
Qed.

Lemma combined_design_matrix_column_mismatch_witness :
  combined_design_matrix (H := Examples.table_library) Examples.joint
    (Some [Examples.block0; Examples.extra_visit_matrix]) false = Raise ValueError.
Proof.
  apply (combined_design_matrix_column_mismatch (H := Examples.table_library)
           Examples.joint [4; 3]%nat [Examples.block0; Examples.extra_visit_matrix]
           false 1 Examples.block0 Examples.extra_visit_matrix).
  - vm_compute. reflexivity.
  - simpl. lia.
  - reflexivity.
  - reflexivity.
  - simpl. lia.
Defined.



(** ** More on phase folding *)

Lemma Qfold_frac (p d : Q) :
  ~ p == 0 -> Qfold p d == d / p - inject_Z (Qfloor (d / p)).
Proof. intros Hp. unfold Qfold, Num.Qmod. field. exact Hp. Qed.

Lemma Qfold_spec_nonzero (p d : Q) :
  ~ p == 0 ->
  (0 <= Qfold p d /\ Qfold p d < 1) /\ exists k : Z, d == (inject_Z k + Qfold p d) * p.
Proof.
  intros Hp. pose proof (Qfold_frac p d Hp) as Hf.
  pose proof (Qfloor_le (d / p)) as Hlo.
  pose proof (Qlt_floor (d / p)) as Hhi.
  rewrite inject_Z_plus in Hhi. change (inject_Z 1) with 1 in Hhi.
  split; [split; lra|].
  exists (Qfloor (d / p)). rewrite Hf. field. exact Hp.
Qed.

Lemma Qfloor_unique (q : Q) (n : Z) :
  inject_Z n <= q -> q < inject_Z n + 1 -> Qfloor q = n.
Proof.
  intros Hlo Hhi.
  pose proof (Qfloor_le q) as Flo. pose proof (Qlt_floor q) as Fhi.
  rewrite inject_Z_plus in Fhi. change (inject_Z 1) with 1 in Fhi.
  destruct (Z.lt_trichotomy (Qfloor q) n) as [Hlt|[Heq|Hgt]]; [exfalso|exact Heq|exfalso].
  - assert (inject_Z (Qfloor q) + 1 <= inject_Z n).
    { change 1 with (inject_Z 1). rewrite <- inject_Z_plus, <- Zle_Qle. lia. }
    lra.
  - assert (inject_Z n + 1 <= inject_Z (Qfloor q)).
    { change 1 with (inject_Z 1). rewrite <- inject_Z_plus, <- Zle_Qle. lia. }
    lra.
Qed.

Lemma Qfloor_shift (q : Q) (k : Z) : (Qfloor q + k)%Z = Qfloor (q + inject_Z k).
Proof.
  symmetry. apply Qfloor_unique.
  - rewrite inject_Z_plus. pose proof (Qfloor_le q). lra.
  - rewrite inject_Z_plus. pose proof (Qlt_floor q) as Fhi.
    rewrite inject_Z_plus in Fhi. change (inject_Z 1) with 1 in Fhi. lra.
Qed.

Lemma Qfold_shift (p d d' : Q) (k : Z) :
  ~ p == 0 -> d' == d + inject_Z k * p -> Qfold p d' == Qfold p d.
Proof.
  intros Hp Hd. rewrite !Qfold_frac by exact Hp.
  assert (Hq : d' / p == d / p + inject_Z k) by (rewrite Hd; field; exact Hp).
  assert (Hfl : Qfloor (d' / p) = (Qfloor (d / p) + k)%Z).
  { rewrite Hq. symmetry. apply Qfloor_shift. }
  rewrite Hfl, inject_Z_plus, Hq. ring.
Qed.

Lemma phase_fin_nonzero (lc : CheopsLightCurve) (pl : Planet.t) (ts : list Q) e p :
  vectors lc !! "bjd_time" = Some (map Fin ts) ->
  Planet.t0 pl = Fin e -> Planet.per pl = Fin p -> ~ p == 0 ->
  phase lc pl = OK (map Fin (map (fun t => Qfold p (t - e)) ts)).
Proof.
  intros Hb He Hp Hnz. unfold phase, attr. rewrite Hb, He, Hp. simpl.
  unfold mret, result_ret. f_equal. rewrite !List.map_map. apply List.map_ext.
  intros t. change (Num.sub (Fin t) (Fin e)) with (Fin (t - e)).
  rewrite mod_fin by exact Hnz. rewrite div_fin by exact Hnz. reflexivity.
Qed.

(** X23.  The phase is periodic.  Two light curves whose times, sample by
    sample, lie a whole number of periods apart once each is counted from the
    epoch of its planet (so: times shifted by whole periods, or an epoch taken
    some transits earlier or later) have the same phases, for any finite
    period other than zero. *)
Theorem phase_periodic (lc lc' : CheopsLightCurve) (pl pl' : Planet.t)
    (ts ts' : list Q) (e e' p : Q) :
  vectors lc !! "bjd_time" = Some (map Fin ts) ->
  vectors lc' !! "bjd_time" = Some (map Fin ts') ->
  Planet.t0 pl = Fin e -> Planet.t0 pl' = Fin e' ->
  Planet.per pl = Fin p -> Planet.per pl' = Fin p -> ~ p == 0 ->
  Forall2 (fun t t' => exists k : Z, t' - e' == t - e + inject_Z k * p) ts ts' ->
  exists phs phs',
    phase lc pl = OK phs /\ phase lc' pl' = OK phs' /\ Forall2 Num.eqv phs phs'.
Proof.
  intros Hb Hb' He He' Hp Hp' Hnz Hshift.
  exists (map Fin (map (fun t => Qfold p (t - e)) ts)),
         (map Fin (map (fun t => Qfold p (t - e')) ts')).
  split; [now apply phase_fin_nonzero|]. split; [now apply phase_fin_nonzero|].
  clear - Hnz Hshift. induction Hshift as [|t t' ts ts' [k Hk] _ IH]; simpl.
  - constructor.
  - constructor; [|exact IH]. simpl. symmetry. exact (Qfold_shift p _ _ k Hnz Hk).
Qed.

Lemma phase_periodic_witness :
  exists phs phs',
    phase (mk_lc None None {[ "bjd_time" := [Fin 1; Fin (5 # 2)] ]} None) Examples.planet
    = OK phs /\
    phase (mk_lc None None {[ "bjd_time" := [Fin 13; Fin (-7 # 2)] ]} None) Examples.planet
    = OK phs' /\
    Forall2 Num.eqv phs phs'.
Proof.
  apply (phase_periodic _ _ Examples.planet Examples.planet
           [1; 5 # 2] [13; -7 # 2] 0 0 6).
  - reflexivity.
  - reflexivity.
  - reflexivity.
  - reflexivity.
  - reflexivity.
  - reflexivity.
  - intros E. discriminate E.
  - constructor; [exists 2%Z; reflexivity|].
    constructor; [exists (-1)%Z; reflexivity | constructor].
Defined.

(** X24.  Periods that are not positive.  In exact arithmetic a negative
    period folds like a positive one: the phases lie in [0, 1) and differ from
    (t - epoch) / period by an integer (in float64 a rounded quotient can
    reach 1, which is outside this statement).  A period of zero raises
    nothing: every phase is NaN. *)
Theorem phase_nonpositive_period (lc : CheopsLightCurve) (pl : Planet.t)
    (ts : list Q) (e p : Q) :
  vectors lc !! "bjd_time" = Some (map Fin ts) ->
  Planet.t0 pl = Fin e -> Planet.per pl = Fin p ->
  (p < 0 ->
   exists phs, phase lc pl = OK (map Fin phs) /\
     Forall2 (fun t ph => (0 <= ph /\ ph < 1) /\
                exists k : Z, t - e == (inject_Z k + ph) * p) ts phs) /\
  (p == 0 -> phase lc pl = OK (map (fun _ => NaN) ts)).
Proof.
  intros Hb He Hp. split.
  - intros Hneg. assert (Hnz : ~ p == 0) by lra.
    eexists. split; [exact (phase_fin_nonzero lc pl ts e p Hb He Hp Hnz)|].
    apply Forall2_map_r. intros t _. apply Qfold_spec_nonzero, Hnz.
  - intros Hz. unfold phase, attr. rewrite Hb, He, Hp. simpl.
    unfold mret, result_ret. f_equal. rewrite List.map_map. apply List.map_ext.
    intros t. apply Qeq_bool_iff in Hz. simpl. now rewrite Hz.
Qed.

Lemma phase_nonpositive_period_witness :
  (exists phs,
     phase (mk_lc None None {[ "bjd_time" := [Fin 1; Fin (-1)] ]} None)
       (Planet.mk (Fin (-4)) (Fin 2) (Fin 90) (Fin 0) (Fin 0)) = OK (map Fin phs) /\
     Forall2 (fun t ph => (0 <= ph /\ ph < 1) /\
                exists k : Z, t - 0 == (inject_Z k + ph) * (-4)) [1; -1] phs) /\
  phase (mk_lc None None {[ "bjd_time" := [Fin 1; Fin (-1)] ]} None)
    (Planet.mk (Fin 0) (Fin 2) (Fin 90) (Fin 0) (Fin 0)) = OK [NaN; NaN].
Proof.
  split.
  - refine (proj1 (phase_nonpositive_period
                     (mk_lc None None {[ "bjd_time" := [Fin 1; Fin (-1)] ]} None)
                     (Planet.mk (Fin (-4)) (Fin 2) (Fin 90) (Fin 0) (Fin 0))
                     [1; -1] 0 (-4) _ _ _) _); reflexivity.
  - refine (proj2 (phase_nonpositive_period
                     (mk_lc None None {[ "bjd_time" := [Fin 1; Fin (-1)] ]} None)
                     (Planet.mk (Fin 0) (Fin 2) (Fin 90) (Fin 0) (Fin 0))
                     [1; -1] 0 0 _ _ _) _); reflexivity.
Defined.

Lemma Qwrap_comp (cut x x' : Q) : x == x' -> Qwrap cut x == Qwrap cut x'.
Proof.
  intros Hx. unfold Qwrap. destruct (Qlt_le_dec cut x), (Qlt_le_dec cut x'); lra.
Qed.

Lemma Qmod_one_fold (p d : Q) : ~ p == 0 -> Num.Qmod (d / p) 1 == Qfold p d.
Proof.
  intros Hp. rewrite Qfold_frac by exact Hp. unfold Num.Qmod.
  assert (Hq : d / p / 1 == d / p) by (field; exact Hp).
  rewrite Hq. ring.
Qed.

(** X25.  The module folds in one way.  The phase [mask_planetary_signal]
    computes around the epoch, [((t - t0) / per) % 1] with the values above
    one half lowered by one, is the phase of the [phase] method,
    [((t - t0) % per) / per], with the values above one half lowered by one
    (for finite times and epoch and a positive period, in exact
    arithmetic). *)
Theorem centred_phase_is_wrapped_phase (lc : CheopsLightCurve) (pl : Planet.t)
    (ts : list Q) (e p : Q) :
  vectors lc !! "bjd_time" = Some (map Fin ts) ->
  Planet.t0 pl = Fin e -> Planet.per pl = Fin p -> 0 < p ->
  exists phs,
    phase lc pl = OK phs /\
    Forall2 Num.eqv (centred_phase (Planet.t0 pl) (Planet.per pl) (map Fin ts))
      (wrap_above Num.half phs).
Proof.
  intros Hb He Hp Hpos. assert (Hnz : ~ p == 0) by lra.
  eexists. split; [exact (phase_fin_nonzero lc pl ts e p Hb He Hp Hnz)|].
  rewrite He, Hp, centred_phase_fin by exact Hpos.
  unfold Num.half. rewrite wrap_above_fin.
  clear - Hnz. induction ts as [|t ts IH]; simpl; constructor; [|exact IH].
  simpl. apply Qwrap_comp, Qmod_one_fold, Hnz.
Qed.

Lemma centred_phase_is_wrapped_phase_witness :
  exists phs,
    phase Examples.visit Examples.planet = OK phs /\
    Forall2 Num.eqv
      (centred_phase (Planet.t0 Examples.planet) (Planet.per Examples.planet)
         (map Fin [0; 3 # 2; 3]))
      (wrap_above Num.half phs).
Proof.
  apply (centred_phase_is_wrapped_phase Examples.visit Examples.planet [0; 3 # 2; 3] 0 6).
  - reflexivity.
  - reflexivity.
  - reflexivity.
  - reflexivity.
Defined.
